(** * kvdex: atomic builder and large collections over an ordered KV store

    A shallow embedding of [src/atomic_builder.ts] and
    [src/large_collection.ts].  The store ([Deno.Kv]) and the helpers of
    [utils.ts] are not among the sources; they are modelled from the
    specification and marked as such.  Promises are run to completion in
    the order in which they are created. *)

From Stdlib Require Import ZArith List String Lia DecimalString.
From stdpp Require Import base option countable gmap strings list.

Set Default Proof Using "Type".
Set Warnings "-register-all,-abstract-large-number".

(** ** Composite keys *)

(** A key part: string, number, bigint, boolean or binary blob.  Numbers
    are the integral ones (segment indices, numeric ids). *)
Inductive KvKeyPart : Type :=
  | PString (s : string)
  | PNumber (n : Z)
  | PBigint (n : Z)
  | PBoolean (b : bool)
  | PBytes (bs : list N).

Definition KvId : Type := KvKeyPart.
Definition KvKey : Type := list KvKeyPart.

#[global] Instance KvKeyPart_eq_dec : EqDecision KvKeyPart.
Proof. solve_decision. Defined.

#[global] Instance KvKeyPart_countable : Countable KvKeyPart.
Proof.
  refine (inj_countable'
    (fun p => match p with
              | PString s => inl s
              | PNumber n => inr (inl n)
              | PBigint n => inr (inr (inl n))
              | PBoolean b => inr (inr (inr (inl b)))
              | PBytes bs => inr (inr (inr (inr bs)))
              end)
    (fun x => match x with
              | inl s => PString s
              | inr (inl n) => PNumber n
              | inr (inr (inl n)) => PBigint n
              | inr (inr (inr (inl b))) => PBoolean b
              | inr (inr (inr (inr bs))) => PBytes bs
              end) _).
  intros []; reflexivity.
Defined.

(** Modelled from the spec: [extendKey] of utils.ts, `extend(key, ...parts)
    -> key`: the key followed by the parts. *)
Definition extendKey (key : KvKey) (parts : list KvKeyPart) : KvKey :=
  key ++ parts.

(** Modelled from the spec: [keyEq] of utils.ts, `equal(a,b) -> bool`:
    equality is part-wise equality. *)
Definition keyEq (k1 k2 : KvKey) : bool := bool_decide (k1 = k2).

(** ** The store *)

Definition Versionstamp : Type := Z.

Inductive KvdexError : Type :=
  | CorruptedDocumentDataError
  | TypeError
  | ModelParseError.

(** The outcome of an asynchronous function: a value, a thrown error, or
    no outcome within the steps allowed. *)
Inductive Completion (A : Type) : Type :=
  | Normal (a : A)
  | Thrown (e : KvdexError)
  | Unfinished.
Arguments Normal {A} a.
Arguments Thrown {A} e.
Arguments Unfinished {A}.

Record AtomicCheck : Type := mkCheck {
  check_key : KvKey;
  check_versionstamp : option Versionstamp;
}.

(** `Deno.KvCommitResult | Deno.KvCommitError`. *)
Inductive KvCommit : Type :=
  | KvCommitResult (versionstamp : Versionstamp)
  | KvCommitError.

Definition commit_ok (cr : KvCommit) : bool :=
  match cr with KvCommitResult _ => true | KvCommitError => false end.

(** How the store adds to a 64-bit counter: the stored value (if any) and
    the delta give the new value, or nothing when the stored value is no
    counter. *)
Class KvCounter (V : Type) := kv_sum : option V -> Z -> option V.

Section Store.
Context {V : Type} `{!KvCounter V}.

Inductive KvMutation : Type :=
  | MutSet (key : KvKey) (value : V)
  | MutDelete (key : KvKey)
  | MutSum (key : KvKey) (n : Z).

(** The pending batch of [kv.atomic()]. *)
Record AtomicOperation : Type := mkAtomic {
  checks : list AtomicCheck;
  mutations : list KvMutation;
}.

Definition atomic : AtomicOperation := mkAtomic [] [].

Definition op_check (cs : list AtomicCheck) (op : AtomicOperation) :=
  mkAtomic (checks op ++ cs) (mutations op).
Definition op_set (key : KvKey) (value : V) (op : AtomicOperation) :=
  mkAtomic (checks op) (mutations op ++ [MutSet key value]).
Definition op_delete (key : KvKey) (op : AtomicOperation) :=
  mkAtomic (checks op) (mutations op ++ [MutDelete key]).
Definition op_sum (key : KvKey) (n : Z) (op : AtomicOperation) :=
  mkAtomic (checks op) (mutations op ++ [MutSum key n]).
Definition op_mutate (ms : list KvMutation) (op : AtomicOperation) :=
  mkAtomic (checks op) (mutations op ++ ms).

(** Modelled from the spec: the [Deno.Kv] store of section 4.2.  Every
    key holds a value and the versionstamp of the write that put it
    there.  A batch is all-or-nothing and a failed check aborts it
    without side effects.  The store is a black box that may also answer
    `{ok:false}` for reasons of its own: [refusals] lists, for the
    coming commits in order, whether the store refuses them. *)
Record Kv : Type := mkKv {
  entries : gmap KvKey (V * Versionstamp);
  clock : Versionstamp;
  refusals : list bool;
}.

Inductive KvOp : Type :=
  | OpGet (key : KvKey)
  | OpGetMany (keys : list KvKey)
  | OpDelete (key : KvKey)
  | OpCommit (op : AtomicOperation) (cr : KvCommit).

(** One store call and the store right after it. *)
Record Event : Type := mkEvent { ev_op : KvOp; ev_after : Kv }.

(** An asynchronous computation over the store: its completion, the
    store it leaves and the store calls it made, oldest first. *)
Definition IO (A : Type) : Type := Kv -> Completion A * Kv * list Event.

Definition ret {A} (a : A) : IO A := fun s => (Normal a, s, []).
Definition throw {A} (e : KvdexError) : IO A := fun s => (Thrown e, s, []).
Definition unfinished {A} : IO A := fun s => (Unfinished, s, []).

Definition bind {A B} (m : IO A) (k : A -> IO B) : IO B := fun s =>
  match m s with
  | (Normal a, s1, t1) =>
      match k a s1 with (c, s2, t2) => (c, s2, t1 ++ t2) end
  | (Thrown e, s1, t1) => (Thrown e, s1, t1)
  | (Unfinished, s1, t1) => (Unfinished, s1, t1)
  end.

Fixpoint mapM {A B} (f : A -> IO B) (l : list A) : IO (list B) :=
  match l with
  | [] => ret []
  | x :: l' => bind (f x) (fun y => bind (mapM f l') (fun ys => ret (y :: ys)))
  end.

(** `kv.get(key)`: value and versionstamp, both null when absent. *)
Definition kv_get (key : KvKey) : IO (option (V * Versionstamp)) := fun s =>
  (Normal (entries s !! key), s, [mkEvent (OpGet key) s]).

(** `getMany(keys)`: the entries in the order of the keys. *)
Definition kv_getMany (keys : list KvKey) : IO (list (option (V * Versionstamp))) :=
  fun s => (Normal (map (fun k => entries s !! k) keys), s,
            [mkEvent (OpGetMany keys) s]).

(** `kv.delete(key)`. *)
Definition kv_delete (key : KvKey) : IO unit := fun s =>
  let s' := mkKv (delete key (entries s)) (clock s + 1)%Z (refusals s) in
  (Normal tt, s', [mkEvent (OpDelete key) s']).

Definition check_passes (m : gmap KvKey (V * Versionstamp)) (c : AtomicCheck) : bool :=
  match m !! check_key c, check_versionstamp c with
  | None, None => true
  | Some (_, vs), Some vs' => bool_decide (vs = vs')
  | _, _ => false
  end.

Definition apply_mutation (vs : Versionstamp)
    (m : gmap KvKey (V * Versionstamp)) (mut : KvMutation)
    : option (gmap KvKey (V * Versionstamp)) :=
  match mut with
  | MutSet key value => Some (<[key := (value, vs)]> m)
  | MutDelete key => Some (delete key m)
  | MutSum key n =>
      match kv_sum (fst <$> m !! key) n with
      | Some v => Some (<[key := (v, vs)]> m)
      | None => None
      end
  end.

Fixpoint apply_mutations (vs : Versionstamp)
    (m : gmap KvKey (V * Versionstamp)) (muts : list KvMutation)
    : option (gmap KvKey (V * Versionstamp)) :=
  match muts with
  | [] => Some m
  | mut :: muts' =>
      match apply_mutation vs m mut with
      | Some m' => apply_mutations vs m' muts'
      | None => None
      end
  end.

Definition refused (s : Kv) : bool :=
  match refusals s with b :: _ => b | [] => false end.

(** What a commit of [op] does to the store. *)
Definition commit_step (op : AtomicOperation) (s : Kv) : KvCommit * Kv :=
  let rejected := mkKv (entries s) (clock s) (tail (refusals s)) in
  if refused s then (KvCommitError, rejected)
  else if forallb (check_passes (entries s)) (checks op) then
    match apply_mutations (clock s) (entries s) (mutations op) with
    | Some m' =>
        (KvCommitResult (clock s), mkKv m' (clock s + 1)%Z (tail (refusals s)))
    | None => (KvCommitError, rejected)
    end
  else (KvCommitError, rejected).

(** `op.commit()`. *)
Definition kv_commit (op : AtomicOperation) : IO KvCommit := fun s =>
  let '(cr, s') := commit_step op s in
  (Normal cr, s', [mkEvent (OpCommit op cr) s']).

End Store.

Arguments AtomicOperation V : clear implicits.
Arguments KvMutation V : clear implicits.
Arguments Kv V : clear implicits.
Arguments Event V : clear implicits.
Arguments KvOp V : clear implicits.
Arguments IO V A : clear implicits.

Notation "'let*' x ':=' m 'in' k" := (bind m (fun x => k))
  (at level 10, x name, m at level 100, k at level 200).

(** ** Values of ordinary and indexable collections *)

(** A stored value: a primitive (the values that are also key parts), a
    64-bit counter, null, an array, or an object with its properties in
    insertion order. *)
Inductive KvValue : Type :=
  | VPart (p : KvKeyPart)
  | VU64 (n : Z)
  | VNull
  | VArray (xs : list KvValue)
  | VObject (fields : list (string * KvValue)).

(** `Model`: the properties of an object value. *)
Definition Model : Type := list (string * KvValue).

Fixpoint get_property (fields : Model) (name : string) : option KvValue :=
  match fields with
  | [] => None
  | (k, v) :: rest => if String.eqb k name then Some v else get_property rest name
  end.

Fixpoint set_property (fields : Model) (name : string) (v : KvValue) : Model :=
  match fields with
  | [] => [(name, v)]
  | (k, w) :: rest =>
      if String.eqb k name then (k, v) :: rest
      else (k, w) :: set_property rest name v
  end.

(** `data as Model`: the values of an indexable collection are objects;
    any other value has none of the indexed properties. *)
Definition as_Model (data : KvValue) : Model :=
  match data with VObject fields => fields | _ => [] end.

(** `_data[index] as KvId | undefined`: index lists name properties that
    hold key parts. *)
Definition index_value (data : Model) (index : string) : option KvId :=
  match get_property data index with
  | Some (VPart p) => Some p
  | _ => None
  end.

(** `{ ..._data, __id__: id }` *)
Definition IndexDataEntry (data : Model) (id : KvId) : KvValue :=
  VObject (set_property data "__id__" (VPart id)).

Definition U64_MODULUS : Z := (2 ^ 64)%Z.

#[global] Instance KvValue_counter : KvCounter KvValue := fun old n =>
  match old with
  | None => Some (VU64 (n mod U64_MODULUS)%Z)
  | Some (VU64 m) => Some (VU64 ((m + n) mod U64_MODULUS)%Z)
  | Some _ => None
  end.

(** ** Collections as the builder sees them *)

(** The members of [IndexableCollection] that the builder reads. *)
Record IndexKeys : Type := mkIndexKeys {
  primaryCollectionIndexKey : KvKey;
  secondaryCollectionIndexKey : KvKey;
  primaryIndexList : list string;
  secondaryIndexList : list string;
}.

(** A collection: its id-key prefix and, when it is an instance of
    [IndexableCollection], its index members. *)
Record Collection : Type := mkCollection {
  collectionIdKey : KvKey;
  indexable : option IndexKeys;
}.

(** ** AtomicBuilder *)

Module AtomicBuilder.

Abbreviation AtomicOp := (AtomicOperation KvValue).

(** What a prepare-delete closure resolves to. *)
Record PreparedIndexDelete : Type := mkPrepared {
  prepared_id : KvId;
  prepared_data : Model;
  prepared_primaryCollectionIndexKey : KvKey;
  prepared_secondaryCollectionIndexKey : KvKey;
  prepared_primaryIndexList : list string;
  prepared_secondaryIndexList : list string;
}.

Record Operations : Type := mkOperations {
  atomicFns : list (AtomicOp -> AtomicOp);
  prepareDeleteFns : list (IO KvValue PreparedIndexDelete);
  indexDeleteCollectionKeys : list KvKey;
  indexAddCollectionKeys : list KvKey;
}.

(** `AtomicMutation<TValue>`: a mutation addressed by document id. *)
Inductive AtomicMutation : Type :=
  | MutateSet (id : KvId) (value : KvValue)
  | MutateDelete (id : KvId)
  | MutateSum (id : KvId) (n : Z).

Section Builder.
Context {TSchema : Type}.

(** [getDocumentId] of utils.ts, which is not among the sources: the
    id that a key carries, if any. *)
Variable getDocumentId : KvKey -> option KvId.

(** The builder.  The store handle `kv` is the store that [IO] threads.
    Every method returns the builder it is called on, and [select]
    hands the same operations object on, so a chain of calls is a
    composition of the functions below. *)
Record AtomicBuilder : Type := mkBuilder {
  schema : TSchema;
  collection : Collection;
  operations : Operations;
}.

(** `new AtomicBuilder(kv, schema, collection)` *)
Definition new (sch : TSchema) (c : Collection) : AtomicBuilder :=
  mkBuilder sch c (mkOperations [] [] [] []).

Definition select (selector : TSchema -> Collection) (b : AtomicBuilder)
    : AtomicBuilder :=
  mkBuilder (schema b) (selector (schema b)) (operations b).

Definition push_atomicFn (fn : AtomicOp -> AtomicOp) (ops : Operations) :=
  mkOperations (atomicFns ops ++ [fn]) (prepareDeleteFns ops)
    (indexDeleteCollectionKeys ops) (indexAddCollectionKeys ops).
Definition push_prepareDeleteFn (fn : IO KvValue PreparedIndexDelete)
    (ops : Operations) :=
  mkOperations (atomicFns ops) (prepareDeleteFns ops ++ [fn])
    (indexDeleteCollectionKeys ops) (indexAddCollectionKeys ops).
Definition push_indexDeleteCollectionKey (k : KvKey) (ops : Operations) :=
  mkOperations (atomicFns ops) (prepareDeleteFns ops)
    (indexDeleteCollectionKeys ops ++ [k]) (indexAddCollectionKeys ops).
Definition push_indexAddCollectionKey (k : KvKey) (ops : Operations) :=
  mkOperations (atomicFns ops) (prepareDeleteFns ops)
    (indexDeleteCollectionKeys ops) (indexAddCollectionKeys ops ++ [k]).

(** The body of `primaryIndexList.forEach` in [add], [set] and [mutate]. *)
Definition add_primary_index (ix : IndexKeys) (id : KvId) (data : Model)
    (ops : Operations) (index : string) : Operations :=
  match index_value data index with
  | None => ops
  | Some indexValue =>
      let indexKey :=
        extendKey (primaryCollectionIndexKey ix) [PString index; indexValue] in
      let indexEntry := IndexDataEntry data id in
      push_atomicFn
        (fun op => op_check [mkCheck indexKey None] (op_set indexKey indexEntry op))
        ops
  end.

(** The body of `secondaryIndexList.forEach` in [add], [set] and
    [mutate]; [value] is the document as given. *)
Definition add_secondary_index (ix : IndexKeys) (id : KvId) (data : Model)
    (value : KvValue) (ops : Operations) (index : string) : Operations :=
  match index_value data index with
  | None => ops
  | Some indexValue =>
      let indexKey :=
        extendKey (secondaryCollectionIndexKey ix)
          [PString index; indexValue; id] in
      push_atomicFn
        (fun op => op_check [mkCheck indexKey None] (op_set indexKey value op))
        ops
  end.

(** `add(data)`; [id] is what `generateId()` returns. *)
Definition add (id : KvId) (data : KvValue) (b : AtomicBuilder) : AtomicBuilder :=
  let collectionIdKey := collectionIdKey (collection b) in
  let idKey := extendKey collectionIdKey [id] in
  let ops := push_atomicFn
    (fun op => op_set idKey data (op_check [mkCheck idKey None] op))
    (operations b) in
  let ops :=
    match indexable (collection b) with
    | Some ix =>
        let _data := as_Model data in
        let ops := push_indexAddCollectionKey collectionIdKey ops in
        let ops := fold_left (add_primary_index ix id _data)
                     (primaryIndexList ix) ops in
        fold_left (add_secondary_index ix id _data data)
          (secondaryIndexList ix) ops
    | None => ops
    end in
  mkBuilder (schema b) (collection b) ops.

(** `set(id, data)` *)
Definition set (id : KvId) (data : KvValue) (b : AtomicBuilder) : AtomicBuilder :=
  let collectionKey := collectionIdKey (collection b) in
  let idKey := extendKey collectionKey [id] in
  let ops := push_atomicFn
    (fun op => op_set idKey data (op_check [mkCheck idKey None] op))
    (operations b) in
  let ops :=
    match indexable (collection b) with
    | Some ix =>
        let _data := as_Model data in
        let ops := push_indexAddCollectionKey collectionKey ops in
        let ops := fold_left (add_primary_index ix id _data)
                     (primaryIndexList ix) ops in
        fold_left (add_secondary_index ix id _data data)
          (secondaryIndexList ix) ops
    | None => ops
    end in
  mkBuilder (schema b) (collection b) ops.

(** The prepare closure of [delete] and [mutate]: read the document and
    keep what the index cleanup needs; `doc.value ?? {}`. *)
Definition prepare_delete (ix : IndexKeys) (id : KvId) (idKey : KvKey)
    : IO KvValue PreparedIndexDelete :=
  let* doc := kv_get idKey in
  ret (mkPrepared id
         (match doc with Some (value, _) => as_Model value | None => [] end)
         (primaryCollectionIndexKey ix) (secondaryCollectionIndexKey ix)
         (primaryIndexList ix) (secondaryIndexList ix)).

(** `delete(id)` *)
Definition delete (id : KvId) (b : AtomicBuilder) : AtomicBuilder :=
  let collectionKey := collectionIdKey (collection b) in
  let idKey := extendKey collectionKey [id] in
  let ops := push_atomicFn (fun op => op_delete idKey op) (operations b) in
  let ops :=
    match indexable (collection b) with
    | Some ix =>
        let ops := push_indexDeleteCollectionKey collectionKey ops in
        push_prepareDeleteFn (prepare_delete ix id idKey) ops
    | None => ops
    end in
  mkBuilder (schema b) (collection b) ops.

(** `check(...atomicChecks)`: each check names a document id. *)
Definition check (atomicChecks : list (KvId * option Versionstamp))
    (b : AtomicBuilder) : AtomicBuilder :=
  let checks := map (fun '(id, versionstamp) =>
    mkCheck (extendKey (collectionIdKey (collection b)) [id]) versionstamp)
    atomicChecks in
  mkBuilder (schema b) (collection b)
    (push_atomicFn (fun op => op_check checks op) (operations b)).

(** `sum(id, value)` *)
Definition sum (id : KvId) (value : Z) (b : AtomicBuilder) : AtomicBuilder :=
  let idKey := extendKey (collectionIdKey (collection b)) [id] in
  mkBuilder (schema b) (collection b)
    (push_atomicFn (fun op => op_sum idKey value op) (operations b)).

(** The body of `kvMutations.forEach` in [mutate]. *)
Definition mutate_each (c : Collection) (ops : Operations)
    (mut : KvMutation KvValue) : Operations :=
  let ops :=
    match mut with
    | MutSet key _ => push_atomicFn (fun op => op_check [mkCheck key None] op) ops
    | _ => ops
    end in
  match indexable c with
  | Some ix =>
      let collectionIdKey := collectionIdKey c in
      let key := match mut with
                 | MutSet key _ | MutDelete key | MutSum key _ => key
                 end in
      match getDocumentId key with
      | None => ops
      | Some id =>
          match mut with
          | MutSet _ value =>
              let ops := push_indexAddCollectionKey collectionIdKey ops in
              let ops := fold_left (add_primary_index ix id (as_Model value))
                           (primaryIndexList ix) ops in
              fold_left (add_secondary_index ix id (as_Model value) value)
                (secondaryIndexList ix) ops
          | MutDelete _ =>
              let ops := push_indexDeleteCollectionKey collectionIdKey ops in
              push_prepareDeleteFn (prepare_delete ix id key) ops
          | MutSum _ _ => ops
          end
      end
  | None => ops
  end.

(** `mutate(...mutations)` *)
Definition mutate (muts : list AtomicMutation) (b : AtomicBuilder)
    : AtomicBuilder :=
  let idKey id := extendKey (collectionIdKey (collection b)) [id] in
  let kvMutations := map (fun m =>
    match m with
    | MutateSet id value => MutSet (idKey id) value
    | MutateDelete id => MutDelete (idKey id)
    | MutateSum id n => MutSum (idKey id) n
    end) muts in
  let ops := push_atomicFn (fun op => op_mutate kvMutations op) (operations b) in
  mkBuilder (schema b) (collection b)
    (fold_left (mutate_each (collection b)) kvMutations ops).

(** The overlap test at the head of [commit]. *)
Definition overlapping (ops : Operations) : bool :=
  existsb (fun addKey =>
    existsb (fun deleteKey => keyEq addKey deleteKey)
      (indexDeleteCollectionKeys ops))
    (indexAddCollectionKeys ops).

(** The follow-up atomic of one prepared delete. *)
Definition index_cleanup (preparedDelete : PreparedIndexDelete) : AtomicOp :=
  let data := prepared_data preparedDelete in
  let atomic1 := fold_left (fun atomic index =>
    match index_value data index with
    | None => atomic
    | Some indexValue =>
        op_delete (extendKey (prepared_primaryCollectionIndexKey preparedDelete)
                     [PString index; indexValue]) atomic
    end) (prepared_primaryIndexList preparedDelete) atomic in
  fold_left (fun atomic index =>
    match index_value data index with
    | None => atomic
    | Some indexValue =>
        op_delete (extendKey (prepared_secondaryCollectionIndexKey preparedDelete)
                     [PString index; indexValue; prepared_id preparedDelete]) atomic
    end) (prepared_secondaryIndexList preparedDelete) atomic1.

(** `commit()` *)
Definition commit (b : AtomicBuilder) : IO KvValue KvCommit :=
  let ops := operations b in
  if overlapping ops then ret KvCommitError
  else
    let* preparedIndexDeletes := mapM (fun fn => fn) (prepareDeleteFns ops) in
    let atomicOperation :=
      fold_left (fun op opFn => opFn op) (atomicFns ops) atomic in
    let* commitResult := kv_commit atomicOperation in
    let* _ :=
      if commit_ok commitResult
      then let* _ := mapM (fun preparedDelete =>
                       kv_commit (index_cleanup preparedDelete))
                       preparedIndexDeletes in
           ret tt
      else ret tt in
    ret commitResult.

End Builder.

Arguments AtomicBuilder TSchema : clear implicits.

End AtomicBuilder.

(** ** Helpers of utils.ts used by large collections *)

Section Utils.
Context {V : Type} `{!KvCounter V}.

(** The bound of the store on the mutations of one atomic batch
    (constants.ts is not among the sources). *)
Variable ATOMIC_OPERATION_MUTATION_LIMIT : nat.

(** Consecutive slices of [n] elements; [fuel] bounds their number. *)
Fixpoint slices {T} (fuel n : nat) (elements : list T) : list (list T) :=
  match fuel, elements with
  | O, _ | _, [] => []
  | S fuel', _ => take n elements :: slices fuel' n (drop n elements)
  end.

(** The callback of [useAtomics] folded over one slice; [l] is the state
    of the local variables that the callback updates. *)
Definition build_batch {T L} (fn : T -> AtomicOperation V -> L -> AtomicOperation V * L)
    (batch : list T) (l : L) : AtomicOperation V * L :=
  fold_left (fun acc x => fn x (fst acc) (snd acc)) batch (atomic, l).

Fixpoint build_batches {T L} (fn : T -> AtomicOperation V -> L -> AtomicOperation V * L)
    (batches : list (list T)) (l : L) : list (AtomicOperation V) * L :=
  match batches with
  | [] => ([], l)
  | batch :: rest =>
      let '(op, l1) := build_batch fn batch l in
      let '(ops, l2) := build_batches fn rest l1 in
      (op :: ops, l2)
  end.

(** Modelled from the spec: [useAtomics] of utils.ts: it `splits a long
    operation list across as many batches as needed, returning per-batch
    commit results`.  The callback adds one element to the pending batch;
    it runs for every element, in order, before the batches are awaited. *)
Definition useAtomics {T L} (elements : list T)
    (fn : T -> AtomicOperation V -> L -> AtomicOperation V * L) (l : L)
    : IO V (list KvCommit * L) :=
  let slicedElements :=
    slices (length elements) ATOMIC_OPERATION_MUTATION_LIMIT elements in
  let '(ops, l') := build_batches fn slicedElements l in
  let* crs := mapM kv_commit ops in
  ret (crs, l').

(** Modelled from the spec: [kvGetMany] of utils.ts, the store's
    `getMany<T>(keys[]) -> entries[]` (ordering preserved). *)
Definition kvGetMany (keys : list KvKey) : IO V (list (option (V * Versionstamp))) :=
  kv_getMany keys.

(** Modelled from the spec: [allFulfilled] of utils.ts, which the spec
    only shows through its uses: every promise is awaited and the values
    of the fulfilled ones are kept. *)
Fixpoint allFulfilled {A} (values : list (IO V A)) : IO V (list A) := fun s =>
  match values with
  | [] => (Normal [], s, [])
  | p :: rest =>
      match p s with
      | (Unfinished, s1, t1) => (Unfinished, s1, t1)
      | (c, s1, t1) =>
          match allFulfilled rest s1 with
          | (Normal l, s2, t2) =>
              (Normal (match c with Normal a => a :: l | _ => l end), s2, t1 ++ t2)
          | (c2, s2, t2) => (c2, s2, t1 ++ t2)
          end
      end
  end.

End Utils.

(** ** LargeCollection *)

Module LargeCollection.

(** `LargeDocumentEntry`: the manifest kept at the id-key. *)
Record LargeDocumentEntry : Type := mkEntry { ids : list KvId }.

(** What the keys of a large collection hold: a manifest at an id-key, a
    string at a segment key. *)
Inductive LargeStored : Type :=
  | StoredEntry (entry : LargeDocumentEntry)
  | StoredString (str : string).

(** A large collection keeps no counters. *)
#[global] Instance LargeStored_counter : KvCounter LargeStored := fun _ _ => None.

(** JavaScript truthiness: an object is truthy, a string unless empty. *)
Definition truthy (v : LargeStored) : bool :=
  match v with
  | StoredEntry _ => true
  | StoredString str => negb (String.eqb str "")
  end.

(** What `join` makes of an array element. *)
Definition to_string (v : LargeStored) : string :=
  match v with
  | StoredEntry _ => "[object Object]"
  | StoredString str => str
  end.

(** `parts.join("")` *)
Definition join (parts : list LargeStored) : string :=
  fold_right (fun v acc => String.append (to_string v) acc) EmptyString parts.

Record LargeCollectionKeys : Type := mkKeys {
  baseKey : KvKey;
  idKey : KvKey;
  segmentKey : KvKey;
}.

Record SetOptions : Type := mkSetOptions { retry : option Z }.

(** `CommitResult<T1> | Deno.KvCommitError` *)
Inductive CommitResult : Type :=
  | CommitOk (id : KvId) (versionstamp : Versionstamp)
  | CommitError.

Section Collection.

(** `LargeKvValue` and the model contract: [parse] returns the validated
    value or throws ([None]). *)
Variable T1 : Type.
Variable model_parse : T1 -> option T1.
Variable idGenerator : T1 -> KvId.

(** `JSON.stringify` and `JSON.parse` ([None]: it throws). *)
Variable JSON_stringify : T1 -> string.
Variable JSON_parse : string -> option T1.

(** constants.ts is not among the sources. *)
Variable KVDEX_KEY_PREFIX ID_KEY_PREFIX SEGMENT_KEY_PREFIX : KvKeyPart.
Variable LARGE_COLLECTION_STRING_LIMIT : nat.
Variable ATOMIC_OPERATION_MUTATION_LIMIT : nat.

(** [getDocumentId] of utils.ts, which is not among the sources. *)
Variable getDocumentId : KvKey -> option KvId.

(** The collection key given to the constructor. *)
Variable key : KvKey.

(** Modelled from the spec: [Document] of document.ts: a read path
    `returns a Document` made of the id, the value and the versionstamp. *)
Record Document : Type := mkDocument {
  doc_id : KvId;
  doc_value : T1;
  doc_versionstamp : Versionstamp;
}.

(** `this._keys`, set by the constructor. *)
Definition _keys : LargeCollectionKeys :=
  mkKeys (extendKey [KVDEX_KEY_PREFIX] key)
         (extendKey [KVDEX_KEY_PREFIX] (key ++ [ID_KEY_PREFIX]))
         (extendKey [KVDEX_KEY_PREFIX] (key ++ [SEGMENT_KEY_PREFIX])).

(** `constructLargeDocument(id, value, versionstamp)`.  A value without
    an `ids` array makes `ids.map` throw. *)
Definition constructLargeDocument (id : KvId) (value : LargeStored)
    (versionstamp : Versionstamp) : IO LargeStored Document :=
  match value with
  | StoredString _ => throw TypeError
  | StoredEntry entry =>
      let keys := map (fun segId => extendKey (segmentKey _keys) [id; segId])
                    (ids entry) in
      let* docEntries := kvGetMany keys in
      let jsonParts := fold_left (fun parts entry =>
        match entry with
        | Some (v, _) => if truthy v then parts ++ [v] else parts
        | None => parts
        end) docEntries [] in
      if negb (length jsonParts =? length docEntries)%nat
      then throw CorruptedDocumentDataError
      else
        let json := join jsonParts in
        match JSON_parse json with
        | Some value => ret (mkDocument id value versionstamp)
        | None => throw CorruptedDocumentDataError
        end
  end.

(** `find(id)` *)
Definition find (id : KvId) : IO LargeStored (option Document) :=
  let idKey := extendKey (idKey _keys) [id] in
  let* got := kv_get idKey in
  match got with
  | None => ret None
  | Some (value, versionstamp) =>
      let* doc := constructLargeDocument id value versionstamp in
      ret (Some doc)
  end.

(** `findMany(ids)`.  A callback pushes at most one document on `result`,
    as its last step; the documents pushed are kept here as the values of
    the callbacks that were fulfilled ([None]: nothing pushed). *)
Definition findMany (ids : list KvId) : IO LargeStored (list Document) :=
  let idKeys := map (fun id => extendKey (idKey _keys) [id]) ids in
  let* entries := kvGetMany idKeys in
  let* pushed := allFulfilled (map (fun '(key, entry) =>
      match getDocumentId key, entry with
      | Some id, Some (value, versionstamp) =>
          let* doc := constructLargeDocument id value versionstamp in
          ret (Some doc)
      | _, _ => ret None
      end) (zip idKeys entries)) in
  ret (omap (fun doc => doc) pushed).

(** The callback of `ids.map` in [delete]. *)
Definition delete_id (id : KvId) : IO LargeStored unit :=
  let idKey := extendKey (idKey _keys) [id] in
  let* got := kv_get idKey in
  match got with
  | None => ret tt
  | Some (value, _) =>
      if negb (truthy value) then ret tt
      else
        let* _ := kv_delete idKey in
        match value with
        | StoredString _ => throw TypeError
        | StoredEntry entry =>
            let* _ := useAtomics ATOMIC_OPERATION_MUTATION_LIMIT (ids entry)
              (fun segId atomic (_ : unit) =>
                 (op_delete (extendKey (segmentKey _keys) [id; segId]) atomic, tt))
              tt in
            ret tt
        end
  end.

(** `delete(...ids)` *)
Definition delete (ids : list KvId) : IO LargeStored unit :=
  let* _ := allFulfilled (map delete_id ids) in
  ret tt.

(** The `for` loop of [setDocument] that slices the JSON text; [fuel]
    bounds its iterations. *)
Fixpoint jsonParts_loop (fuel : nat) (json : string) (i : nat)
    (jsonParts : list string) : list string :=
  match fuel with
  | O => jsonParts
  | S fuel' =>
      if (i <? String.length json)%nat
      then jsonParts_loop fuel' json (i + LARGE_COLLECTION_STRING_LIMIT)
             (jsonParts ++ [substring i LARGE_COLLECTION_STRING_LIMIT json])
      else jsonParts
  end.

(** `options?.retry ?? 0` *)
Definition retry_of (options : option SetOptions) : Z :=
  match options with
  | Some o => match retry o with Some r => r | None => 0%Z end
  | None => 0%Z
  end.

(** The callback given to [useAtomics] in [setDocument]; the local
    variables `index` and `keys` are its state. *)
Definition set_segment (docId : KvId) (str : string)
    (atomic : AtomicOperation LargeStored) (l : Z * list KvKey)
    : AtomicOperation LargeStored * (Z * list KvKey) :=
  let '(index, keys) := l in
  let key := extendKey (segmentKey _keys) [docId; PNumber index] in
  (op_set key (StoredString str) atomic, ((index + 1)%Z, keys ++ [key])).

(** `setDocument(id, value, options, overwrite)`; [fuel] bounds the depth
    of the recursion. *)
Fixpoint setDocument (fuel : nat) (id : option KvId) (value : T1)
    (options : option SetOptions) (overwrite : bool)
    : IO LargeStored CommitResult :=
  match model_parse value with
  | None => throw ModelParseError
  | Some parsed =>
      let docId := match id with Some i => i | None => idGenerator parsed end in
      let idKey := extendKey (idKey _keys) [docId] in
      let* check := kv_commit (op_check [mkCheck idKey None] atomic) in
      if negb (commit_ok check) && negb overwrite then ret CommitError
      else
        let* _ := if negb (commit_ok check) then delete [docId] else ret tt in
        let json := JSON_stringify parsed in
        let jsonParts := jsonParts_loop (String.length json) json 0 [] in
        let* written := useAtomics ATOMIC_OPERATION_MUTATION_LIMIT jsonParts
                          (set_segment docId) (0%Z, []) in
        let crs := fst written in
        let keys := snd (snd written) in
        let success := (0 <? length crs)%nat && forallb commit_ok crs in
        let retry := retry_of options in
        let again :=
          let* _ := allFulfilled (map kv_delete keys) in
          if (0 <? retry)%Z
          then match fuel with
               | S fuel' =>
                   setDocument fuel' (Some docId) parsed
                     (Some (mkSetOptions (Some (retry - 1)%Z))) overwrite
               | O => unfinished
               end
          else ret CommitError in
        if negb success then again
        else
          let entry := mkEntry (omap getDocumentId keys) in
          let* cr := kv_commit (op_set idKey (StoredEntry entry) atomic) in
          match cr with
          | KvCommitError => again
          | KvCommitResult versionstamp => ret (CommitOk docId versionstamp)
          end
  end.

End Collection.
End LargeCollection.

(** ** Chains of builder calls *)

Module BuilderCalls.
Import AtomicBuilder.

Section Calls.
Context {TSchema : Type}.
Variable getDocumentId : KvKey -> option KvId.

(** One call of a fluent method. *)
Inductive Call : Type :=
  | CallSelect (selector : TSchema -> Collection)
  | CallAdd (id : KvId) (data : KvValue)
  | CallSet (id : KvId) (data : KvValue)
  | CallDelete (id : KvId)
  | CallCheck (atomicChecks : list (KvId * option Versionstamp))
  | CallSum (id : KvId) (value : Z)
  | CallMutate (mutations : list AtomicMutation).

Definition call (b : AtomicBuilder TSchema) (c : Call) : AtomicBuilder TSchema :=
  match c with
  | CallSelect selector => select selector b
  | CallAdd id data => add id data b
  | CallSet id data => set id data b
  | CallDelete id => delete id b
  | CallCheck atomicChecks => check atomicChecks b
  | CallSum id value => sum id value b
  | CallMutate mutations => mutate getDocumentId mutations b
  end.

(** `b.m1(..).m2(..)...` *)
Definition chain (cs : list Call) (b : AtomicBuilder TSchema) : AtomicBuilder TSchema :=
  fold_left call cs b.

(** The call adds index entries to the collection in context: [add] or
    [set], or [mutate] with a mutation of type set whose key carries a
    document id, on an indexable collection. *)
Definition adds_index (b : AtomicBuilder TSchema) (c : Call) : Prop :=
  is_Some (indexable (collection b)) /\
  match c with
  | CallAdd _ _ | CallSet _ _ => True
  | CallMutate mutations =>
      exists id value, In (MutateSet id value) mutations /\
        is_Some (getDocumentId (extendKey (collectionIdKey (collection b)) [id]))
  | _ => False
  end.

(** The call deletes index entries of the collection in context:
    [delete], or [mutate] with a mutation of type delete whose key carries
    a document id, on an indexable collection. *)
Definition deletes_index (b : AtomicBuilder TSchema) (c : Call) : Prop :=
  is_Some (indexable (collection b)) /\
  match c with
  | CallDelete _ => True
  | CallMutate mutations =>
      exists id, In (MutateDelete id) mutations /\
        is_Some (getDocumentId (extendKey (collectionIdKey (collection b)) [id]))
  | _ => False
  end.

End Calls.

(** [add] with a generated id, or [set] with a given one. *)
Inductive Insert : Type := ViaAdd | ViaSet.

Definition insert_call {TSchema} (how : Insert) (id : KvId) (data : KvValue)
    : @Call TSchema :=
  match how with
  | ViaAdd => CallAdd id data
  | ViaSet => CallSet id data
  end.

(** The batch that [commit] folds out of the operations of a builder. *)
Definition batch_from (op : AtomicOp) (ops : Operations) : AtomicOp :=
  fold_left (fun op opFn => opFn op) (atomicFns ops) op.

(** A batch with, for every listed key and value, `set(key, value)` and
    `check({key, versionstamp: null})` added. *)
Definition enqueue (fragments : list (KvKey * KvValue)) (op : AtomicOp) : AtomicOp :=
  mkAtomic (checks op ++ map (fun e => mkCheck (fst e) None) fragments)
           (mutations op ++ map (fun e => MutSet (fst e) (snd e)) fragments).

(** `primaryIndexKey(f, value[f])` and `secondaryIndexKey(f, value[f], id)` *)
Definition primaryIndexKey (ix : IndexKeys) (index : string) (indexValue : KvId) : KvKey :=
  extendKey (primaryCollectionIndexKey ix) [PString index; indexValue].
Definition secondaryIndexKey (ix : IndexKeys) (index : string) (indexValue id : KvId)
    : KvKey :=
  extendKey (secondaryCollectionIndexKey ix) [PString index; indexValue; id].

(** The index entries of a document: one per index field whose value is
    defined. *)
Definition primary_entries (ix : IndexKeys) (id : KvId) (data : Model)
    (indices : list string) : list (KvKey * KvValue) :=
  omap (fun index =>
    match index_value data index with
    | Some indexValue => Some (primaryIndexKey ix index indexValue, IndexDataEntry data id)
    | None => None
    end) indices.

Definition secondary_entries (ix : IndexKeys) (id : KvId) (data : Model)
    (value : KvValue) (indices : list string) : list (KvKey * KvValue) :=
  omap (fun index =>
    match index_value data index with
    | Some indexValue => Some (secondaryIndexKey ix index indexValue id, value)
    | None => None
    end) indices.

Definition index_entries (ix : IndexKeys) (id : KvId) (value : KvValue)
    : list (KvKey * KvValue) :=
  primary_entries ix id (as_Model value) (primaryIndexList ix) ++
  secondary_entries ix id (as_Model value) value (secondaryIndexList ix).

(** The fragments that [add] and [set] put in the batch. *)
Definition inserted (c : Collection) (id : KvId) (value : KvValue)
    : list (KvKey * KvValue) :=
  (extendKey (collectionIdKey c) [id], value) ::
  match indexable c with
  | Some ix => index_entries ix id value
  | None => []
  end.

(** A closure of `atomicFns` that only adds to the pending batch. *)
Definition appending (fn : AtomicOp -> AtomicOp) : Prop :=
  forall op, (forall c, In c (checks op) -> In c (checks (fn op))) /\
             (forall m, In m (mutations op) -> In m (mutations (fn op))).

(** A prepare closure that resolves and leaves the store as it is. *)
Definition read_only {A} (p : IO KvValue A) : Prop :=
  forall s, exists a t, p s = (Normal a, s, t).

(** [ops'] has the closures of [ops] and more, all of them well behaved. *)
Definition grows (ops ops' : Operations) : Prop :=
  (exists extra, atomicFns ops' = atomicFns ops ++ extra /\ Forall appending extra) /\
  (Forall read_only (prepareDeleteFns ops) -> Forall read_only (prepareDeleteFns ops')).

(** Two operations objects that [commit] cannot tell apart: the same
    index keys and prepare closures, and the same batch out of every
    pending batch. *)
Definition same_effect (ops1 ops2 : Operations) : Prop :=
  indexAddCollectionKeys ops1 = indexAddCollectionKeys ops2 /\
  indexDeleteCollectionKeys ops1 = indexDeleteCollectionKeys ops2 /\
  prepareDeleteFns ops1 = prepareDeleteFns ops2 /\
  forall op, batch_from op ops1 = batch_from op ops2.

Section Writes.
Context {TSchema : Type}.

(** The call writes the document [id] of the collection in context:
    [add] or [set] of [id], or [mutate] with a mutation of type set for
    [id]. *)
Definition writes_id (c : @Call TSchema) (id : KvId) : Prop :=
  match c with
  | CallAdd id' _ | CallSet id' _ => id' = id
  | CallMutate mutations => exists value, In (MutateSet id value) mutations
  | _ => False
  end.

(** No call of the chain selects an indexable collection. *)
Definition plain (sch : TSchema) (cs : list (@Call TSchema)) : Prop :=
  forall selector, In (CallSelect selector) cs -> indexable (selector sch) = None.

(** The chain is made of [select], [add] and [set] calls. *)
Definition inserts_only (cs : list (@Call TSchema)) : Prop :=
  Forall (fun c => match c with
                   | CallSelect _ | CallAdd _ _ | CallSet _ _ => True
                   | _ => False
                   end) cs.

(** The fragments that the [add] and [set] calls of a chain put in the
    batch, in the order of the calls; [c] is the collection in context. *)
Fixpoint chain_fragments (sch : TSchema) (c : Collection) (cs : list (@Call TSchema))
    : list (KvKey * KvValue) :=
  match cs with
  | [] => []
  | CallSelect selector :: cs' => chain_fragments sch (selector sch) cs'
  | CallAdd id data :: cs' | CallSet id data :: cs' =>
      inserted c id data ++ chain_fragments sch c cs'
  | _ :: cs' => chain_fragments sch c cs'
  end.

End Writes.

(** The keys of the index entries of a document. *)
Definition index_keys (ix : IndexKeys) (id : KvId) (value : KvValue) : list KvKey :=
  map fst (index_entries ix id value).

End BuilderCalls.

(** ** Vocabulary of the large-collection properties *)

Module LargeLayout.

(** `ceil(n / d)` on natural numbers. *)
Definition ceil_div (n d : nat) : nat := (n + d - 1) / d.

(** The local `jsonParts` of [setDocument]: the parts of the JSON text. *)
Definition json_parts (LARGE_COLLECTION_STRING_LIMIT : nat) (json : string)
    : list string :=
  LargeCollection.jsonParts_loop LARGE_COLLECTION_STRING_LIMIT
    (String.length json) json 0 [].

(** The segment indices `0, 1, ..., k - 1`. *)
Definition segment_indices (k : nat) : list KvId :=
  map (fun j => PNumber (Z.of_nat j)) (seq 0 k).

Section LargeVocabulary.
Variable KVDEX_KEY_PREFIX ID_KEY_PREFIX SEGMENT_KEY_PREFIX : KvKeyPart.
Variable key : KvKey.

(** The id-key and the segment keys of a document. *)
Definition id_key (docId : KvId) : KvKey :=
  extendKey (LargeCollection.idKey
    (LargeCollection._keys KVDEX_KEY_PREFIX ID_KEY_PREFIX SEGMENT_KEY_PREFIX key))
    [docId].

Definition segment_key_at (docId segId : KvId) : KvKey :=
  extendKey (LargeCollection.segmentKey
    (LargeCollection._keys KVDEX_KEY_PREFIX ID_KEY_PREFIX SEGMENT_KEY_PREFIX key))
    [docId; segId].

Definition segment_key (docId : KvId) (index : Z) : KvKey :=
  segment_key_at docId (PNumber index).

(** A segment key of [docId] that a prior manifest lists and that a text
    of [n] parts does not use. *)
Definition unused_segment (docId : KvId) (old : list KvId) (n : nat) (k : KvKey) : Prop :=
  exists segId, In segId old /\ k = segment_key_at docId segId /\
    forall j : nat, j < n -> segId <> PNumber (Z.of_nat j).

(** The segment keys from [index] on, each with its part. *)
Fixpoint segment_entries (docId : KvId) (index : Z) (parts : list string)
    : list (KvKey * LargeCollection.LargeStored) :=
  match parts with
  | [] => []
  | part :: rest =>
      (segment_key docId index, LargeCollection.StoredString part)
      :: segment_entries docId (index + 1)%Z rest
  end.

(** The entries of consecutive batches of parts. *)
Fixpoint batch_entries (docId : KvId) (index : Z) (batches : list (list string))
    : list (list (KvKey * LargeCollection.LargeStored)) :=
  match batches with
  | [] => []
  | batch :: rest =>
      segment_entries docId index batch
      :: batch_entries docId (index + Z.of_nat (length batch))%Z rest
  end.

(** The store holds the document [docId] with JSON text cut in [parts]:
    a manifest with versionstamp [vs] that lists the segment indices in
    order, and every part under its segment key. *)
Definition stored (s : Kv LargeCollection.LargeStored) (docId : KvId)
    (parts : list string) (vs : Versionstamp) : Prop :=
  entries s !! id_key docId
    = Some (LargeCollection.StoredEntry
              (LargeCollection.mkEntry (segment_indices (length parts))), vs) /\
  forall (j : nat) (part : string), parts !! j = Some part ->
    exists vsj, entries s !! segment_key docId (Z.of_nat j)
                = Some (LargeCollection.StoredString part, vsj).

End LargeVocabulary.

(** A batch of deletes without checks. *)
Definition deletes_of {V} (keys : list KvKey) : AtomicOperation V :=
  mkAtomic [] (map (fun k => MutDelete k) keys).

(** Between two stores no key gained or changed its entry. *)
Definition only_removed {V} (s s' : Kv V) : Prop :=
  forall k, entries s' !! k = None \/ entries s' !! k = entries s !! k.

(** A computation that leaves the entries at the keys in [K] as they
    are, however it ends. *)
Definition keeps {V A} (K : KvKey -> Prop) (m : IO V A) : Prop :=
  forall s k, K k -> entries (snd (fst (m s))) !! k = entries s !! k.

(** A computation that puts no entry at the keys in [K]: when none of
    them holds an entry before, none does after, however it ends. *)
Definition never_adds {V A} (K : KvKey -> Prop) (m : IO V A) : Prop :=
  forall s, (forall k, K k -> entries s !! k = None) ->
  forall k, K k -> entries (snd (fst (m s))) !! k = None.

(** The key that a mutation changes. *)
Definition mutation_key {V} (mut : KvMutation V) : KvKey :=
  match mut with MutSet key _ | MutDelete key | MutSum key _ => key end.

(** A batch of sets without checks. *)
Definition sets_of {V} (kvs : list (KvKey * V)) : AtomicOperation V :=
  mkAtomic [] (map (fun e => MutSet (fst e) (snd e)) kvs).

(** A store call that is no commit with checks: a read, a delete, or a
    batch without checks. *)
Definition unchecked {V} (ev : Event V) : Prop :=
  match ev_op ev with
  | OpCommit op _ => checks op = []
  | _ => True
  end.

(** A computation all of whose store calls satisfy [P], however it ends. *)
Definition emits {V A} (P : Event V -> Prop) (m : IO V A) : Prop :=
  forall s, Forall P (snd (m s)).

(** *** Reading the segments of a manifest *)

Section Reading.
Variable KVDEX_KEY_PREFIX ID_KEY_PREFIX SEGMENT_KEY_PREFIX : KvKeyPart.
Variable key : KvKey.

(** What [find] cannot use of a segment key: no value, or a value that
    is not truthy (the empty string). *)
Definition unusable (got : option (LargeCollection.LargeStored * Versionstamp)) : Prop :=
  match got with
  | None => True
  | Some (v, _) => LargeCollection.truthy v = false
  end.

(** The values found at the segment keys of a manifest, joined in
    manifest order. *)
Definition segment_text (s : Kv LargeCollection.LargeStored) (id : KvId)
    (entry : LargeCollection.LargeDocumentEntry) : string :=
  LargeCollection.join
    (omap (fun segId =>
       fst <$> (entries s !! segment_key_at KVDEX_KEY_PREFIX ID_KEY_PREFIX
                                SEGMENT_KEY_PREFIX key id segId))
       (LargeCollection.ids entry)).

End Reading.

(** *** One attempt of a write, and the retries around it *)

Section Attempts.
Variable T1 : Type.
Variable model_parse : T1 -> option T1.
Variable idGenerator : T1 -> KvId.
Variable JSON_stringify : T1 -> string.
Variable KVDEX_KEY_PREFIX ID_KEY_PREFIX SEGMENT_KEY_PREFIX : KvKeyPart.
Variable LARGE_COLLECTION_STRING_LIMIT : nat.
Variable ATOMIC_OPERATION_MUTATION_LIMIT : nat.
Variable getDocumentId : KvKey -> option KvId.
Variable key : KvKey.

(** How one attempt ends: the document is written, the id-key is taken
    and must not be overwritten, or a commit of the attempt was not ok. *)
Inductive Attempt : Type :=
  | Written (versionstamp : Versionstamp)
  | Taken
  | Failed.

(** The probe of the id-key: a lone check that it has no versionstamp. *)
Definition probe (docId : KvId) : AtomicOperation LargeCollection.LargeStored :=
  op_check [mkCheck (id_key KVDEX_KEY_PREFIX ID_KEY_PREFIX SEGMENT_KEY_PREFIX key docId) None]
    atomic.

(** Whether a store call is the probe of the id-key of [docId]: a commit
    without mutations whose only check is that the id-key has no
    versionstamp. *)
Definition is_probe (docId : KvId) (ev : Event LargeCollection.LargeStored) : bool :=
  match ev_op ev with
  | OpCommit op _ =>
      match mutations op, checks op with
      | [], [c] =>
          bool_decide (check_key c
                       = id_key KVDEX_KEY_PREFIX ID_KEY_PREFIX SEGMENT_KEY_PREFIX key docId)
          && bool_decide (check_versionstamp c = None)
      | _, _ => false
      end
  | _ => false
  end.

(** The attempts that the store calls of a write show: [setDocument]
    probes the id-key once each time it is entered. *)
Definition attempts_made (docId : KvId) (t : list (Event LargeCollection.LargeStored))
    : nat :=
  length (List.filter (is_probe docId) t).

(** The atomic that sets the manifest of the parts at the id-key. *)
Definition manifest (docId : KvId) (keys : list KvKey)
    : AtomicOperation LargeCollection.LargeStored :=
  op_set (id_key KVDEX_KEY_PREFIX ID_KEY_PREFIX SEGMENT_KEY_PREFIX key docId)
    (LargeCollection.StoredEntry (LargeCollection.mkEntry (omap getDocumentId keys)))
    atomic.

(** Steps 3 to 6 of the write as the specification words them: probe the
    id-key; if the probe fails return when [overwrite] is false and delete
    the prior document when it is true; write the segments; on any batch
    failure delete all segment keys written; set the manifest; if that
    fails tear the segments down. *)
Definition attempt (docId : KvId) (parsed : T1) (overwrite : bool)
    : IO LargeCollection.LargeStored Attempt :=
  let* check := kv_commit (probe docId) in
  if negb (commit_ok check) && negb overwrite then ret Taken
  else
    let* _ := if negb (commit_ok check)
              then LargeCollection.delete KVDEX_KEY_PREFIX ID_KEY_PREFIX
                     SEGMENT_KEY_PREFIX ATOMIC_OPERATION_MUTATION_LIMIT key [docId]
              else ret tt in
    let jsonParts := json_parts LARGE_COLLECTION_STRING_LIMIT (JSON_stringify parsed) in
    let* written := useAtomics ATOMIC_OPERATION_MUTATION_LIMIT jsonParts
                      (LargeCollection.set_segment KVDEX_KEY_PREFIX ID_KEY_PREFIX
                         SEGMENT_KEY_PREFIX key docId) (0%Z, []) in
    let crs := fst written in
    let keys := snd (snd written) in
    if negb ((0 <? length crs)%nat && forallb commit_ok crs)
    then let* _ := allFulfilled (map kv_delete keys) in ret Failed
    else
      let* cr := kv_commit (manifest docId keys) in
      match cr with
      | KvCommitError => let* _ := allFulfilled (map kv_delete keys) in ret Failed
      | KvCommitResult versionstamp => ret (Written versionstamp)
      end.

(** An attempt from the segment writes on: what follows the probe and the
    delete of the prior document. *)
Definition write_parts (docId : KvId) (parsed : T1)
    : IO LargeCollection.LargeStored Attempt :=
  let jsonParts := json_parts LARGE_COLLECTION_STRING_LIMIT (JSON_stringify parsed) in
  let* written := useAtomics ATOMIC_OPERATION_MUTATION_LIMIT jsonParts
                    (LargeCollection.set_segment KVDEX_KEY_PREFIX ID_KEY_PREFIX
                       SEGMENT_KEY_PREFIX key docId) (0%Z, []) in
  let crs := fst written in
  let keys := snd (snd written) in
  if negb ((0 <? length crs)%nat && forallb commit_ok crs)
  then let* _ := allFulfilled (map kv_delete keys) in ret Failed
  else
    let* cr := kv_commit (manifest docId keys) in
    match cr with
    | KvCommitError => let* _ := allFulfilled (map kv_delete keys) in ret Failed
    | KvCommitResult versionstamp => ret (Written versionstamp)
    end.

(** The write as attempts with retries: an attempt that failed is
    repeated with `retry - 1` while `retry > 0`; [attempts] bounds the
    number of repetitions, as the fuel of [setDocument] does: with
    [attempts] repetitions allowed up to `attempts + 1` attempts run. *)
Fixpoint setDocument_attempts (attempts : nat) (id : option KvId) (value : T1)
    (options : option LargeCollection.SetOptions) (overwrite : bool)
    : IO LargeCollection.LargeStored LargeCollection.CommitResult :=
  match model_parse value with
  | None => throw ModelParseError
  | Some parsed =>
      let docId := match id with Some i => i | None => idGenerator parsed end in
      let* outcome := attempt docId parsed overwrite in
      match outcome with
      | Written versionstamp => ret (LargeCollection.CommitOk docId versionstamp)
      | Taken => ret LargeCollection.CommitError
      | Failed =>
          let retry := LargeCollection.retry_of options in
          if (0 <? retry)%Z
          then match attempts with
               | S attempts' =>
                   setDocument_attempts attempts' (Some docId) parsed
                     (Some (LargeCollection.mkSetOptions (Some (retry - 1)%Z))) overwrite
               | O => unfinished
               end
          else ret LargeCollection.CommitError
      end
  end.

End Attempts.

End LargeLayout.

(** ** Concrete collections and stores *)

Module Instances.
Import AtomicBuilder BuilderCalls.

(** The id that a key carries: its last part. *)
Definition last_part (key : KvKey) : option KvId := last key.

(** A collection of users with a primary index on `email` and a
    secondary index on `role`. *)
Definition users_index : IndexKeys :=
  mkIndexKeys
    [PString "__kvdex__"; PString "users"; PString "__index_primary__"]
    [PString "__kvdex__"; PString "users"; PString "__index_secondary__"]
    ["email"%string] ["role"%string].

Definition users : Collection :=
  mkCollection [PString "__kvdex__"; PString "users"; PString "__id__"]
    (Some users_index).

Definition user (name email : string) : KvValue :=
  VObject [("name"%string, VPart (PString name));
           ("email"%string, VPart (PString email))].

(** A user without `email` and without `role`. *)
Definition guest (name : string) : KvValue :=
  VObject [("name"%string, VPart (PString name))].

Definition empty_kv : Kv KvValue := mkKv ∅ 0%Z [].

(** The store after `users.set("u1", {name: "a", email: "x"})` on the
    empty store. *)
Definition one_user : Kv KvValue :=
  snd (fst (commit (call last_part (new tt users)
                      (insert_call ViaSet (PString "u1") (user "a" "x"))) empty_kv)).

(** A collection of notes without indexes, and a store that holds the
    note `n1`. *)
Definition notes : Collection :=
  mkCollection [PString "__kvdex__"; PString "notes"; PString "__id__"] None.

Definition one_note : Kv KvValue :=
  mkKv (<[extendKey (collectionIdKey notes) [PString "n1"]
            := (VPart (PString "old"), 0%Z)]> ∅) 1%Z [].

(** `JSON.stringify` and `JSON.parse` on the non-negative integers. *)
Definition number_stringify (n : nat) : string :=
  NilEmpty.string_of_uint (Nat.to_uint n).

Definition number_parse (json : string) : option nat :=
  match NilEmpty.uint_of_string json with
  | Some Decimal.Nil => None
  | Some (Decimal.D0 Decimal.Nil) => Some 0
  | Some (Decimal.D0 _) => None
  | Some u => Some (Nat.of_uint u)
  | None => None
  end.

(** A large collection `docs` of numbers with string limit 2 and at most
    two mutations in a batch: its key layout and its methods. *)
Definition KVDEX : KvKeyPart := PString "__kvdex__".
Definition ID : KvKeyPart := PString "__id__".
Definition SEGMENT : KvKeyPart := PString "__segment__".
Definition docs : KvKey := [PString "docs"].

Definition docs_set (fuel : nat) (id : option KvId) (value : nat)
    (options : option LargeCollection.SetOptions) (overwrite : bool)
    : IO LargeCollection.LargeStored LargeCollection.CommitResult :=
  LargeCollection.setDocument nat Some (fun _ => PString "generated") number_stringify
    KVDEX ID SEGMENT 2 2 last_part docs fuel id value options overwrite.

Definition docs_find (id : KvId)
    : IO LargeCollection.LargeStored (option (LargeCollection.Document nat)) :=
  LargeCollection.find nat number_parse KVDEX ID SEGMENT docs id.

Definition docs_delete (ids : list KvId) : IO LargeCollection.LargeStored unit :=
  LargeCollection.delete KVDEX ID SEGMENT 2 docs ids.

Definition docs_findMany (ids : list KvId)
    : IO LargeCollection.LargeStored (list (LargeCollection.Document nat)) :=
  LargeCollection.findMany nat number_parse KVDEX ID SEGMENT last_part docs ids.

Definition docs_id_key (id : KvId) : KvKey := LargeLayout.id_key KVDEX ID SEGMENT docs id.
Definition docs_segment_key (id segId : KvId) : KvKey :=
  LargeLayout.segment_key_at KVDEX ID SEGMENT docs id segId.

Definition empty_docs : Kv LargeCollection.LargeStored := mkKv ∅ 0%Z [].

(** A store that refuses the third commit it receives. *)
Definition flaky_docs : Kv LargeCollection.LargeStored := mkKv ∅ 0%Z [false; false; true].

(** A store that refuses the second commit it receives. *)
Definition refusing_docs : Kv LargeCollection.LargeStored := mkKv ∅ 0%Z [false; true].

(** A store that refuses every second commit of the first four. *)
Definition stubborn_docs : Kv LargeCollection.LargeStored :=
  mkKv ∅ 0%Z [false; true; false; true].

(** The collection `docs` behind a model that does not return its own
    output unchanged: it normalises a number to its successor. *)
Definition successor (n : nat) : option nat := Some (S n).

Definition counters_set (fuel : nat) (id : option KvId) (value : nat)
    (options : option LargeCollection.SetOptions) (overwrite : bool)
    : IO LargeCollection.LargeStored LargeCollection.CommitResult :=
  LargeCollection.setDocument nat successor (fun _ => PString "generated")
    number_stringify KVDEX ID SEGMENT 2 2 last_part docs fuel id value options overwrite.

(** Numbers as JavaScript has them, with `NaN`, and the value `null`:
    `JSON.stringify(NaN)` is the text `null`, which `JSON.parse` reads as
    `null`. *)
Inductive Reading : Type :=
  | NaN
  | Null
  | Finite (n : nat).

Definition reading_stringify (r : Reading) : string :=
  match r with
  | Finite n => number_stringify n
  | NaN | Null => "null"
  end.

Definition reading_parse (json : string) : option Reading :=
  if String.eqb json "null" then Some Null else Finite <$> number_parse json.

(** The collection `docs` holding such readings, behind a model that
    accepts every reading as it is. *)
Definition readings_set (fuel : nat) (id : option KvId) (value : Reading)
    (options : option LargeCollection.SetOptions) (overwrite : bool)
    : IO LargeCollection.LargeStored LargeCollection.CommitResult :=
  LargeCollection.setDocument Reading Some (fun _ => PString "generated")
    reading_stringify KVDEX ID SEGMENT 2 2 last_part docs fuel id value options overwrite.

Definition readings_find (id : KvId)
    : IO LargeCollection.LargeStored (option (LargeCollection.Document Reading)) :=
  LargeCollection.find Reading reading_parse KVDEX ID SEGMENT docs id.

(** The store after `docs.set("doc1", 12345)` on the empty store. *)
Definition one_doc : Kv LargeCollection.LargeStored :=
  snd (fst (docs_set 1 (Some (PString "doc1")) 12345 None false empty_docs)).

Definition one_doc_calls : list (Event LargeCollection.LargeStored) :=
  snd (docs_set 1 (Some (PString "doc1")) 12345 None false empty_docs).

(** A manifest of two segments of which the first holds the empty
    string and the second the text `5`. *)
Definition hollow_docs : Kv LargeCollection.LargeStored :=
  mkKv (<[docs_id_key (PString "doc1") :=
            (LargeCollection.StoredEntry (LargeCollection.mkEntry [PNumber 0; PNumber 1]), 2%Z)]>
        (<[docs_segment_key (PString "doc1") (PNumber 0) :=
            (LargeCollection.StoredString "", 1%Z)]>
        (<[docs_segment_key (PString "doc1") (PNumber 1) :=
            (LargeCollection.StoredString "5", 1%Z)]> ∅)))
       3%Z [].

(** The condition of corruption without the empty-string case: a
    manifest at the id-key, and a listed segment key without value or a
    joined text that fails to decode. *)
Definition corrupt_by_absence (s : Kv LargeCollection.LargeStored) (id : KvId) : Prop :=
  exists entry vs,
    entries s !! docs_id_key id = Some (LargeCollection.StoredEntry entry, vs) /\
    ((exists segId, In segId (LargeCollection.ids entry) /\
        entries s !! docs_segment_key id segId = None) \/
     number_parse (LargeLayout.segment_text KVDEX ID SEGMENT docs s id entry) = None).

End Instances.

(** * Properties *)

(** ** The store *)

Section StoreFacts.
Context {V : Type} `{!KvCounter V}.
Implicit Types (s : Kv V) (op : AtomicOperation V).

Lemma bind_assoc {A B C} (m : IO V A) (k : A -> IO V B) (h : B -> IO V C) s :
  bind (bind m k) h s = bind m (fun a => bind (k a) h) s.
Proof.
  unfold bind. destruct (m s) as [[[a| |] s1] t1]; try done.
  destruct (k a s1) as [[[b| |] s2] t2]; try done.
  destruct (h b s2) as [[c s3] t3]. by rewrite app_assoc.
Qed.

Lemma bind_ext {A B} (m : IO V A) (k k' : A -> IO V B) s :
  (forall a s', k a s' = k' a s') -> bind m k s = bind m k' s.
Proof.
  intros H. unfold bind. destruct (m s) as [[[a| |] s1] t1]; try done.
  by rewrite H.
Qed.

Lemma bind_ret_l {A B} (a : A) (k : A -> IO V B) s : bind (ret a) k s = k a s.
Proof. unfold bind, ret. by destruct (k a s) as [[c s'] t]. Qed.

Lemma bind_normal {A B} (m : IO V A) (k : A -> IO V B) s a s1 t1 :
  m s = (Normal a, s1, t1) ->
  bind m k s = (fst (fst (k a s1)), snd (fst (k a s1)), t1 ++ snd (k a s1)).
Proof. intros H. unfold bind. rewrite H. by destruct (k a s1) as [[c s'] t]. Qed.

Lemma bind_prefix {A B} (m : IO V A) (k : A -> IO V B) s c s1 t1 :
  m s = (c, s1, t1) -> exists c' s' rest, bind m k s = (c', s', t1 ++ rest).
Proof.
  intros H. unfold bind. rewrite H. destruct c as [a| |].
  - destruct (k a s1) as [[c' s'] t']. eauto.
  - exists (Thrown e), s1, []. by rewrite app_nil_r.
  - exists Unfinished, s1, []. by rewrite app_nil_r.
Qed.

Lemma commit_step_error_entries op s s' :
  commit_step op s = (KvCommitError, s') -> entries s' = entries s.
Proof.
  unfold commit_step. intros H.
  destruct (refused s); [by inversion H|].
  destruct (forallb _ _); [|by inversion H].
  destruct (apply_mutations _ _ _); by inversion H.
Qed.

Lemma commit_step_error_clock op s s' :
  commit_step op s = (KvCommitError, s') -> clock s' = clock s.
Proof.
  unfold commit_step. intros H.
  destruct (refused s); [by inversion H|].
  destruct (forallb _ _); [|by inversion H].
  destruct (apply_mutations _ _ _); by inversion H.
Qed.

Lemma commit_step_ok op s vs s' :
  commit_step op s = (KvCommitResult vs, s') ->
  refused s = false /\
  forallb (check_passes (entries s)) (checks op) = true /\
  apply_mutations (clock s) (entries s) (mutations op) = Some (entries s') /\
  vs = clock s.
Proof.
  unfold commit_step. intros H.
  destruct (refused s); [by inversion H|].
  destruct (forallb _ _); [|by inversion H].
  destruct (apply_mutations _ _ _); inversion H; subst. done.
Qed.

Lemma apply_sets_keep vs (frags : list (KvKey * V)) m m' k :
  apply_mutations vs m (map (fun e => MutSet (fst e) (snd e)) frags) = Some m' ->
  is_Some (m !! k) -> is_Some (m' !! k).
Proof.
  revert m. induction frags as [|e0 frags IH]; intros m H Hk; simpl in H.
  - by inversion H; subst.
  - apply (IH _ H). apply lookup_insert_is_Some.
    destruct (decide (fst e0 = k)); auto.
Qed.

(** After a batch of sets every key that was set holds a value. *)
Lemma apply_sets vs (frags : list (KvKey * V)) m m' :
  apply_mutations vs m (map (fun e => MutSet (fst e) (snd e)) frags) = Some m' ->
  forall e, In e frags -> is_Some (m' !! fst e).
Proof.
  revert m. induction frags as [|e0 frags IH]; intros m H e He; [done|].
  simpl in H. destruct He as [->|He]; [|by eapply IH].
  apply (apply_sets_keep _ _ _ _ _ H). apply lookup_insert_is_Some. auto.
Qed.

Lemma commit_step_no_mutations op s :
  mutations op = [] -> entries (snd (commit_step op s)) = entries s.
Proof.
  intros H. unfold commit_step. rewrite H. simpl.
  destruct (refused s); [done|]. by destruct (forallb _ _).
Qed.

Lemma commit_step_failed_check op s c :
  In c (checks op) -> check_passes (entries s) c = false ->
  fst (commit_step op s) = KvCommitError.
Proof.
  intros Hin Hc. unfold commit_step.
  destruct (refused s); [done|].
  destruct (forallb _ _) eqn:Hall; [|done].
  rewrite forallb_forall in Hall. rewrite (Hall _ Hin) in Hc. done.
Qed.

Lemma check_absent_fails (m : gmap KvKey (V * Versionstamp)) k :
  is_Some (m !! k) -> check_passes m (mkCheck k None) = false.
Proof. intros [[v vs] H]. unfold check_passes. simpl. by rewrite H. Qed.

End StoreFacts.

(** ** Objects and their properties *)

Lemma get_set_property_eq (fields : Model) (name : string) (v : KvValue) :
  get_property (set_property fields name v) name = Some v.
Proof.
  induction fields as [|[k w] rest IH]; simpl.
  - by rewrite String.eqb_refl.
  - destruct (String.eqb k name) eqn:E; simpl; by rewrite E.
Qed.

Lemma get_set_property_ne (fields : Model) (name other : string) (v : KvValue) :
  other <> name ->
  get_property (set_property fields name v) other = get_property fields other.
Proof.
  intros Hne. induction fields as [|[k w] rest IH]; simpl.
  - destruct (String.eqb name other) eqn:E; [|done].
    apply String.eqb_eq in E. congruence.
  - destruct (String.eqb k name) eqn:E; simpl; [|by rewrite IH].
    apply String.eqb_eq in E. subst k.
    destruct (String.eqb name other) eqn:E'; [|done].
    apply String.eqb_eq in E'. congruence.
Qed.

(** The value of a primary index entry is the object that has the
    properties of the document and, at `__id__`, the id. *)
Lemma IndexDataEntry_properties (data : Model) (id : KvId) :
  exists fields,
    IndexDataEntry data id = VObject fields /\
    get_property fields "__id__" = Some (VPart id) /\
    forall name, name <> "__id__"%string ->
      get_property fields name = get_property data name.
Proof.
  eexists. split; [reflexivity|]. split.
  - apply get_set_property_eq.
  - intros name Hne. by apply get_set_property_ne.
Qed.

(** ** AtomicBuilder: the overlap rule *)

Module BuilderFacts.
Import AtomicBuilder BuilderCalls.

Section Overlap.
Context {TSchema : Type}.
Variable getDocumentId : KvKey -> option KvId.
Implicit Types (b : AtomicBuilder TSchema) (ops : Operations).

Lemma fold_primary_keys ix id data l ops :
  let ops' := fold_left (add_primary_index ix id data) l ops in
  indexAddCollectionKeys ops' = indexAddCollectionKeys ops /\
  indexDeleteCollectionKeys ops' = indexDeleteCollectionKeys ops /\
  prepareDeleteFns ops' = prepareDeleteFns ops.
Proof.
  revert ops. induction l as [|f l IH]; intros ops; [done|].
  simpl. destruct (IH (add_primary_index ix id data ops f)) as (H1 & H2 & H3).
  rewrite H1, H2, H3. unfold add_primary_index.
  by destruct (index_value data f).
Qed.

Lemma fold_secondary_keys ix id data value l ops :
  let ops' := fold_left (add_secondary_index ix id data value) l ops in
  indexAddCollectionKeys ops' = indexAddCollectionKeys ops /\
  indexDeleteCollectionKeys ops' = indexDeleteCollectionKeys ops /\
  prepareDeleteFns ops' = prepareDeleteFns ops.
Proof.
  revert ops. induction l as [|f l IH]; intros ops; [done|].
  simpl. destruct (IH (add_secondary_index ix id data value ops f)) as (H1 & H2 & H3).
  rewrite H1, H2, H3. unfold add_secondary_index.
  by destruct (index_value data f).
Qed.

(** The index fragments of one document leave the markers as they are. *)
Lemma index_fragments_keys ix id data value ops :
  let ops' := fold_left (add_secondary_index ix id data value) (secondaryIndexList ix)
                (fold_left (add_primary_index ix id data) (primaryIndexList ix) ops) in
  indexAddCollectionKeys ops' = indexAddCollectionKeys ops /\
  indexDeleteCollectionKeys ops' = indexDeleteCollectionKeys ops.
Proof.
  simpl.
  destruct (fold_secondary_keys ix id data value (secondaryIndexList ix)
    (fold_left (add_primary_index ix id data) (primaryIndexList ix) ops)) as (H1 & H2 & _).
  destruct (fold_primary_keys ix id data (primaryIndexList ix) ops) as (H3 & H4 & _).
  simpl in *. by rewrite H1, H2, H3, H4.
Qed.

Ltac index_fragments :=
  match goal with
  | |- context [fold_left (add_secondary_index ?ix ?id ?d ?v) _ (fold_left _ _ ?o)] =>
      let H1 := fresh in let H2 := fresh in
      destruct (index_fragments_keys ix id d v o) as [H1 H2];
      simpl in H1, H2; rewrite ?H1, ?H2; clear H1 H2
  end.

(** What one mutation of [mutate] does to the markers. *)
Lemma mutate_each_add_mono c ops mut k :
  In k (indexAddCollectionKeys ops) ->
  In k (indexAddCollectionKeys (mutate_each getDocumentId c ops mut)).
Proof.
  intros Hk. unfold mutate_each.
  destruct (indexable c) as [ix|]; destruct mut as [key value|key|key n];
    try destruct (getDocumentId key) as [id|]; simpl; try done.
  index_fragments. simpl. apply in_or_app. by left.
Qed.

Lemma mutate_each_delete_mono c ops mut k :
  In k (indexDeleteCollectionKeys ops) ->
  In k (indexDeleteCollectionKeys (mutate_each getDocumentId c ops mut)).
Proof.
  intros Hk. unfold mutate_each.
  destruct (indexable c) as [ix|]; destruct mut as [key value|key|key n];
    try destruct (getDocumentId key) as [id|]; simpl; try done.
  - by index_fragments.
  - apply in_or_app. by left.
Qed.

Lemma mutate_each_set_marks c ix ops key value :
  indexable c = Some ix -> is_Some (getDocumentId key) ->
  In (collectionIdKey c)
    (indexAddCollectionKeys (mutate_each getDocumentId c ops (MutSet key value))).
Proof.
  intros Hix [id Hid]. unfold mutate_each. rewrite Hix, Hid.
  index_fragments. simpl. apply in_or_app. right. by left.
Qed.

Lemma mutate_each_delete_marks c ix ops key :
  indexable c = Some ix -> is_Some (getDocumentId key) ->
  In (collectionIdKey c)
    (indexDeleteCollectionKeys (mutate_each getDocumentId c ops (MutDelete key))).
Proof.
  intros Hix [id Hid]. unfold mutate_each. rewrite Hix, Hid.
  simpl. apply in_or_app. right. by left.
Qed.

Lemma fold_mutate_each_mono c muts ops :
  let ops' := fold_left (mutate_each getDocumentId c) muts ops in
  (forall k, In k (indexAddCollectionKeys ops) -> In k (indexAddCollectionKeys ops')) /\
  (forall k, In k (indexDeleteCollectionKeys ops) -> In k (indexDeleteCollectionKeys ops')).
Proof.
  revert ops. induction muts as [|mut muts IH]; intros ops; simpl; [done|].
  destruct (IH (mutate_each getDocumentId c ops mut)) as [H1 H2].
  split; intros k Hk.
  - apply H1. by apply mutate_each_add_mono.
  - apply H2. by apply mutate_each_delete_mono.
Qed.

Lemma fold_mutate_each_marks c ix muts ops mut :
  indexable c = Some ix -> In mut muts ->
  let ops' := fold_left (mutate_each getDocumentId c) muts ops in
  (forall key value, mut = MutSet key value -> is_Some (getDocumentId key) ->
     In (collectionIdKey c) (indexAddCollectionKeys ops')) /\
  (forall key, mut = MutDelete key -> is_Some (getDocumentId key) ->
     In (collectionIdKey c) (indexDeleteCollectionKeys ops')).
Proof.
  intros Hix. revert ops. induction muts as [|m muts IH]; intros ops Hin; [done|].
  simpl. destruct Hin as [->|Hin]; [|by apply IH].
  destruct (fold_mutate_each_mono c muts (mutate_each getDocumentId c ops mut)) as [H1 H2].
  split.
  - intros key value -> Hid. apply H1. by eapply mutate_each_set_marks.
  - intros key -> Hid. apply H2. by eapply mutate_each_delete_marks.
Qed.

(** No call takes a marker away. *)
Lemma call_mono b c :
  (forall k, In k (indexAddCollectionKeys (operations b)) ->
     In k (indexAddCollectionKeys (operations (call getDocumentId b c)))) /\
  (forall k, In k (indexDeleteCollectionKeys (operations b)) ->
     In k (indexDeleteCollectionKeys (operations (call getDocumentId b c)))).
Proof.
  destruct c as [sel|id data|id data|id|cs|id n|muts]; simpl.
  - done.
  - unfold add. destruct (indexable (collection b)) as [ix|]; simpl; [|done].
    index_fragments. simpl. split; [|done]. intros k Hk. apply in_or_app. by left.
  - unfold set. destruct (indexable (collection b)) as [ix|]; simpl; [|done].
    index_fragments. simpl. split; [|done]. intros k Hk. apply in_or_app. by left.
  - unfold delete. destruct (indexable (collection b)) as [ix|]; simpl; [|done].
    split; [done|]. intros k Hk. apply in_or_app. by left.
  - done.
  - done.
  - unfold mutate. simpl.
    match goal with
    | |- context [fold_left _ ?ms ?o] =>
        destruct (fold_mutate_each_mono (collection b) ms o) as [H1 H2]
    end.
    split; intros k Hk; [apply H1|apply H2]; exact Hk.
Qed.

Lemma chain_mono cs b :
  (forall k, In k (indexAddCollectionKeys (operations b)) ->
     In k (indexAddCollectionKeys (operations (chain getDocumentId cs b)))) /\
  (forall k, In k (indexDeleteCollectionKeys (operations b)) ->
     In k (indexDeleteCollectionKeys (operations (chain getDocumentId cs b)))).
Proof.
  revert b. induction cs as [|c cs IH]; intros b; simpl; [done|].
  destruct (IH (call getDocumentId b c)) as [H1 H2].
  destruct (call_mono b c) as [H3 H4]. split; auto.
Qed.

Lemma adds_index_marks b c :
  adds_index getDocumentId b c ->
  In (collectionIdKey (collection b))
    (indexAddCollectionKeys (operations (call getDocumentId b c))).
Proof.
  intros [[ix Hix] Hc].
  destruct c as [sel|id data|id data|id|cs|id n|muts]; simpl in *; try done.
  - unfold add. rewrite Hix. simpl. index_fragments. simpl.
    apply in_or_app. right. by left.
  - unfold set. rewrite Hix. simpl. index_fragments. simpl.
    apply in_or_app. right. by left.
  - destruct Hc as (id & value & Hin & Hid). unfold mutate. simpl.
    eapply (fold_mutate_each_marks _ ix _ _
      (MutSet (extendKey (collectionIdKey (collection b)) [id]) value)); eauto.
    apply in_map_iff. exists (MutateSet id value). done.
Qed.

Lemma deletes_index_marks b c :
  deletes_index getDocumentId b c ->
  In (collectionIdKey (collection b))
    (indexDeleteCollectionKeys (operations (call getDocumentId b c))).
Proof.
  intros [[ix Hix] Hc].
  destruct c as [sel|id data|id data|id|cs|id n|muts]; simpl in *; try done.
  - unfold delete. rewrite Hix. simpl. apply in_or_app. right. by left.
  - destruct Hc as (id & Hin & Hid). unfold mutate. simpl.
    eapply (fold_mutate_each_marks _ ix _ _
      (MutDelete (extendKey (collectionIdKey (collection b)) [id]))); eauto.
    apply in_map_iff. exists (MutateDelete id). done.
Qed.

Lemma overlapping_intro ops addKey deleteKey :
  In addKey (indexAddCollectionKeys ops) ->
  In deleteKey (indexDeleteCollectionKeys ops) ->
  keyEq addKey deleteKey = true ->
  overlapping ops = true.
Proof.
  intros Ha Hd He. unfold overlapping.
  apply existsb_exists. exists addKey. split; [done|].
  apply existsb_exists. by exists deleteKey.
Qed.

(** C3 (overlap rejection).  A chain of calls in which one call adds
    index entries (add, set, or mutate with type set) and one call deletes
    index entries (delete, or mutate with type delete), both in an
    indexable collection and with collection key prefixes that [keyEq]
    holds equal, builds a builder whose [commit] returns `{ok:false}`
    without a single store call: the store is the one it was given and
    the list of store calls is empty, so no prepare closure has run and no
    atomic batch was submitted. *)
Theorem commit_rejects_overlap (b0 : AtomicBuilder TSchema)
    (before_add after_add before_delete after_delete : list Call)
    (adding deleting : Call) (s : Kv KvValue) :
  let cs := before_add ++ adding :: after_add in
  let at_add := chain getDocumentId before_add b0 in
  let at_delete := chain getDocumentId before_delete b0 in
  cs = before_delete ++ deleting :: after_delete ->
  adds_index getDocumentId at_add adding ->
  deletes_index getDocumentId at_delete deleting ->
  keyEq (collectionIdKey (collection at_add))
        (collectionIdKey (collection at_delete)) = true ->
  commit (chain getDocumentId cs b0) s = (Normal KvCommitError, s, []).
Proof.
  intros cs at_add at_delete Hcs Hadd Hdel Heq.
  assert (Ha : In (collectionIdKey (collection at_add))
                 (indexAddCollectionKeys (operations (chain getDocumentId cs b0)))).
  { unfold cs, chain. rewrite fold_left_app. simpl.
    apply chain_mono. by apply adds_index_marks. }
  assert (Hd : In (collectionIdKey (collection at_delete))
                 (indexDeleteCollectionKeys (operations (chain getDocumentId cs b0)))).
  { rewrite Hcs. unfold chain. rewrite fold_left_app. simpl.
    apply chain_mono. by apply deletes_index_marks. }
  unfold commit. by rewrite (overlapping_intro _ _ _ Ha Hd Heq).
Qed.

End Overlap.
End BuilderFacts.

(** ** AtomicBuilder: what add and set enqueue *)

Module BuilderBatches.
Import AtomicBuilder BuilderCalls.

Section Batches.
Context {TSchema : Type}.
Variable getDocumentId : KvKey -> option KvId.
Implicit Types (b : AtomicBuilder TSchema) (ops : Operations) (op : AtomicOp).

Lemma enqueue_app l1 l2 op : enqueue (l1 ++ l2) op = enqueue l2 (enqueue l1 op).
Proof. unfold enqueue. simpl. by rewrite !map_app, !app_assoc. Qed.

Lemma enqueue_cons e l op : enqueue (e :: l) op = enqueue l (enqueue [e] op).
Proof. apply (enqueue_app [e] l). Qed.

Lemma enqueue_nil op : enqueue [] op = op.
Proof. destruct op. unfold enqueue. simpl. by rewrite !app_nil_r. Qed.

Lemma batch_from_push op ops fn :
  batch_from op (push_atomicFn fn ops) = fn (batch_from op ops).
Proof. unfold batch_from. simpl. by rewrite fold_left_app. Qed.

Lemma fold_primary_batch ix id data l ops op :
  batch_from op (fold_left (add_primary_index ix id data) l ops)
  = enqueue (primary_entries ix id data l) (batch_from op ops).
Proof.
  revert ops. induction l as [|f l IH]; intros ops; simpl.
  - by rewrite enqueue_nil.
  - rewrite IH. unfold add_primary_index, primary_entries. simpl.
    destruct (index_value data f) as [x|]; [|done].
    rewrite batch_from_push. fold (primary_entries ix id data l).
    by rewrite enqueue_cons.
Qed.

Lemma fold_secondary_batch ix id data value l ops op :
  batch_from op (fold_left (add_secondary_index ix id data value) l ops)
  = enqueue (secondary_entries ix id data value l) (batch_from op ops).
Proof.
  revert ops. induction l as [|f l IH]; intros ops; simpl.
  - by rewrite enqueue_nil.
  - rewrite IH. unfold add_secondary_index, secondary_entries. simpl.
    destruct (index_value data f) as [x|]; [|done].
    rewrite batch_from_push. fold (secondary_entries ix id data value l).
    by rewrite enqueue_cons.
Qed.

Lemma insert_batch how id value b op :
  batch_from op (operations (call getDocumentId b (insert_call how id value)))
  = enqueue (inserted (collection b) id value) (batch_from op (operations b)).
Proof.
  unfold inserted.
  destruct how; simpl; unfold add, set; simpl;
    (destruct (indexable (collection b)) as [ix|]; simpl;
     [ rewrite fold_secondary_batch, fold_primary_batch;
       unfold index_entries; rewrite enqueue_cons, enqueue_app;
       do 2 f_equal
     | ]; rewrite ?batch_from_push; unfold push_indexAddCollectionKey, batch_from; simpl;
     rewrite ?fold_left_app; simpl; unfold enqueue, op_set, op_check; simpl; done).
Qed.

Lemma grows_refl ops : grows ops ops.
Proof. split; [|done]. exists []. by rewrite app_nil_r. Qed.

Lemma grows_trans ops1 ops2 ops3 : grows ops1 ops2 -> grows ops2 ops3 -> grows ops1 ops3.
Proof.
  intros [(e1 & H1 & F1) P1] [(e2 & H2 & F2) P2]. split; [|auto].
  exists (e1 ++ e2). rewrite H2, H1, app_assoc. split; [done|].
  apply Forall_app. done.
Qed.

Lemma appending_set_check k v :
  appending (fun op => op_check [mkCheck k None] (op_set k v op)).
Proof. intros op. simpl. split; intros x Hx; apply in_or_app; by left. Qed.

Lemma appending_check_set k v :
  appending (fun op => op_set k v (op_check [mkCheck k None] op)).
Proof. intros op. simpl. split; intros x Hx; apply in_or_app; by left. Qed.

Lemma appending_check cs : appending (fun op => op_check cs op).
Proof. intros op. simpl. split; [|done]. intros x Hx. apply in_or_app. by left. Qed.

Lemma appending_mutate ms : appending (fun op => op_mutate ms op).
Proof. intros op. simpl. split; [done|]. intros x Hx. apply in_or_app. by left. Qed.

Lemma appending_delete k : appending (fun op => op_delete k op).
Proof. apply (appending_mutate [MutDelete k]). Qed.

Lemma appending_sum k n : appending (fun op => op_sum k n op).
Proof. apply (appending_mutate [MutSum k n]). Qed.

Lemma grows_push_atomicFn fn ops : appending fn -> grows ops (push_atomicFn fn ops).
Proof. intros Hfn. split; [|done]. exists [fn]. split; [done|]. by constructor. Qed.

Lemma grows_push_add k ops : grows ops (push_indexAddCollectionKey k ops).
Proof. split; [|done]. exists []. simpl. by rewrite app_nil_r. Qed.

Lemma grows_push_delete k ops : grows ops (push_indexDeleteCollectionKey k ops).
Proof. split; [|done]. exists []. simpl. by rewrite app_nil_r. Qed.

Lemma read_only_prepare_delete ix id idKey : read_only (prepare_delete ix id idKey).
Proof. intros s. unfold prepare_delete, bind, kv_get, ret. simpl. eauto. Qed.

Lemma grows_push_prepare ix id idKey ops :
  grows ops (push_prepareDeleteFn (prepare_delete ix id idKey) ops).
Proof.
  split.
  - exists []. simpl. by rewrite app_nil_r.
  - intros H. simpl. apply Forall_app. split; [done|].
    constructor; [|done]. apply read_only_prepare_delete.
Qed.

Lemma grows_fold {X} (step : Operations -> X -> Operations) l ops :
  (forall ops x, grows ops (step ops x)) -> grows ops (fold_left step l ops).
Proof.
  intros Hstep. revert ops. induction l as [|x l IH]; intros ops; simpl.
  - apply grows_refl.
  - eapply grows_trans; [apply Hstep|apply IH].
Qed.

Lemma grows_primary ix id data ops f : grows ops (add_primary_index ix id data ops f).
Proof.
  unfold add_primary_index. destruct (index_value data f); [|apply grows_refl].
  apply grows_push_atomicFn, appending_set_check.
Qed.

Lemma grows_secondary ix id data value ops f :
  grows ops (add_secondary_index ix id data value ops f).
Proof.
  unfold add_secondary_index. destruct (index_value data f); [|apply grows_refl].
  apply grows_push_atomicFn, appending_set_check.
Qed.

Lemma grows_index_fragments ix id data value ops :
  grows ops (fold_left (add_secondary_index ix id data value) (secondaryIndexList ix)
               (fold_left (add_primary_index ix id data) (primaryIndexList ix) ops)).
Proof.
  eapply grows_trans.
  - apply (grows_fold (add_primary_index ix id data)). intros. apply grows_primary.
  - apply (grows_fold (add_secondary_index ix id data value)). intros.
    apply grows_secondary.
Qed.

Lemma grows_mutate_each c ops mut : grows ops (mutate_each getDocumentId c ops mut).
Proof.
  unfold mutate_each.
  assert (Hfirst : grows ops
    match mut with
    | MutSet key _ => push_atomicFn (fun op => op_check [mkCheck key None] op) ops
    | _ => ops
    end).
  { destruct mut; try apply grows_refl. apply grows_push_atomicFn, appending_check. }
  eapply grows_trans; [apply Hfirst|].
  destruct (indexable c) as [ix|]; [|apply grows_refl].
  destruct mut as [key value|key|key n]; destruct (getDocumentId key) as [id|];
    try apply grows_refl.
  - eapply grows_trans; [apply grows_push_add|apply grows_index_fragments].
  - eapply grows_trans; [apply grows_push_delete|apply grows_push_prepare].
Qed.

Lemma grows_call b c : grows (operations b) (operations (call getDocumentId b c)).
Proof.
  destruct c as [sel|id data|id data|id|cs|id n|muts]; simpl.
  - apply grows_refl.
  - unfold add. simpl. eapply grows_trans;
      [apply grows_push_atomicFn, appending_check_set|].
    destruct (indexable (collection b)); [|apply grows_refl].
    eapply grows_trans; [apply grows_push_add|apply grows_index_fragments].
  - unfold set. simpl. eapply grows_trans;
      [apply grows_push_atomicFn, appending_check_set|].
    destruct (indexable (collection b)); [|apply grows_refl].
    eapply grows_trans; [apply grows_push_add|apply grows_index_fragments].
  - unfold delete. simpl. eapply grows_trans;
      [apply grows_push_atomicFn, appending_delete|].
    destruct (indexable (collection b)); [|apply grows_refl].
    eapply grows_trans; [apply grows_push_delete|apply grows_push_prepare].
  - apply grows_push_atomicFn, appending_check.
  - apply grows_push_atomicFn, appending_sum.
  - unfold mutate. simpl. eapply grows_trans;
      [apply grows_push_atomicFn, appending_mutate|].
    apply (grows_fold (mutate_each getDocumentId (collection b))).
    intros. apply grows_mutate_each.
Qed.

Lemma grows_chain cs b : grows (operations b) (operations (chain getDocumentId cs b)).
Proof.
  revert b. induction cs as [|c cs IH]; intros b; simpl; [apply grows_refl|].
  eapply grows_trans; [apply grows_call|apply IH].
Qed.

Lemma fold_appending (extra : list (AtomicOp -> AtomicOp)) op :
  Forall appending extra ->
  let op' := fold_left (fun op opFn => opFn op) extra op in
  (forall c, In c (checks op) -> In c (checks op')) /\
  (forall m, In m (mutations op) -> In m (mutations op')).
Proof.
  intros H. revert op. induction H as [|fn extra Hfn _ IH]; intros op; simpl; [done|].
  destruct (IH (fn op)) as [H1 H2]. destruct (Hfn op) as [H3 H4]. split; auto.
Qed.

Lemma mapM_read_only {A} (ps : list (IO KvValue A)) s :
  Forall read_only ps -> exists l t, mapM (fun fn => fn) ps s = (Normal l, s, t).
Proof.
  induction 1 as [|p ps Hp _ IH]; simpl.
  - unfold ret. eauto.
  - destruct (Hp s) as (a & t & Ha). destruct IH as (l & t' & Hl).
    unfold bind at 1. rewrite Ha. unfold bind at 1. rewrite Hl. unfold ret. eauto.
Qed.

(** A check that fails makes [commit] answer `{ok:false}` and leaves the
    entries of the store as they are. *)
Lemma commit_failing_check b s c :
  Forall read_only (prepareDeleteFns (operations b)) ->
  In c (checks (batch_from atomic (operations b))) ->
  check_passes (entries s) c = false ->
  exists s2 t2, commit b s = (Normal KvCommitError, s2, t2) /\
    entries s2 = entries s /\ clock s2 = clock s.
Proof.
  intros Hro Hin Hfail. unfold commit.
  destruct (overlapping (operations b)); [unfold ret; eauto|].
  destruct (mapM_read_only _ s Hro) as (l & t & Hl).
  unfold bind at 1. rewrite Hl.
  unfold bind at 1. unfold kv_commit.
  pose proof (commit_step_failed_check _ s c Hin Hfail) as Hcr.
  fold (batch_from atomic (operations b)).
  destruct (commit_step (batch_from atomic (operations b)) s) as [cr s'] eqn:Hstep.
  simpl in Hcr. subst cr. simpl. unfold bind, ret. simpl.
  eexists _, _. split; [reflexivity|].
  split; [by eapply commit_step_error_entries|by eapply commit_step_error_clock].
Qed.

(** A fresh builder with one [add] or [set]: [commit] is the commit of
    its batch. *)
Lemma commit_single_insert (sch : TSchema) c how id value s :
  let b := call getDocumentId (new sch c) (insert_call how id value) in
  let batch := enqueue (inserted c id value) atomic in
  commit b s =
    (Normal (fst (commit_step batch s)), snd (commit_step batch s),
     [mkEvent (OpCommit batch (fst (commit_step batch s))) (snd (commit_step batch s))]).
Proof.
  intros b batch.
  assert (Hbatch : batch_from atomic (operations b) = batch).
  { unfold b. rewrite insert_batch. done. }
  assert (Hkeys : indexDeleteCollectionKeys (operations b) = [] /\
                  prepareDeleteFns (operations b) = []).
  { unfold b. destruct how; simpl; unfold add, set; simpl;
      destruct (indexable c) as [ix|]; simpl; try done.
    all: match goal with
         | |- context [fold_left (add_secondary_index ?ix ?id ?d ?v) ?l2 (fold_left _ ?l1 ?o)] =>
             destruct (BuilderFacts.fold_secondary_keys ix id d v l2
                         (fold_left (add_primary_index ix id d) l1 o)) as (_ & H2 & H3);
             destruct (BuilderFacts.fold_primary_keys ix id d l1 o) as (_ & H5 & H6)
         end; simpl in *; by rewrite H2, H3, H5, H6. }
  destruct Hkeys as [Hd Hp].
  unfold commit. unfold overlapping. rewrite Hd, Hp.
  replace (existsb _ (indexAddCollectionKeys (operations b))) with false.
  2:{ symmetry. induction (indexAddCollectionKeys (operations b)); simpl; auto. }
  fold (batch_from atomic (operations b)). rewrite Hbatch.
  simpl. unfold bind, ret, kv_commit. simpl.
  destruct (commit_step batch s) as [cr s']. simpl.
  by destruct cr.
Qed.

Lemma primary_entries_in ix id data l f x :
  In f l -> index_value data f = Some x ->
  In (primaryIndexKey ix f x, IndexDataEntry data id) (primary_entries ix id data l).
Proof.
  intros Hf Hx. unfold primary_entries.
  apply list_elem_of_In, list_elem_of_omap. exists f.
  split; [by apply list_elem_of_In|]. by rewrite Hx.
Qed.

Lemma inserted_primary c ix id value f x :
  indexable c = Some ix -> In f (primaryIndexList ix) ->
  index_value (as_Model value) f = Some x ->
  In (primaryIndexKey ix f x, IndexDataEntry (as_Model value) id) (inserted c id value).
Proof.
  intros Hix Hf Hx. unfold inserted. rewrite Hix. right.
  unfold index_entries. apply in_or_app. left. by apply primary_entries_in.
Qed.

Lemma enqueue_in frags op e :
  In e frags ->
  In (MutSet (fst e) (snd e)) (mutations (enqueue frags op)) /\
  In (mkCheck (fst e) None) (checks (enqueue frags op)).
Proof.
  intros He. unfold enqueue. simpl. split; apply in_or_app; right.
  - by apply (in_map (fun e => MutSet (fst e) (snd e))).
  - by apply (in_map (fun e => mkCheck (fst e) None)).
Qed.

(** C1 (uniqueness).  Take an indexable collection with a primary index
    on [f] and two documents with the same defined value [x] at [f].  The
    first is added or set by a fresh builder whose commit succeeds.  Any
    later chain of calls that adds or sets the second in that collection
    has, in its batch, the set of the primary index key of [(f, x)] to the
    document augmented with `__id__` (an object whose property `__id__`
    is the id of the second document and whose other properties are those
    of the document), and the check that this key has no versionstamp;
    its commit on the store left by the first returns `{ok:false}` and
    leaves entries and clock of the store as they were. *)
Theorem primary_index_unique (sch sch0 : TSchema) (c c0 : Collection)
    (ix : IndexKeys) (f : string) (x : KvId)
    (how1 how2 : Insert) (id1 id2 : KvId) (v1 v2 : KvValue)
    (before after : list Call) (s0 s1 : Kv KvValue) (vs : Versionstamp)
    (t1 : list (Event KvValue)) :
  indexable c = Some ix ->
  In f (primaryIndexList ix) ->
  index_value (as_Model v1) f = Some x ->
  index_value (as_Model v2) f = Some x ->
  commit (call getDocumentId (new sch c) (insert_call how1 id1 v1)) s0
    = (Normal (KvCommitResult vs), s1, t1) ->
  collection (chain getDocumentId before (new sch0 c0)) = c ->
  let b2 := chain getDocumentId (before ++ insert_call how2 id2 v2 :: after)
              (new sch0 c0) in
  let indexKey := primaryIndexKey ix f x in
  let batch := batch_from atomic (operations b2) in
  (exists augmented : Model,
     In (MutSet indexKey (VObject augmented)) (mutations batch) /\
     get_property augmented "__id__" = Some (VPart id2) /\
     forall name, name <> "__id__"%string ->
       get_property augmented name = get_property (as_Model v2) name) /\
  In (mkCheck indexKey None) (checks batch) /\
  exists s2 t2, commit b2 s1 = (Normal KvCommitError, s2, t2) /\
    entries s2 = entries s1 /\ clock s2 = clock s1.
Proof.
  intros Hix Hf Hx1 Hx2 Hfirst.
  (* the first commit leaves an entry at the index key *)
  assert (Hpresent : is_Some (entries s1 !! primaryIndexKey ix f x)).
  { rewrite commit_single_insert in Hfirst.
    destruct (commit_step (enqueue (inserted c id1 v1) atomic) s0) as [cr s'] eqn:Hstep.
    simpl in Hfirst. inversion Hfirst; subst.
    apply commit_step_ok in Hstep as (_ & _ & Hmuts & _).
    unfold enqueue in Hmuts. cbn [mutations atomic app] in Hmuts.
    apply (apply_sets _ _ _ _ Hmuts
             (primaryIndexKey ix f x, IndexDataEntry (as_Model v1) id1)).
    by apply inserted_primary. }
  intros Hc b2 indexKey batch.
  (* the batch of the second builder *)
  set (b_before := chain getDocumentId before (new sch0 c0)) in *.
  set (b_ins := call getDocumentId b_before (insert_call how2 id2 v2)).
  assert (Hb2 : b2 = chain getDocumentId after b_ins).
  { unfold b2, chain. by rewrite fold_left_app. }
  destruct (grows_chain after b_ins) as [(extra & Hfns & Happ) _].
  rewrite <- Hb2 in Hfns.
  assert (Hbatch : batch = fold_left (fun op opFn => opFn op) extra
                     (enqueue (inserted c id2 v2) (batch_from atomic (operations b_before)))).
  { unfold batch, batch_from. rewrite Hfns, fold_left_app.
    fold (batch_from atomic (operations b_ins)). unfold b_ins.
    by rewrite insert_batch, Hc. }
  destruct (fold_appending extra
    (enqueue (inserted c id2 v2) (batch_from atomic (operations b_before))) Happ)
    as [Hchecks Hmuts].
  destruct (enqueue_in (inserted c id2 v2) (batch_from atomic (operations b_before))
    (indexKey, IndexDataEntry (as_Model v2) id2)) as [Hm Hck].
  { by apply inserted_primary. }
  assert (Hin_check : In (mkCheck indexKey None) (checks batch)).
  { rewrite Hbatch. by apply Hchecks. }
  split.
  { destruct (IndexDataEntry_properties (as_Model v2) id2)
      as (augmented & Hentry & Hid & Hothers).
    exists augmented. split; [|by split].
    rewrite <- Hentry, Hbatch. by apply Hmuts. }
  split; [done|].
  apply (commit_failing_check b2 s1 (mkCheck indexKey None)); [|done|].
  - apply (grows_chain (before ++ insert_call how2 id2 v2 :: after) (new sch0 c0)).
    simpl. constructor.
  - by apply check_absent_fails.
Qed.

Lemma primary_entries_keys ix id data l k :
  In k (map fst (primary_entries ix id data l)) ->
  exists g v, In g l /\ index_value data g = Some v /\ k = primaryIndexKey ix g v.
Proof.
  intros Hk. apply in_map_iff in Hk as ([k' e] & <- & He).
  apply list_elem_of_In, list_elem_of_omap in He as (g & Hg & Hsome).
  destruct (index_value data g) as [v|] eqn:Hv; [|done].
  inversion Hsome; subst. exists g, v. split; [by apply list_elem_of_In|done].
Qed.

Lemma secondary_entries_keys ix id data value l k :
  In k (map fst (secondary_entries ix id data value l)) ->
  exists g v, In g l /\ index_value data g = Some v /\ k = secondaryIndexKey ix g v id.
Proof.
  intros Hk. apply in_map_iff in Hk as ([k' e] & <- & He).
  apply list_elem_of_In, list_elem_of_omap in He as (g & Hg & Hsome).
  destruct (index_value data g) as [v|] eqn:Hv; [|done].
  inversion Hsome; subst. exists g, v. split; [by apply list_elem_of_In|done].
Qed.

Lemma forallb_checks_absent (m : gmap KvKey (KvValue * Versionstamp))
    (frags : list (KvKey * KvValue)) :
  forallb (check_passes m) (map (fun e => mkCheck (fst e) None) frags) = true <->
  forall e, In e frags -> m !! fst e = None.
Proof.
  rewrite forallb_forall. split.
  - intros H e He. specialize (H (mkCheck (fst e) None)).
    unfold check_passes in H. simpl in H.
    destruct (m !! fst e) as [[v vs]|]; [|done].
    discriminate H. by apply (in_map (fun e => mkCheck (fst e) None)).
  - intros H c Hc. apply in_map_iff in Hc as (e & <- & He).
    unfold check_passes. simpl. by rewrite (H e He).
Qed.

Lemma apply_sets_total vs (frags : list (KvKey * KvValue)) m :
  is_Some (apply_mutations vs m (map (fun e => MutSet (fst e) (snd e)) frags)).
Proof. revert m. induction frags as [|e frags IH]; intros m; simpl; eauto. Qed.

Lemma omap_none {A B} (f : A -> option B) (l : list A) :
  (forall x, In x l -> f x = None) -> omap f l = [].
Proof.
  induction l as [|x l IH]; intros H; [done|].
  simpl. rewrite (H x) by by left. apply IH. intros y Hy. apply H. by right.
Qed.

Lemma index_entries_none ix id value :
  (forall g, In g (primaryIndexList ix ++ secondaryIndexList ix) ->
     index_value (as_Model value) g = None) ->
  index_entries ix id value = [].
Proof.
  intros H. unfold index_entries, primary_entries, secondary_entries.
  rewrite !omap_none; [done| |].
  - intros g Hg. rewrite H; [done|]. apply in_or_app. by right.
  - intros g Hg. rewrite H; [done|]. apply in_or_app. by left.
Qed.

(** A fresh builder with one [add] or [set] of a document without index
    values, on a store that has no entry at the id-key and does not refuse
    the batch: the commit sets the id-key. *)
Lemma commit_lone_insert (sch : TSchema) c ix how id value s :
  indexable c = Some ix ->
  index_entries ix id value = [] ->
  refused s = false ->
  entries s !! extendKey (collectionIdKey c) [id] = None ->
  exists t,
    commit (call getDocumentId (new sch c) (insert_call how id value)) s
    = (Normal (KvCommitResult (clock s)),
       mkKv (<[extendKey (collectionIdKey c) [id] := (value, clock s)]> (entries s))
            (clock s + 1)%Z (tail (refusals s)), t).
Proof.
  intros Hix Hnone Href Hfree. rewrite commit_single_insert.
  unfold inserted. rewrite Hix, Hnone.
  unfold commit_step, enqueue. cbn [checks mutations atomic app map fst snd].
  rewrite Href. cbn [forallb]. unfold check_passes. cbn [check_key check_versionstamp].
  rewrite Hfree. cbn [andb apply_mutations apply_mutation fst snd]. eauto.
Qed.

(** C9 (sparse indexes).  On an indexable collection, [add] and [set] of
    a document whose value at the index field [f] is undefined put in the
    batch the id-key fragment and the index fragments of the document,
    and no primary and no secondary index fragment (entry with its check)
    has the index key of [f], whatever the value.  Hence a commit of such a
    document by a fresh builder succeeds exactly when the store does not
    refuse it and none of these fragment keys, of which none belongs to
    [f], holds an entry already: it cannot fail through a collision at the
    primary index [f], whatever was added before.  In particular two
    documents with different ids that leave every index field undefined
    are both committed, one after the other, by a store that refuses
    nothing and has their id-keys free. *)
Theorem sparse_index (sch : TSchema) (b : AtomicBuilder TSchema) (ix : IndexKeys)
    (f : string) (how : Insert) (id : KvId) (value : KvValue) :
  indexable (collection b) = Some ix ->
  index_value (as_Model value) f = None ->
  let c := collection b in
  let b' := call getDocumentId b (insert_call how id value) in
  let fragments := (extendKey (collectionIdKey c) [id], value) :: index_entries ix id value in
  (forall op, batch_from op (operations b') = enqueue fragments (batch_from op (operations b))) /\
  (forall x, ~ In (primaryIndexKey ix f x)
     (map fst (primary_entries ix id (as_Model value) (primaryIndexList ix)))) /\
  (forall x, ~ In (secondaryIndexKey ix f x id)
     (map fst (secondary_entries ix id (as_Model value) value (secondaryIndexList ix)))) /\
  (forall s, exists cr s' t,
     commit (call getDocumentId (new sch c) (insert_call how id value)) s
       = (Normal cr, s', t) /\
     (commit_ok cr = true <->
      refused s = false /\ forall e, In e fragments -> entries s !! fst e = None)) /\
  (forall (how' : Insert) (id' : KvId) (value' : KvValue) (s0 : Kv KvValue),
     (forall g, In g (primaryIndexList ix ++ secondaryIndexList ix) ->
        index_value (as_Model value) g = None /\
        index_value (as_Model value') g = None) ->
     id' <> id ->
     refusals s0 = [] ->
     entries s0 !! extendKey (collectionIdKey c) [id'] = None ->
     entries s0 !! extendKey (collectionIdKey c) [id] = None ->
     exists vs1 s1 t1 vs2 s2 t2,
       commit (call getDocumentId (new sch c) (insert_call how' id' value')) s0
         = (Normal (KvCommitResult vs1), s1, t1) /\
       commit (call getDocumentId (new sch c) (insert_call how id value)) s1
         = (Normal (KvCommitResult vs2), s2, t2)).
Proof.
  intros Hix Hf c b' fragments. subst c.
  assert (Hfrag : inserted (collection b) id value = fragments).
  { unfold inserted, fragments. by rewrite Hix. }
  split; [|split; [|split; [|split]]].
  - intros op. unfold b'. by rewrite insert_batch, Hfrag.
  - intros x Hin. apply primary_entries_keys in Hin as (g & v & _ & Hv & Hk).
    unfold primaryIndexKey, extendKey in Hk. apply app_inv_head in Hk.
    inversion Hk; subst. by rewrite Hf in Hv.
  - intros x Hin. apply secondary_entries_keys in Hin as (g & v & _ & Hv & Hk).
    unfold secondaryIndexKey, extendKey in Hk. apply app_inv_head in Hk.
    inversion Hk; subst. by rewrite Hf in Hv.
  - intros s. rewrite commit_single_insert, Hfrag.
    eexists _, _, _. split; [reflexivity|].
    unfold commit_step, enqueue. cbn [checks mutations atomic app].
    destruct (refused s); [simpl; split; [done|by intros [? _]]|].
    destruct (forallb _ _) eqn:Hall.
    + destruct (apply_sets_total (clock s) fragments (entries s)) as [m' Hm'].
      rewrite Hm'. cbn [fst commit_ok]. split; [|done]. intros _. split; [done|].
      by apply (forallb_checks_absent (entries s) fragments).
    + cbn [fst commit_ok]. split; [done|]. intros [_ Habs].
      apply (forallb_checks_absent (entries s) fragments) in Habs. congruence.
  - intros how' id' value' s0 Hnone Hids Hrefusals Hfree' Hfree.
    destruct (commit_lone_insert sch (collection b) ix how' id' value' s0)
      as [t1 Hrun1]; [done| |by unfold refused; rewrite Hrefusals|done|].
    { apply index_entries_none. intros g Hg. by apply Hnone. }
    destruct (commit_lone_insert sch (collection b) ix how id value
      (mkKv (<[extendKey (collectionIdKey (collection b)) [id'] := (value', clock s0)]>
               (entries s0)) (clock s0 + 1)%Z (tail (refusals s0))))
      as [t2 Hrun2]; [done| | |  |].
    { apply index_entries_none. intros g Hg. by apply Hnone. }
    { unfold refused. simpl. by rewrite Hrefusals. }
    { simpl. rewrite lookup_insert_ne; [done|].
      unfold extendKey. intros Heq. apply app_inv_head in Heq. congruence. }
    eauto 10.
Qed.

Lemma index_cleanup_no_data id pk sk pl sl :
  index_cleanup (mkPrepared id [] pk sk pl sl) = atomic.
Proof.
  unfold index_cleanup. simpl.
  assert (H : forall (l : list string) (a : AtomicOp),
    fold_left (fun atomic (_ : string) => atomic) l a = a).
  { induction l; simpl; auto. }
  by rewrite !H.
Qed.

(** C10 (delete of an absent document).  A fresh builder with one
    [delete] on an indexable collection, committed on a store that has no
    entry at the id-key and does not refuse the batch: the prepare closure
    reads the id-key and resolves with an empty object for the data; the
    main batch, a lone delete of the id-key, commits; the cleanup atomic
    that follows is empty, with no delete of any index key; the entries of
    the store are the same before and after. *)
Theorem delete_absent_document (sch : TSchema) (c : Collection) (ix : IndexKeys)
    (id : KvId) (s : Kv KvValue) :
  indexable c = Some ix ->
  entries s !! extendKey (collectionIdKey c) [id] = None ->
  refused s = false ->
  let b := delete id (new sch c) in
  let idKey := extendKey (collectionIdKey c) [id] in
  let main := op_delete idKey atomic in
  exists prepare prepared s1 s2 cr2,
    prepareDeleteFns (operations b) = [prepare] /\
    prepare s = (Normal prepared, s, [mkEvent (OpGet idKey) s]) /\
    prepared_data prepared = [] /\
    index_cleanup prepared = atomic /\
    commit b s =
      (Normal (KvCommitResult (clock s)), s2,
       [mkEvent (OpGet idKey) s;
        mkEvent (OpCommit main (KvCommitResult (clock s))) s1;
        mkEvent (OpCommit (index_cleanup prepared) cr2) s2]) /\
    entries s1 = entries s /\ entries s2 = entries s.
Proof.
  intros Hix Habsent Hrefused b idKey main.
  set (prepared := mkPrepared id [] (primaryCollectionIndexKey ix)
    (secondaryCollectionIndexKey ix) (primaryIndexList ix) (secondaryIndexList ix)).
  set (s1 := mkKv (entries s) (clock s + 1)%Z (tail (refusals s))).
  exists (prepare_delete ix id idKey), prepared,
    s1, (snd (commit_step (@atomic KvValue) s1)), (fst (commit_step (@atomic KvValue) s1)).
  assert (Hprep : prepare_delete ix id idKey s
                  = (Normal prepared, s, [mkEvent (OpGet idKey) s])).
  { unfold prepare_delete, bind, kv_get, ret. fold idKey in Habsent.
    by rewrite Habsent. }
  assert (Hclean : index_cleanup prepared = atomic) by apply index_cleanup_no_data.
  assert (Hmain : commit_step main s = (KvCommitResult (clock s), s1)).
  { unfold commit_step, main. rewrite Hrefused. simpl.
    fold idKey. by rewrite (delete_id _ _ Habsent). }
  split; [unfold b, delete; simpl; by rewrite Hix|].
  split; [done|]. split; [done|]. split; [done|].
  split.
  - unfold commit, b, delete. simpl. rewrite Hix. simpl.
    unfold bind at 1. unfold bind at 1. fold idKey. rewrite Hprep.
    unfold ret at 1. unfold bind at 1. simpl.
    unfold bind at 1. unfold kv_commit at 1. fold main. rewrite Hmain.
    simpl. rewrite Hclean.
    unfold bind, ret, kv_commit.
    by destruct (commit_step atomic s1) as [cr2 s2].
  - split; [done|].
    unfold commit_step. destruct (refused s1); simpl; done.
Qed.

End Batches.
End BuilderBatches.

(** ** Slices *)

Import LargeLayout.

Section SliceFacts.
Context {T : Type}.
Implicit Types (l : list T) (n fuel : nat).

Lemma slices_nil fuel n : slices fuel n (@nil T) = [].
Proof. by destruct fuel. Qed.

Lemma slices_concat fuel n l :
  0 < n -> length l <= fuel -> concat (slices fuel n l) = l.
Proof.
  intros Hn. revert l. induction fuel as [|fuel IH]; intros l Hl.
  - destruct l; [done|simpl in Hl; lia].
  - destruct l as [|x l]; [done|].
    change (slices (S fuel) n (x :: l))
      with (take n (x :: l) :: slices fuel n (drop n (x :: l))).
    simpl concat. rewrite IH.
    + apply take_drop.
    + rewrite length_drop. simpl in *. lia.
Qed.

Lemma slices_nonempty fuel n l :
  0 < n -> Forall (fun batch => batch <> []) (slices fuel n l).
Proof.
  intros Hn. revert l. induction fuel as [|fuel IH]; intros l; [constructor|].
  destruct l as [|x l]; [constructor|].
  change (slices (S fuel) n (x :: l))
    with (take n (x :: l) :: slices fuel n (drop n (x :: l))).
  constructor; [|apply IH]. destruct n; [lia|done].
Qed.

Lemma ceil_div_0 n : 0 < n -> ceil_div 0 n = 0.
Proof. intros Hn. unfold ceil_div. apply Nat.div_small. lia. Qed.

Lemma ceil_div_step m n : 0 < n -> 0 < m -> ceil_div m n = S (ceil_div (m - n) n).
Proof.
  intros Hn Hm. unfold ceil_div.
  destruct (le_lt_dec m n) as [Hle|Hgt].
  - replace (m - n) with 0 by lia. rewrite (Nat.div_small (0 + n - 1)) by lia.
    symmetry. apply (Nat.div_unique _ _ _ (m - 1)); lia.
  - replace (m + n - 1) with ((m - n + n - 1) + 1 * n) by lia.
    rewrite (Nat.div_add (m - n + n - 1) 1 n) by lia. lia.
Qed.

Lemma slices_length fuel n l :
  0 < n -> length l <= fuel ->
  length (slices fuel n l) = ceil_div (length l) n.
Proof.
  intros Hn. revert l. induction fuel as [|fuel IH]; intros l Hl.
  - destruct l; [|simpl in Hl; lia]. simpl. by rewrite ceil_div_0.
  - destruct l as [|x l]; [simpl; by rewrite ceil_div_0|].
    change (slices (S fuel) n (x :: l))
      with (take n (x :: l) :: slices fuel n (drop n (x :: l))).
    simpl length at 1. rewrite IH by (rewrite length_drop; simpl in *; lia).
    rewrite length_drop. rewrite (ceil_div_step (length (x :: l)) n); simpl; lia.
Qed.

Lemma slices_lookup fuel n l i :
  0 < n -> length l <= fuel -> i * n < length l ->
  slices fuel n l !! i = Some (take n (drop (i * n) l)).
Proof.
  intros Hn. revert l i. induction fuel as [|fuel IH]; intros l i Hl Hi.
  - destruct l; simpl in *; lia.
  - destruct l as [|x l]; [simpl in Hi; lia|].
    change (slices (S fuel) n (x :: l))
      with (take n (x :: l) :: slices fuel n (drop n (x :: l))).
    destruct i as [|i]; [done|].
    simpl lookup. rewrite IH.
    + rewrite drop_drop. do 2 f_equal.
    + rewrite length_drop. simpl in *. lia.
    + rewrite length_drop. simpl in *. lia.
Qed.

End SliceFacts.

(** ** The JSON text and its parts *)

Module LargeFacts.
Import LargeCollection.

Section Strings.

Lemma length_list_ascii (s : string) :
  length (list_ascii_of_string s) = String.length s.
Proof. induction s; simpl; auto. Qed.

Lemma substring_list (i n : nat) (s : string) :
  list_ascii_of_string (substring i n s) = take n (drop i (list_ascii_of_string s)).
Proof.
  revert i n. induction s as [|a s IH]; intros i n.
  - destruct i, n; done.
  - destruct i as [|i].
    + destruct n as [|n]; [done|]. simpl. f_equal. apply (IH 0).
    + simpl. apply IH.
Qed.

Lemma append_list (s1 s2 : string) :
  list_ascii_of_string (String.append s1 s2)
  = list_ascii_of_string s1 ++ list_ascii_of_string s2.
Proof. induction s1; simpl; [done|]. by f_equal. Qed.

Lemma list_ascii_inj (s1 s2 : string) :
  list_ascii_of_string s1 = list_ascii_of_string s2 -> s1 = s2.
Proof.
  intros H. rewrite <- (string_of_list_ascii_of_string s1),
    <- (string_of_list_ascii_of_string s2). by rewrite H.
Qed.

Variable LIMIT : nat.

Lemma jsonParts_loop_slices fuel json i acc :
  map list_ascii_of_string (jsonParts_loop LIMIT fuel json i acc)
  = map list_ascii_of_string acc
    ++ slices fuel LIMIT (drop i (list_ascii_of_string json)).
Proof.
  revert i acc. induction fuel as [|fuel IH]; intros i acc; simpl.
  - by rewrite app_nil_r.
  - destruct (Nat.ltb_spec i (String.length json)) as [Hlt|Hge].
    + rewrite IH, map_app. simpl. rewrite substring_list, <- app_assoc. simpl.
      destruct (drop i (list_ascii_of_string json)) as [|a l] eqn:Hdrop.
      { apply (f_equal length) in Hdrop. rewrite length_drop, length_list_ascii in Hdrop.
        simpl in Hdrop. lia. }
      rewrite <- Hdrop, drop_drop. done.
    + rewrite drop_ge by (rewrite length_list_ascii; lia).
      by rewrite app_nil_r.
Qed.

Lemma join_strings (parts : list string) :
  list_ascii_of_string (join (map StoredString parts))
  = concat (map list_ascii_of_string parts).
Proof.
  induction parts as [|p parts IH]; simpl; [done|].
  rewrite append_list. by f_equal.
Qed.

Hypothesis LIMIT_positive : 0 < LIMIT.

Lemma json_parts_chars json :
  map list_ascii_of_string (json_parts LIMIT json)
  = slices (String.length json) LIMIT (list_ascii_of_string json).
Proof. unfold json_parts. by rewrite jsonParts_loop_slices. Qed.

(** The parts, joined, are the JSON text. *)
Lemma json_parts_join json : join (map StoredString (json_parts LIMIT json)) = json.
Proof using LIMIT_positive.
  apply list_ascii_inj. rewrite join_strings, json_parts_chars.
  apply slices_concat; [done|]. by rewrite length_list_ascii.
Qed.

(** There are `ceil(n / LIMIT)` parts. *)
Lemma json_parts_length json :
  length (json_parts LIMIT json) = ceil_div (String.length json) LIMIT.
Proof using LIMIT_positive.
  rewrite <- (length_map list_ascii_of_string), json_parts_chars.
  rewrite slices_length, length_list_ascii; [done..|].
  by rewrite length_list_ascii.
Qed.

(** No part is empty. *)
Lemma json_parts_nonempty json :
  Forall (fun part => part <> EmptyString) (json_parts LIMIT json).
Proof using LIMIT_positive.
  pose proof (slices_nonempty (String.length json) LIMIT
    (list_ascii_of_string json) LIMIT_positive) as H.
  rewrite <- json_parts_chars in H. rewrite Forall_map in H.
  eapply Forall_impl; [exact H|]. intros part Hp ->. by apply Hp.
Qed.

End Strings.
End LargeFacts.

(** ** Batches of sets and of deletes *)

Section BatchFacts.
Context {V : Type} `{!KvCounter V}.
Implicit Types (s : Kv V) (m : gmap KvKey (V * Versionstamp)) (kvs : list (KvKey * V)).

Lemma apply_sets_result vs kvs m :
  exists m', apply_mutations vs m (map (fun e => MutSet (fst e) (snd e)) kvs) = Some m' /\
    (forall k, ~ In k (map fst kvs) -> m' !! k = m !! k) /\
    (NoDup (map fst kvs) -> forall e, In e kvs -> m' !! fst e = Some (snd e, vs)).
Proof.
  revert m. induction kvs as [|[k0 v0] kvs IH]; intros m; simpl.
  - exists m. repeat split; try done.
  - destruct (IH (<[k0 := (v0, vs)]> m)) as (m' & Hm' & Hframe & Hset).
    exists m'. split; [done|]. split.
    + intros k Hk. rewrite Hframe by tauto. apply lookup_insert_ne. tauto.
    + intros Hnd e [<-|He].
      * simpl. apply NoDup_cons in Hnd as [Hnotin _].
        rewrite Hframe by (by rewrite <- list_elem_of_In).
        apply lookup_insert_eq.
      * apply Hset; [|done]. by apply NoDup_cons in Hnd as [_ ?].
Qed.

(** A commit of sets without checks fails only when the store refuses. *)
Lemma commit_step_sets kvs s :
  let '(cr, s') := commit_step (sets_of kvs) s in
  refusals s' = tail (refusals s) /\
  (forall k, ~ In k (map fst kvs) -> entries s' !! k = entries s !! k) /\
  (forall vs, cr = KvCommitResult vs ->
     NoDup (map fst kvs) -> forall e, In e kvs -> entries s' !! fst e = Some (snd e, vs)) /\
  (commit_ok cr = negb (refused s)).
Proof.
  unfold commit_step, sets_of. simpl.
  destruct (refused s); simpl; [done|].
  destruct (apply_sets_result (clock s) kvs (entries s)) as (m' & -> & Hframe & Hset).
  simpl. split; [done|]. split; [done|]. split; [|done].
  intros vs Hvs. inversion Hvs; subst. done.
Qed.

(** Batches of sets committed one after the other. *)
Lemma mapM_commit_sets (batches : list (list (KvKey * V))) s :
  exists crs s' t,
    mapM kv_commit (map sets_of batches) s = (Normal crs, s', t) /\
    length crs = length batches /\
    (forall k, ~ In k (map fst (concat batches)) -> entries s' !! k = entries s !! k) /\
    (forallb commit_ok crs = true -> NoDup (map fst (concat batches)) ->
       forall e, In e (concat batches) -> exists vs, entries s' !! fst e = Some (snd e, vs)).
Proof.
  revert s. induction batches as [|kvs batches IH]; intros s; simpl.
  - exists [], s, []. unfold ret. repeat split; try done.
  - pose proof (commit_step_sets kvs s) as Hstep.
    unfold bind at 1. unfold kv_commit at 1.
    destruct (commit_step (sets_of kvs) s) as [cr s1].
    destruct Hstep as (_ & Hframe1 & Hset1 & _).
    destruct (IH s1) as (crs & s' & t & Hrun & Hlen & Hframe & Hset).
    unfold bind at 1. rewrite Hrun. unfold ret.
    eexists (cr :: crs), s', _. split; [reflexivity|].
    split; [simpl; by rewrite Hlen|]. split.
    + intros k Hk. rewrite map_app, in_app_iff in Hk.
      rewrite Hframe by tauto. apply Hframe1. tauto.
    + simpl. intros Hok Hnd e He.
      apply andb_true_iff in Hok as [Hok1 Hok2].
      rewrite map_app in Hnd. apply NoDup_app in Hnd as (Hnd1 & Hdisj & Hnd2).
      apply in_app_iff in He as [He|He].
      * destruct cr as [vs|]; [|done]. exists vs.
        rewrite Hframe; [by apply (Hset1 vs)|]. intros Hin.
        apply (Hdisj (fst e)); [|by apply list_elem_of_In].
        apply list_elem_of_In. by apply in_map.
      * by apply Hset.
Qed.

Lemma allFulfilled_cons {A} (p : IO V A) (rest : list (IO V A)) s :
  allFulfilled (p :: rest) s =
    match p s with
    | (Unfinished, s1, t1) => (Unfinished, s1, t1)
    | (c, s1, t1) =>
        match allFulfilled rest s1 with
        | (Normal l, s2, t2) =>
            (Normal (match c with Normal a => a :: l | _ => l end), s2, t1 ++ t2)
        | (c2, s2, t2) => (c2, s2, t1 ++ t2)
        end
    end.
Proof. reflexivity. Qed.

(** Deleting keys one after the other. *)
Lemma allFulfilled_deletes (keys : list KvKey) s :
  exists l s' t,
    allFulfilled (map kv_delete keys) s = (Normal l, s', t) /\
    refusals s' = refusals s /\
    (forall k, In k keys -> entries s' !! k = None) /\
    (forall k, ~ In k keys -> entries s' !! k = entries s !! k) /\
    (forall k, entries s' !! k = None \/ entries s' !! k = entries s !! k).
Proof.
  revert s. induction keys as [|k0 keys IH]; intros s.
  - exists [], s, []. repeat split; try done. by right.
  - rewrite map_cons, allFulfilled_cons. unfold kv_delete at 1.
    set (s1 := mkKv (delete k0 (entries s)) (clock s + 1)%Z (refusals s)).
    destruct (IH s1) as (l & s' & t & Hrun & Href & Hgone & Hframe & Hweak).
    rewrite Hrun. eexists _, s', _. split; [reflexivity|].
    split; [done|]. split; [|split].
    + intros k Hk. simpl in Hk. destruct Hk as [<-|Hk]; [|by apply Hgone].
      destruct (Hweak k0) as [H|H]; [done|]. rewrite H. apply lookup_delete_eq.
    + intros k Hk. simpl in Hk. rewrite Hframe by tauto. apply lookup_delete_ne. tauto.
    + intros k. destruct (Hweak k) as [H|H]; [by left|]. rewrite H. simpl.
      destruct (decide (k0 = k)) as [->|Hne];
        [left; apply lookup_delete_eq|right; by apply lookup_delete_ne].
Qed.

End BatchFacts.

(** ** Batches of deletes *)

Section DeleteFacts.
Context {V : Type} `{!KvCounter V}.
Implicit Types (s : Kv V) (m : gmap KvKey (V * Versionstamp)) (keys : list KvKey).

Lemma only_removed_refl s : only_removed s s.
Proof. intros k. by right. Qed.

Lemma only_removed_trans s1 s2 s3 :
  only_removed s1 s2 -> only_removed s2 s3 -> only_removed s1 s3.
Proof.
  intros H12 H23 k. destruct (H23 k) as [H|H]; [by left|].
  rewrite H. apply H12.
Qed.

Lemma only_removed_absent s s' k :
  only_removed s s' -> entries s !! k = None -> entries s' !! k = None.
Proof. intros H Hk. destruct (H k) as [?|H']; [done|]. by rewrite H'. Qed.

Lemma apply_deletes vs keys m :
  apply_mutations vs m (map (fun k => MutDelete k) keys)
  = Some (foldl (fun m k => delete k m) m keys).
Proof. revert m. induction keys as [|k keys IH]; intros m; simpl; [done|]. apply IH. Qed.

Lemma foldl_delete_weak keys m k :
  foldl (fun m k => delete k m) m keys !! k = None \/
  foldl (fun m k => delete k m) m keys !! k = m !! k.
Proof.
  revert m. induction keys as [|k0 keys IH]; intros m; simpl; [by right|].
  destruct (IH (delete k0 m)) as [H|H]; [by left|]. rewrite H.
  destruct (decide (k0 = k)) as [->|Hne];
    [left; apply lookup_delete_eq|right; by apply lookup_delete_ne].
Qed.

Lemma foldl_delete_gone keys m k :
  In k keys -> foldl (fun m k => delete k m) m keys !! k = None.
Proof.
  revert m. induction keys as [|k0 keys IH]; intros m Hk; simpl in *; [done|].
  destruct Hk as [->|Hk]; [|by apply IH].
  destruct (foldl_delete_weak keys (delete k m) k) as [H|H]; [done|].
  rewrite H. apply lookup_delete_eq.
Qed.

(** A commit of deletes without checks. *)
Lemma commit_step_deletes keys s :
  let '(cr, s') := commit_step (deletes_of keys) s in
  refusals s' = tail (refusals s) /\
  only_removed s s' /\
  (refused s = false -> forall k, In k keys -> entries s' !! k = None).
Proof.
  unfold commit_step, deletes_of. simpl.
  destruct (refused s); simpl.
  - split; [done|]. split; [by intros k; right|done].
  - rewrite apply_deletes. simpl. split; [done|]. split.
    + intros k. apply foldl_delete_weak.
    + intros _ k Hk. by apply foldl_delete_gone.
Qed.

(** Batches of deletes committed one after the other: the store calls are
    the commits of the batches in order; entries are only removed, at
    every step; a store that refuses nothing ends without the keys. *)
Lemma mapM_commit_deletes (batches : list (list KvKey)) s :
  exists crs s' t,
    mapM kv_commit (map deletes_of batches) s = (Normal crs, s', t) /\
    map ev_op t = zip_with OpCommit (map deletes_of batches) crs /\
    length crs = length batches /\
    Forall (fun ev => only_removed s (ev_after ev)) t /\
    only_removed s s' /\
    (refusals s = [] -> forall k, In k (concat batches) -> entries s' !! k = None).
Proof.
  revert s. induction batches as [|keys batches IH]; intros s; simpl.
  - exists [], s, []. unfold ret. repeat split; try done. apply only_removed_refl.
  - pose proof (commit_step_deletes keys s) as Hstep.
    unfold bind at 1. unfold kv_commit at 1.
    destruct (commit_step (deletes_of keys) s) as [cr s1].
    destruct Hstep as (Href & Hrem1 & Hgone1).
    destruct (IH s1) as (crs & s' & t & Hrun & Hops & Hlen & Hall & Hrem & Hgone).
    unfold bind at 1. rewrite Hrun. unfold ret.
    eexists (cr :: crs), s', _. split; [reflexivity|].
    split; [simpl; by rewrite app_nil_r, Hops|].
    split; [simpl; by rewrite Hlen|].
    split; [|split].
    + rewrite app_nil_r. constructor; [done|].
      eapply Forall_impl; [exact Hall|]. intros ev Hev. simpl in Hev.
      by eapply only_removed_trans.
    + by eapply only_removed_trans.
    + intros Hnone k Hk. apply in_app_iff in Hk as [Hk|Hk].
      * eapply only_removed_absent; [exact Hrem|].
        apply Hgone1; [|done]. unfold refused. by rewrite Hnone.
      * apply Hgone; [|done]. by rewrite Href, Hnone.
Qed.

End DeleteFacts.

(** ** The store calls of a computation *)

Section TraceFacts.
Context {V : Type} `{!KvCounter V}.
Implicit Types (P : Event V -> Prop).

Lemma emits_ret {A} P (a : A) : emits P (ret (V:=V) a).
Proof. intros s. constructor. Qed.

Lemma emits_bind {A B} P (m : IO V A) (k : A -> IO V B) :
  emits P m -> (forall a, emits P (k a)) -> emits P (bind m k).
Proof.
  intros Hm Hk s. unfold bind. specialize (Hm s).
  destruct (m s) as [[[a| |] s1] t1]; [|done|done].
  specialize (Hk a s1). destruct (k a s1) as [[c s2] t2].
  cbn [snd] in *. by apply Forall_app.
Qed.

Lemma emits_mapM {A B} P (f : A -> IO V B) (l : list A) :
  (forall x, In x l -> emits P (f x)) -> emits P (mapM f l).
Proof.
  induction l as [|x l IH]; intros H; [apply emits_ret|].
  cbn [mapM]. apply emits_bind; [apply H; by left|]. intros y.
  apply emits_bind; [apply IH; intros; apply H; by right|].
  intros ys. apply emits_ret.
Qed.

Lemma emits_allFulfilled {A} P (ps : list (IO V A)) :
  (forall p, In p ps -> emits P p) -> emits P (allFulfilled ps).
Proof.
  induction ps as [|p ps IH]; intros H s; [constructor|].
  cbn [allFulfilled]. pose proof (H p (or_introl eq_refl) s) as Hp.
  destruct (p s) as [[c s1] t1]. cbn [snd] in Hp.
  assert (Hrest : Forall P (snd (allFulfilled ps s1)))
    by (apply IH; intros; apply H; by right).
  destruct (allFulfilled ps s1) as [[c2 s2] t2]. cbn [snd] in Hrest.
  destruct c as [a| |]; [| |done].
  all: destruct c2 as [l| |]; cbn [snd]; by apply Forall_app.
Qed.

Lemma emits_kv_get (key : KvKey) : emits (V:=V) unchecked (kv_get key).
Proof. intros s. by repeat constructor. Qed.

Lemma emits_kv_delete (key : KvKey) : emits (V:=V) unchecked (kv_delete key).
Proof. intros s. by repeat constructor. Qed.

Lemma emits_kv_commit (op : AtomicOperation V) :
  checks op = [] -> emits unchecked (kv_commit op).
Proof.
  intros H s. unfold kv_commit. destruct (commit_step op s) as [cr s'].
  by repeat constructor.
Qed.

Lemma emits_commits (ops : list (AtomicOperation V)) :
  (forall op, In op ops -> checks op = []) -> emits unchecked (mapM kv_commit ops).
Proof. intros H. apply emits_mapM. intros op Hop. by apply emits_kv_commit, H. Qed.

End TraceFacts.

(** ** LargeCollection: segments and manifest *)

Module LargeSegments.
Import LargeCollection LargeFacts.

Section Segments.
Variable T1 : Type.
Variable model_parse : T1 -> option T1.
Variable idGenerator : T1 -> KvId.
Variable JSON_stringify : T1 -> string.
Variable JSON_parse : string -> option T1.
Variable KVDEX_KEY_PREFIX ID_KEY_PREFIX SEGMENT_KEY_PREFIX : KvKeyPart.
Variable LARGE_COLLECTION_STRING_LIMIT : nat.
Variable ATOMIC_OPERATION_MUTATION_LIMIT : nat.
Variable getDocumentId : KvKey -> option KvId.
Variable key : KvKey.

Local Abbreviation id_key := (LargeLayout.id_key KVDEX_KEY_PREFIX ID_KEY_PREFIX SEGMENT_KEY_PREFIX key).
Local Abbreviation segment_key :=
  (LargeLayout.segment_key KVDEX_KEY_PREFIX ID_KEY_PREFIX SEGMENT_KEY_PREFIX key).
Local Abbreviation segment_key_at :=
  (LargeLayout.segment_key_at KVDEX_KEY_PREFIX ID_KEY_PREFIX SEGMENT_KEY_PREFIX key).
Local Abbreviation segment_entries :=
  (LargeLayout.segment_entries KVDEX_KEY_PREFIX ID_KEY_PREFIX SEGMENT_KEY_PREFIX key).
Local Abbreviation batch_entries :=
  (LargeLayout.batch_entries KVDEX_KEY_PREFIX ID_KEY_PREFIX SEGMENT_KEY_PREFIX key).
Local Abbreviation set_segment :=
  (set_segment KVDEX_KEY_PREFIX ID_KEY_PREFIX SEGMENT_KEY_PREFIX key).
Local Abbreviation stored := (LargeLayout.stored KVDEX_KEY_PREFIX ID_KEY_PREFIX SEGMENT_KEY_PREFIX key).
Local Abbreviation delete :=
  (delete KVDEX_KEY_PREFIX ID_KEY_PREFIX SEGMENT_KEY_PREFIX
     ATOMIC_OPERATION_MUTATION_LIMIT key).
Local Abbreviation setDocument :=
  (setDocument T1 model_parse idGenerator JSON_stringify KVDEX_KEY_PREFIX ID_KEY_PREFIX
     SEGMENT_KEY_PREFIX LARGE_COLLECTION_STRING_LIMIT ATOMIC_OPERATION_MUTATION_LIMIT
     getDocumentId key).
Local Abbreviation attempt :=
  (LargeLayout.attempt T1 JSON_stringify KVDEX_KEY_PREFIX ID_KEY_PREFIX SEGMENT_KEY_PREFIX
     LARGE_COLLECTION_STRING_LIMIT ATOMIC_OPERATION_MUTATION_LIMIT getDocumentId key).
Local Abbreviation setDocument_attempts :=
  (LargeLayout.setDocument_attempts T1 model_parse idGenerator JSON_stringify
     KVDEX_KEY_PREFIX ID_KEY_PREFIX SEGMENT_KEY_PREFIX LARGE_COLLECTION_STRING_LIMIT
     ATOMIC_OPERATION_MUTATION_LIMIT getDocumentId key).
Local Abbreviation probe :=
  (LargeLayout.probe KVDEX_KEY_PREFIX ID_KEY_PREFIX SEGMENT_KEY_PREFIX key).
Local Abbreviation manifest :=
  (LargeLayout.manifest KVDEX_KEY_PREFIX ID_KEY_PREFIX SEGMENT_KEY_PREFIX getDocumentId key).
Local Abbreviation attempts_made :=
  (LargeLayout.attempts_made KVDEX_KEY_PREFIX ID_KEY_PREFIX SEGMENT_KEY_PREFIX key).
Local Abbreviation segment_text :=
  (LargeLayout.segment_text KVDEX_KEY_PREFIX ID_KEY_PREFIX SEGMENT_KEY_PREFIX key).
Local Abbreviation find :=
  (find T1 JSON_parse KVDEX_KEY_PREFIX ID_KEY_PREFIX SEGMENT_KEY_PREFIX key).

Implicit Types (s : Kv LargeStored) (docId : KvId) (parts : list string).

Lemma segment_key_inj docId i j : segment_key docId i = segment_key docId j -> i = j.
Proof.
  unfold LargeLayout.segment_key, LargeLayout.segment_key_at, extendKey. intros H.
  apply app_inv_head in H. by inversion H.
Qed.

Lemma segment_key_not_id docId docId' i : segment_key docId i <> id_key docId'.
Proof.
  unfold LargeLayout.segment_key, LargeLayout.segment_key_at, LargeLayout.id_key, _keys, extendKey.
  cbn [segmentKey idKey]. intros H. apply (f_equal length) in H.
  rewrite !length_app in H. simpl in H. lia.
Qed.

Lemma segment_entries_keys docId index parts k :
  In k (map fst (segment_entries docId index parts)) ->
  exists j, (index <= j < index + Z.of_nat (length parts))%Z /\ k = segment_key docId j.
Proof.
  revert index. induction parts as [|part parts IH]; intros index; simpl; [done|].
  intros [<-|Hk].
  - exists index. split; [lia|done].
  - destruct (IH _ Hk) as (j & Hj & ->). exists j. split; [lia|done].
Qed.

Lemma segment_entries_NoDup docId index parts :
  NoDup (map fst (segment_entries docId index parts)).
Proof.
  revert index. induction parts as [|part parts IH]; intros index; simpl.
  - constructor.
  - constructor; [|apply IH]. rewrite list_elem_of_In. intros Hin.
    apply segment_entries_keys in Hin as (j & Hj & Heq).
    apply segment_key_inj in Heq. lia.
Qed.

Lemma segment_entries_lookup docId index parts (j : nat) part :
  parts !! j = Some part ->
  In (segment_key docId (index + Z.of_nat j), StoredString part)
     (segment_entries docId index parts).
Proof.
  revert index j. induction parts as [|p parts IH]; intros index j Hj; [done|].
  destruct j as [|j]; simpl in *.
  - left. inversion Hj. do 2 f_equal. lia.
  - right. replace (index + Z.of_nat (S j))%Z
      with ((index + 1) + Z.of_nat j)%Z by lia. by apply (IH (index + 1)%Z).
Qed.

Lemma segment_entries_app docId index l1 l2 :
  segment_entries docId index (l1 ++ l2)
  = segment_entries docId index l1
    ++ segment_entries docId (index + Z.of_nat (length l1)) l2.
Proof.
  revert index. induction l1 as [|p l1 IH]; intros index; simpl.
  - by rewrite Z.add_0_r.
  - rewrite IH. do 3 f_equal. lia.
Qed.

Lemma batch_entries_concat docId index batches :
  concat (batch_entries docId index batches)
  = segment_entries docId index (concat batches).
Proof.
  revert index. induction batches as [|b batches IH]; intros index; simpl; [done|].
  by rewrite segment_entries_app, IH.
Qed.

Lemma batch_entries_length docId index batches :
  length (batch_entries docId index batches) = length batches.
Proof. revert index. induction batches; intros; simpl; auto. Qed.

Lemma build_batch_segments docId batch index keys :
  build_batch (set_segment docId) batch (index, keys)
  = (sets_of (segment_entries docId index batch),
     ((index + Z.of_nat (length batch))%Z,
      keys ++ map fst (segment_entries docId index batch))).
Proof.
  unfold build_batch, sets_of.
  assert (H : forall batch cs ms index keys,
    fold_left (fun acc x => set_segment docId x (fst acc) (snd acc)) batch
      (mkAtomic cs ms, (index, keys))
    = (mkAtomic cs (ms ++ map (fun e => MutSet (fst e) (snd e))
                               (segment_entries docId index batch)),
       ((index + Z.of_nat (length batch))%Z,
        keys ++ map fst (segment_entries docId index batch)))).
  { clear. induction batch as [|p batch IH]; intros cs ms index keys.
    - simpl. by rewrite Z.add_0_r, !app_nil_r.
    - simpl fold_left. unfold op_set. simpl. rewrite IH. rewrite <- !app_assoc.
      simpl. apply f_equal2; [reflexivity|]. apply f_equal2; [lia|reflexivity]. }
  apply (H batch [] [] index keys).
Qed.

Lemma build_batches_segments docId batches index keys :
  build_batches (set_segment docId) batches (index, keys)
  = (map sets_of (batch_entries docId index batches),
     ((index + Z.of_nat (length (concat batches)))%Z,
      keys ++ map fst (segment_entries docId index (concat batches)))).
Proof.
  revert index keys. induction batches as [|b batches IH]; intros index keys.
  - simpl. by rewrite Z.add_0_r, app_nil_r.
  - simpl. rewrite build_batch_segments, IH.
    rewrite segment_entries_app, map_app, length_app, app_assoc.
    apply f_equal2; [reflexivity|]. apply f_equal2; [lia|reflexivity].
Qed.

Lemma gather_parts (docEntries : list (option (LargeStored * Versionstamp)))
    parts (acc : list LargeStored) :
  Forall2 (fun entry part => exists vs, entry = Some (StoredString part, vs))
    docEntries parts ->
  Forall (fun part => part <> EmptyString) parts ->
  fold_left (fun gathered entry =>
    match entry with
    | Some (v, _) => if truthy v then gathered ++ [v] else gathered
    | None => gathered
    end) docEntries acc
  = acc ++ map StoredString parts.
Proof.
  intros H. revert acc. induction H as [|entry part docEntries parts [vs ->] _ IH];
    intros acc Hne; simpl.
  - by rewrite app_nil_r.
  - apply Forall_cons in Hne as [Hpart Hne].
    destruct (String.eqb_spec part "") as [->|_]; [done|].
    simpl. rewrite IH by done. by rewrite <- app_assoc.
Qed.

Lemma stored_lookups s docId parts (start : nat) :
  (forall (j : nat) part, parts !! j = Some part ->
     exists vs, entries s !! segment_key docId (Z.of_nat (start + j))
                = Some (StoredString part, vs)) ->
  Forall2 (fun entry part => exists vs, entry = Some (StoredString part, vs))
    (map (fun k => entries s !! k)
       (map (fun segId => extendKey
               (segmentKey (_keys KVDEX_KEY_PREFIX ID_KEY_PREFIX SEGMENT_KEY_PREFIX key))
               [docId; segId])
          (map (fun j => PNumber (Z.of_nat j)) (seq start (length parts)))))
    parts.
Proof.
  revert start. induction parts as [|part parts IH]; intros start H; simpl.
  - constructor.
  - constructor.
    + destruct (H 0 part eq_refl) as [vs Hvs]. exists vs.
      rewrite Nat.add_0_r in Hvs. exact Hvs.
    + apply IH. intros j p Hj. destruct (H (S j) p Hj) as [vs Hvs].
      exists vs. by replace (S start + j) with (start + S j) by lia.
Qed.

(** [find] of a stored document: the parts are fetched in manifest
    order, joined and decoded. *)
Lemma find_stored s docId parts vs (v : T1) :
  stored s docId parts vs ->
  Forall (fun part => part <> EmptyString) parts ->
  JSON_parse (join (map StoredString parts)) = Some v ->
  exists t, find docId s = (Normal (Some (mkDocument T1 docId v vs)), s, t).
Proof.
  intros [Hmanifest Hparts] Hne Hparse.
  unfold LargeCollection.find, bind, kv_get.
  fold (id_key docId). rewrite Hmanifest.
  unfold constructLargeDocument, bind, kvGetMany, kv_getMany. cbn [ids].
  unfold segment_indices.
  rewrite (gather_parts _ parts []); [|by apply (stored_lookups s docId parts 0)|done].
  cbn [app]. rewrite !length_map, length_seq, Nat.eqb_refl. cbn [negb].
  rewrite Hparse. unfold ret. eauto.
Qed.

(** *** find *)

Lemma gather_all (docEntries : list (option (LargeStored * Versionstamp)))
    (acc : list LargeStored) :
  let gathered := fold_left (fun gathered entry =>
    match entry with
    | Some (v, _) => if truthy v then gathered ++ [v] else gathered
    | None => gathered
    end) docEntries acc in
  (Exists unusable docEntries ->
     length gathered < length acc + length docEntries) /\
  (~ Exists unusable docEntries ->
     gathered = acc ++ omap (fun got => fst <$> got) docEntries).
Proof.
  revert acc. induction docEntries as [|got docEntries IH]; intros acc; simpl.
  - split; [by intros H; inversion H|]. intros _. by rewrite app_nil_r.
  - assert (Hle : forall acc', length (fold_left (fun gathered entry =>
        match entry with
        | Some (v, _) => if truthy v then gathered ++ [v] else gathered
        | None => gathered
        end) docEntries acc') <= length acc' + length docEntries).
    { clear. induction docEntries as [|got docEntries IH]; intros acc'; simpl; [lia|].
      destruct got as [[v vs]|]; [destruct (truthy v)|].
      all: etransitivity; [apply IH|]; rewrite ?length_app; simpl; lia. }
    destruct got as [[v vs]|]; [destruct (truthy v) eqn:Hv|].
    + destruct (IH (acc ++ [v])) as [H1 H2]. split.
      * intros Hex. apply Exists_cons in Hex as [Hbad|Hex].
        { simpl in Hbad. congruence. }
        specialize (H1 Hex). rewrite length_app in H1. simpl in H1. lia.
      * intros Hnone. rewrite H2, <- app_assoc; [done|].
        intros Hex. apply Hnone. by right.
    + split.
      * intros _. specialize (Hle acc). lia.
      * intros Hnone. exfalso. apply Hnone. by left.
    + split.
      * intros _. specialize (Hle acc). lia.
      * intros Hnone. exfalso. apply Hnone. by left.
Qed.

(** When [find] raises the corruption error. *)
Lemma find_corrupted_iff id s :
  fst (fst (find id s)) = Thrown CorruptedDocumentDataError <->
  exists entry vs,
    entries s !! id_key id = Some (StoredEntry entry, vs) /\
    ((exists segId, In segId (ids entry) /\
        unusable (entries s !! segment_key_at id segId)) \/
     JSON_parse (segment_text s id entry) = None).
Proof.
  unfold LargeCollection.find, bind, kv_get. fold (id_key id).
  destruct (entries s !! id_key id) as [[[entry|str] vs]|] eqn:Hget.
  2,3: simpl; split; [done|]; by intros (? & ? & ? & _).
  unfold constructLargeDocument, bind, kvGetMany, kv_getMany. cbn beta iota.
  set (docEntries := map (fun k => entries s !! k)
         (map (fun segId => extendKey
            (segmentKey (_keys KVDEX_KEY_PREFIX ID_KEY_PREFIX SEGMENT_KEY_PREFIX key))
            [id; segId]) (ids entry))).
  assert (Hex : Exists unusable docEntries <->
    exists segId, In segId (ids entry) /\
      unusable (entries s !! segment_key_at id segId)).
  { unfold docEntries. rewrite map_map, Exists_exists. split.
    - intros (got & Hin & Hbad).
      apply list_elem_of_In, in_map_iff in Hin as (segId & <- & Hin). eauto.
    - intros (segId & Hin & Hbad). eexists. split; [|exact Hbad].
      apply list_elem_of_In, in_map_iff. eauto. }
  assert (Htext : omap (fun got => fst <$> got) docEntries
    = omap (fun segId => fst <$> (entries s !! segment_key_at id segId)) (ids entry)).
  { unfold docEntries. rewrite map_map. clear.
    induction (ids entry) as [|segId l IH]; [done|].
    cbn [map omap list_omap]. rewrite <- IH. done. }
  destruct (gather_all docEntries []) as [Hshort Hfull]. cbv zeta in Hshort, Hfull.
  destruct (List.Exists_dec unusable docEntries) as [Hbad|Hgood].
  { intros [[v vs']|]; simpl; [destruct (truthy v); [right; discriminate|by left]|by left]. }
  - specialize (Hshort Hbad). simpl in Hshort.
    match goal with
    | |- context [Nat.eqb ?a ?b] => destruct (Nat.eqb_spec a b); [lia|]
    end. simpl. split; [|done]. intros _. exists entry, vs. split; [done|].
    left. by apply Hex.
  - specialize (Hfull Hgood). simpl in Hfull. rewrite Hfull.
    assert (Hlen : length (omap (fun got => fst <$> got) docEntries) = length docEntries).
    { clear -Hgood. induction docEntries as [|got l IH]; [done|].
      destruct got as [[v vs]|]; simpl.
      - f_equal. apply IH. intros H. apply Hgood. by right.
      - exfalso. apply Hgood. by left. }
    rewrite Hlen, Nat.eqb_refl. simpl. rewrite Htext. fold (segment_text s id entry).
    destruct (JSON_parse (segment_text s id entry)) eqn:Hparse; simpl.
    + split; [done|]. intros (entry' & vs' & Heq & [Hbad|Hnone]).
      * inversion Heq; subst. exfalso. apply Hgood. by apply Hex.
      * inversion Heq; subst. congruence.
    + split; [|done]. intros _. exists entry, vs. split; [done|]. by right.
Qed.

Lemma find_absent id s :
  entries s !! id_key id = None ->
  find id s = (Normal None, s, [mkEvent (OpGet (id_key id)) s]).
Proof.
  intros H. unfold LargeCollection.find, bind, kv_get. fold (id_key id). by rewrite H.
Qed.

Hypothesis getDocumentId_last :
  forall (k : KvKey) (part : KvKeyPart), getDocumentId (k ++ [part]) = Some part.

Lemma segment_entries_ids docId index parts :
  omap getDocumentId (map fst (segment_entries docId index parts))
  = map (fun j => PNumber (index + Z.of_nat j)) (seq 0 (length parts)).
Proof using getDocumentId_last.
  revert index. induction parts as [|p parts IH]; intros index; [done|].
  simpl. unfold LargeLayout.segment_key at 1, LargeLayout.segment_key_at, extendKey.
  change [docId; PNumber index] with ([docId] ++ [PNumber index]).
  rewrite app_assoc, getDocumentId_last. rewrite Z.add_0_r. f_equal.
  rewrite IH, <- seq_shift, map_map. apply map_ext. intros j. f_equal. lia.
Qed.

(** [setDocument] is the write by attempts. *)
Lemma setDocument_as_attempts fuel id value options overwrite s :
  setDocument fuel id value options overwrite s
  = setDocument_attempts fuel id value options overwrite s.
Proof.
  revert id value options s. induction fuel as [|fuel IH]; intros id value options s.
  all: simpl; destruct (model_parse value) as [parsed|]; [|done].
  all: unfold LargeLayout.attempt; symmetry; rewrite bind_assoc.
  all: apply bind_ext; intros check s1.
  all: destruct (negb (commit_ok check) && negb overwrite); [by rewrite bind_ret_l|].
  all: rewrite bind_assoc; apply bind_ext; intros _ s2.
  all: rewrite bind_assoc; apply bind_ext; intros written s3.
  all: destruct (negb _).
  all: try (rewrite bind_assoc; apply bind_ext; intros _ s4; rewrite bind_ret_l;
            destruct (0 <? retry_of options)%Z; [|done]; by rewrite ?IH).
  all: rewrite bind_assoc; apply bind_ext; intros [vs|] s4; [by rewrite bind_ret_l|].
  all: rewrite bind_assoc; apply bind_ext; intros _ s5; rewrite bind_ret_l.
  all: destruct (0 <? retry_of options)%Z; [|done]; by rewrite ?IH.
Qed.

(** *** delete *)

Lemma build_batches_deletes id (batches : list (list KvId)) :
  build_batches (fun segId (atomic : AtomicOperation LargeStored) (_ : unit) =>
      (op_delete (extendKey
         (segmentKey (_keys KVDEX_KEY_PREFIX ID_KEY_PREFIX SEGMENT_KEY_PREFIX key))
         [id; segId]) atomic, tt)) batches tt
  = (map (fun batch => deletes_of (map (segment_key_at id) batch)) batches, tt).
Proof.
  assert (H : forall (batch : list KvKeyPart) cs ms,
    fold_left (fun acc (x : KvKeyPart) =>
        (op_delete (extendKey
           (segmentKey (_keys KVDEX_KEY_PREFIX ID_KEY_PREFIX SEGMENT_KEY_PREFIX key))
           [id; x]) (fst acc), tt))
      batch (@mkAtomic LargeStored cs ms, tt)
    = (mkAtomic cs (ms ++ map (fun k => MutDelete k) (map (segment_key_at id) batch)), tt)).
  { induction batch as [|x batch IH]; intros cs ms; simpl.
    - by rewrite app_nil_r.
    - unfold op_delete. simpl. rewrite IH, <- app_assoc. done. }
  induction batches as [|batch batches IH]; [done|].
  cbn [build_batches map]. unfold build_batch, atomic. cbn beta.
  rewrite (H batch [] []).
  unfold atomic in IH. rewrite IH. done.
Qed.

(** [delete] of an id without entry: one read, the store is unchanged. *)
Lemma delete_absent id s :
  entries s !! id_key id = None ->
  delete [id] s = (Normal tt, s, [mkEvent (OpGet (id_key id)) s]).
Proof.
  intros H. unfold LargeCollection.delete. cbn [map].
  unfold bind. rewrite allFulfilled_cons.
  unfold delete_id, bind, kv_get. fold (id_key id). rewrite H. done.
Qed.

(** [delete] of an id with a manifest: a read, the delete of the
    id-key, then the commits of the batches that delete the segment keys
    of the manifest. *)
Lemma delete_manifest id s entry vs :
  entries s !! id_key id = Some (StoredEntry entry, vs) ->
  let s1 := mkKv (base.delete (id_key id) (entries s)) (clock s + 1)%Z (refusals s) in
  let batches :=
    map (map (segment_key_at id))
      (slices (length (ids entry)) ATOMIC_OPERATION_MUTATION_LIMIT (ids entry)) in
  exists crs s' t,
    delete [id] s
      = (Normal tt, s',
         mkEvent (OpGet (id_key id)) s :: mkEvent (OpDelete (id_key id)) s1 :: t) /\
    map ev_op t = zip_with OpCommit (map deletes_of batches) crs /\
    length crs = length batches /\
    Forall (fun ev => only_removed s1 (ev_after ev)) t /\
    only_removed s1 s' /\
    (refusals s = [] -> forall k, In k (concat batches) -> entries s' !! k = None).
Proof.
  intros H s1 batches.
  destruct (mapM_commit_deletes batches s1)
    as (crs & s' & t & Hrun & Hops & Hlen & Hall & Hrem & Hgone).
  exists crs, s', t. split; [|done].
  unfold LargeCollection.delete. cbn [map]. unfold bind at 1. rewrite allFulfilled_cons.
  unfold delete_id. unfold bind at 1. unfold kv_get. fold (id_key id). rewrite H.
  cbn [truthy negb]. unfold bind at 1. unfold kv_delete at 1. fold s1.
  unfold useAtomics. rewrite build_batches_deletes.
  unfold batches in Hrun. rewrite map_map in Hrun.
  unfold bind at 1. unfold bind at 1. rewrite Hrun. unfold ret. simpl.
  by rewrite !app_nil_r.
Qed.

(** [delete] always completes, and it only removes entries. *)
Lemma delete_total id s :
  exists s' t, delete [id] s = (Normal tt, s', t) /\ only_removed s s'.
Proof.
  destruct (entries s !! id_key id) as [[[entry|str] vs]|] eqn:H.
  - destruct (delete_manifest id s entry vs H) as (crs & s' & t & Hrun & _ & _ & _ & Hrem & _).
    eexists _, _. split; [exact Hrun|].
    eapply only_removed_trans; [|exact Hrem].
    intros k. simpl. destruct (decide (id_key id = k)) as [->|Hne];
      [left; apply lookup_delete_eq|right; by apply lookup_delete_ne].
  - unfold LargeCollection.delete. cbn [map]. unfold bind. rewrite allFulfilled_cons.
    unfold delete_id, bind, kv_get. fold (id_key id). rewrite H. simpl.
    destruct (String.eqb str ""); simpl.
    + eexists _, _. split; [reflexivity|]. apply only_removed_refl.
    + eexists _, _. split; [reflexivity|].
      intros k. simpl. destruct (decide (id_key id = k)) as [->|Hne];
        [left; apply lookup_delete_eq|right; by apply lookup_delete_ne].
  - rewrite (delete_absent id s H). eexists _, _. split; [done|].
    apply only_removed_refl.
Qed.

Hypothesis ATOMIC_LIMIT_positive : 0 < ATOMIC_OPERATION_MUTATION_LIMIT.

(** The segment writes of [setDocument]: the local `keys` end up as the
    segment keys in order; no other key is touched; when every batch
    commits, every segment key holds its part. *)
Lemma write_segments docId parts s :
  exists crs s' t,
    useAtomics ATOMIC_OPERATION_MUTATION_LIMIT parts (set_segment docId) (0%Z, []) s
      = (Normal (crs, (Z.of_nat (length parts),
                       map fst (segment_entries docId 0 parts))), s', t) /\
    (length crs = 0 <-> parts = []) /\
    (forall k, ~ In k (map fst (segment_entries docId 0 parts)) ->
       entries s' !! k = entries s !! k) /\
    (forallb commit_ok crs = true ->
       forall e, In e (segment_entries docId 0 parts) ->
         exists vs, entries s' !! fst e = Some (snd e, vs)).
Proof using ATOMIC_LIMIT_positive.
  unfold useAtomics.
  set (batches := slices (length parts) ATOMIC_OPERATION_MUTATION_LIMIT parts).
  assert (Hconcat : concat batches = parts) by by apply slices_concat.
  rewrite build_batches_segments, Hconcat. simpl.
  destruct (mapM_commit_sets (batch_entries docId 0 batches) s)
    as (crs & s' & t & Hrun & Hlen & Hframe & Hset).
  rewrite batch_entries_concat, Hconcat in Hframe, Hset.
  unfold bind. rewrite Hrun. unfold ret.
  eexists crs, s', _. split; [reflexivity|].
  split; [|split; [done|]].
  - rewrite Hlen, batch_entries_length. unfold batches.
    rewrite slices_length by done. destruct parts as [|p parts'].
    + by rewrite ceil_div_0.
    + rewrite ceil_div_step by (simpl; lia). split; [lia|done].
  - intros Hok. apply Hset; [done|]. apply segment_entries_NoDup.
Qed.

Hypothesis LIMIT_positive : 0 < LARGE_COLLECTION_STRING_LIMIT.

(** What one attempt does.  It always completes.  Outside the id-key
    and the segment keys of the parts it only removes entries.  When it
    wrote, the store holds the document; when the id-key was taken, it
    made the probe and nothing else; when it failed, none of the segment
    keys of the parts holds an entry. *)
Lemma attempt_outcome docId (parsed : T1) overwrite s :
  let parts := json_parts LARGE_COLLECTION_STRING_LIMIT (JSON_stringify parsed) in
  exists outcome s' t,
    attempt docId parsed overwrite s = (Normal outcome, s', t) /\
    (forall k, k <> id_key docId ->
       ~ In k (map fst (segment_entries docId 0 parts)) ->
       entries s' !! k = None \/ entries s' !! k = entries s !! k) /\
    match outcome with
    | LargeLayout.Written vs => stored s' docId parts vs /\ parts <> []
    | LargeLayout.Taken =>
        overwrite = false /\
        fst (commit_step (probe docId) s) = KvCommitError /\
        s' = snd (commit_step (probe docId) s) /\
        t = [mkEvent (OpCommit (probe docId) KvCommitError) s'] /\
        entries s' = entries s
    | LargeLayout.Failed =>
        forall e, In e (segment_entries docId 0 parts) -> entries s' !! fst e = None
    end.
Proof using ATOMIC_LIMIT_positive LIMIT_positive getDocumentId_last.
  intros parts. unfold LargeLayout.attempt. fold parts.
  unfold bind at 1. unfold kv_commit at 1.
  pose proof (commit_step_no_mutations (probe docId) s eq_refl) as Hprobe.
  destruct (commit_step (probe docId) s) as [check s1] eqn:Hstep. simpl in Hprobe.
  destruct (negb (commit_ok check) && negb overwrite) eqn:Htaken.
  { (* the id-key is taken *)
    apply andb_true_iff in Htaken as [Hc Ho].
    destruct check; [done|]. destruct overwrite; [done|].
    unfold ret. eexists LargeLayout.Taken, s1, _. split; [reflexivity|].
    split; [intros; right; by rewrite Hprobe|]. by rewrite app_nil_r. }
  (* the prior document, if any, is deleted *)
  assert (Hdel : exists s2 t2,
    (if negb (commit_ok check) then delete [docId] else ret tt) s1 = (Normal tt, s2, t2)
    /\ only_removed s1 s2).
  { destruct (negb (commit_ok check)); [apply delete_total|].
    eexists _, _. split; [reflexivity|]. apply only_removed_refl. }
  destruct Hdel as (s2 & t2 & Hdel & Hrem2).
  unfold bind at 1. rewrite Hdel.
  (* the segments are written *)
  destruct (write_segments docId parts s2)
    as (crs & s3 & t3 & Hwrite & Hlen & Hframe3 & Hset3).
  unfold bind at 1. rewrite Hwrite. cbn [fst snd].
  assert (Hbase : forall k, ~ In k (map fst (segment_entries docId 0 parts)) ->
            entries s3 !! k = None \/ entries s3 !! k = entries s !! k).
  { intros k Hk. rewrite (Hframe3 k Hk), <- Hprobe. apply Hrem2. }
  (* the cleanup of a failed attempt *)
  assert (Hfail : forall s4 t4,
    (forall k, ~ In k (map fst (segment_entries docId 0 parts)) ->
       k <> id_key docId ->
       entries s4 !! k = None \/ entries s4 !! k = entries s !! k) ->
    exists s' t,
      (let (p, t5) := bind (allFulfilled (map kv_delete
                              (map fst (segment_entries docId 0 parts))))
                        (fun _ => ret LargeLayout.Failed) s4 in
       let (c, s5) := p in (c, s5, t4 ++ t5))
        = (Normal LargeLayout.Failed, s', t) /\
      (forall k, k <> id_key docId ->
         ~ In k (map fst (segment_entries docId 0 parts)) ->
         entries s' !! k = None \/ entries s' !! k = entries s !! k) /\
      (forall e, In e (segment_entries docId 0 parts) -> entries s' !! fst e = None)).
  { intros s4 t4 H4.
    destruct (allFulfilled_deletes (map fst (segment_entries docId 0 parts)) s4)
      as (l & s5 & t5 & Hrun & _ & Hgone & Hframe5 & _).
    unfold bind. rewrite Hrun. unfold ret. eexists s5, _. split; [reflexivity|].
    split.
    - intros k Hid Hk. rewrite (Hframe5 k Hk). by apply H4.
    - intros e He. apply Hgone. by apply in_map. }
  destruct (negb ((0 <? length crs)%nat && forallb commit_ok crs)) eqn:Hsuccess.
  { destruct (Hfail s3 []) as (s' & t & Hrun & Hframe & Hgone); [by intros; apply Hbase|].
    simpl in Hrun. destruct (bind _ _ s3) as [[c5 s5] t5]. inversion Hrun; subst.
    eexists LargeLayout.Failed, _, _. split; [reflexivity|]. done. }
  apply negb_false_iff, andb_true_iff in Hsuccess as [Hpos Hok].
  (* the manifest is set *)
  unfold bind at 1. unfold kv_commit at 1.
  pose proof (commit_step_sets
    [(id_key docId, StoredEntry (mkEntry
        (omap getDocumentId (map fst (segment_entries docId 0 parts)))))] s3) as Hman.
  change (sets_of _) with (manifest docId (map fst (segment_entries docId 0 parts))) in Hman.
  destruct (commit_step (manifest docId _) s3) as [cr s4].
  destruct Hman as (_ & Hframe4 & Hset4 & _).
  destruct cr as [vs|].
  - (* written *)
    unfold ret. eexists (LargeLayout.Written vs), s4, _. split; [reflexivity|].
    split; [|split].
    + intros k Hid Hk. rewrite Hframe4 by (simpl; intros [?|[]]; congruence).
      by apply Hbase.
    + split.
      * rewrite (Hset4 vs eq_refl) with (e := (id_key docId, StoredEntry (mkEntry
          (omap getDocumentId (map fst (segment_entries docId 0 parts))))));
          [|apply NoDup_singleton|by left].
        cbn [fst snd]. rewrite segment_entries_ids. done.
      * intros j part Hj.
        destruct (Hset3 Hok _ (segment_entries_lookup docId 0 parts j part Hj)) as [vsj Hj'].
        exists vsj. simpl in Hj'. rewrite Hframe4; [done|].
        simpl. intros [H|[]]. symmetry in H. by apply segment_key_not_id in H.
    + intros ->. apply Nat.ltb_lt in Hpos. assert (length crs = 0) by by apply Hlen. lia.
  - (* the manifest commit failed *)
    destruct (Hfail s4 [mkEvent (OpCommit (manifest docId
      (map fst (segment_entries docId 0 parts))) KvCommitError) s4])
      as (s' & t & Hrun & Hframe & Hgone).
    { intros k Hk Hid. rewrite Hframe4 by (simpl; intros [?|[]]; congruence).
      by apply Hbase. }
    rewrite Hrun. eexists LargeLayout.Failed, _, _. split; [reflexivity|]. done.
Qed.

(** A successful [setDocument] leaves the document stored, and outside
    the id-key and the segment keys of the parts it only removed entries. *)
Lemma setDocument_written fuel id value options overwrite s d vs s' t (parsed : T1) :
  model_parse value = Some parsed ->
  model_parse parsed = Some parsed ->
  setDocument fuel id value options overwrite s = (Normal (CommitOk d vs), s', t) ->
  let parts := json_parts LARGE_COLLECTION_STRING_LIMIT (JSON_stringify parsed) in
  d = match id with Some i => i | None => idGenerator parsed end /\
  stored s' d parts vs /\ parts <> [] /\
  (forall k, k <> id_key d -> ~ In k (map fst (segment_entries d 0 parts)) ->
     entries s' !! k = None \/ entries s' !! k = entries s !! k).
Proof using ATOMIC_LIMIT_positive LIMIT_positive getDocumentId_last.
  intros Hparse Hstable. rewrite setDocument_as_attempts.
  revert id value options s t Hparse.
  induction fuel as [|fuel IH]; intros id value options s t Hparse Hrun parts.
  all: simpl in Hrun; rewrite Hparse in Hrun.
  all: destruct (attempt_outcome
         (match id with Some i => i | None => idGenerator parsed end) parsed overwrite s)
         as (outcome & s1 & t1 & Hattempt & Hframe & Hout).
  all: unfold bind in Hrun; rewrite Hattempt in Hrun.
  all: destruct outcome as [vs1| |]; [| |]; try (inversion Hrun; subst; fail).
  all: try (destruct Hout as [Hstored Hne]; unfold ret in Hrun;
            inversion Hrun; subst; rewrite app_nil_r in *; done).
  - by destruct (0 <? retry_of options)%Z.
  - destruct (0 <? retry_of options)%Z; [|done].
    match type of Hrun with
    | context [LargeLayout.setDocument_attempts ?a1 ?a2 ?a3 ?a4 ?a5 ?a6 ?a7 ?a8 ?a9 ?a10
                 ?a11 ?f ?i ?v ?o ?ow ?st] =>
        destruct (LargeLayout.setDocument_attempts a1 a2 a3 a4 a5 a6 a7 a8 a9 a10 a11
                    f i v o ow st) as [[c2 s2] t2] eqn:Hrec
    end.
    inversion Hrun; subst.
    destruct (IH _ _ _ _ _ Hstable Hrec) as (Hd & Hstored & Hne & Hframe2).
    simpl in Hd. subst d. split; [done|]. split; [done|]. split; [done|].
    intros k Hid Hk. destruct (Hframe2 k Hid Hk) as [H|H]; [by left|].
    rewrite H. by apply Hframe.
Qed.

(** *** The attempts of a write *)

Lemma unchecked_no_probe docId (ev : Event LargeStored) :
  unchecked ev -> LargeLayout.is_probe KVDEX_KEY_PREFIX ID_KEY_PREFIX SEGMENT_KEY_PREFIX
                    key docId ev = false.
Proof.
  unfold unchecked, LargeLayout.is_probe. destruct (ev_op ev) as [| | |op cr]; try done.
  intros ->. by destruct (mutations op).
Qed.

Lemma attempts_made_app docId (t1 t2 : list (Event LargeStored)) :
  attempts_made docId (t1 ++ t2) = attempts_made docId t1 + attempts_made docId t2.
Proof. unfold LargeLayout.attempts_made. by rewrite List.filter_app, length_app. Qed.

Lemma attempts_made_unchecked docId (t : list (Event LargeStored)) :
  Forall unchecked t -> attempts_made docId t = 0.
Proof.
  unfold LargeLayout.attempts_made. induction 1 as [|ev t Hev _ IH]; [done|].
  cbn [List.filter]. by rewrite unchecked_no_probe.
Qed.

Lemma emits_delete_id id : emits unchecked (delete_id KVDEX_KEY_PREFIX ID_KEY_PREFIX
  SEGMENT_KEY_PREFIX ATOMIC_OPERATION_MUTATION_LIMIT key id).
Proof.
  unfold delete_id. apply emits_bind; [apply emits_kv_get|].
  intros [[value vs]|]; [|apply emits_ret].
  destruct (negb (truthy value)); [apply emits_ret|].
  apply emits_bind; [apply emits_kv_delete|]. intros _.
  destruct value as [entry|str]; [|intros s; constructor].
  apply emits_bind; [|intros; apply emits_ret].
  unfold useAtomics. rewrite build_batches_deletes.
  apply emits_bind; [|intros; apply emits_ret].
  apply emits_commits. intros op Hop. by apply in_map_iff in Hop as (batch & <- & _).
Qed.

Lemma emits_delete ids : emits unchecked (delete ids).
Proof.
  unfold LargeCollection.delete. apply emits_bind; [|intros; apply emits_ret].
  apply emits_allFulfilled. intros p Hp.
  apply in_map_iff in Hp as (id & <- & _). apply emits_delete_id.
Qed.

Lemma emits_write_parts docId (parsed : T1) :
  emits unchecked (LargeLayout.write_parts T1 JSON_stringify KVDEX_KEY_PREFIX
    ID_KEY_PREFIX SEGMENT_KEY_PREFIX LARGE_COLLECTION_STRING_LIMIT
    ATOMIC_OPERATION_MUTATION_LIMIT getDocumentId key docId parsed).
Proof.
  unfold LargeLayout.write_parts.
  assert (Hdeletes : forall keys : list KvKey,
            emits unchecked (bind (allFulfilled (V:=LargeStored) (map kv_delete keys))
                               (fun _ => ret LargeLayout.Failed))).
  { intros keys. apply emits_bind; [|intros; apply emits_ret].
    apply emits_allFulfilled. intros p Hp.
    apply in_map_iff in Hp as (k & <- & _). apply emits_kv_delete. }
  apply emits_bind.
  - unfold useAtomics. rewrite build_batches_segments.
    apply emits_bind; [|intros; apply emits_ret].
    apply emits_commits. intros op Hop. by apply in_map_iff in Hop as (batch & <- & _).
  - intros written. destruct (negb _); [apply Hdeletes|].
    apply emits_bind; [by apply emits_kv_commit|].
    intros [vs|]; [apply emits_ret|apply Hdeletes].
Qed.

(** An attempt probes the id-key first and never again. *)
Lemma attempt_probes docId (parsed : T1) overwrite s :
  exists c s1 cr s0 rest,
    attempt docId parsed overwrite s
      = (c, s1, mkEvent (OpCommit (probe docId) cr) s0 :: rest) /\
    Forall unchecked rest.
Proof.
  change (attempt docId parsed overwrite s)
    with (bind (kv_commit (probe docId)) (fun check =>
            if negb (commit_ok check) && negb overwrite then ret LargeLayout.Taken
            else bind (if negb (commit_ok check) then delete [docId] else ret tt)
                   (fun _ => LargeLayout.write_parts T1 JSON_stringify KVDEX_KEY_PREFIX
                               ID_KEY_PREFIX SEGMENT_KEY_PREFIX LARGE_COLLECTION_STRING_LIMIT
                               ATOMIC_OPERATION_MUTATION_LIMIT getDocumentId key docId
                               parsed)) s).
  assert (Hprobe : exists check s0, kv_commit (probe docId) s
            = (Normal check, s0, [mkEvent (OpCommit (probe docId) check) s0])).
  { unfold kv_commit. destruct (commit_step (probe docId) s) as [check s0].
    by exists check, s0. }
  destruct Hprobe as (check & s0 & Hprobe). rewrite (bind_normal _ _ _ _ _ _ Hprobe).
  eexists _, _, check, s0, _. split; [reflexivity|].
  revert s0 Hprobe. intros s0 _. revert s0.
  change (emits unchecked
    (if negb (commit_ok check) && negb overwrite then ret LargeLayout.Taken
     else bind (if negb (commit_ok check) then delete [docId] else ret tt)
            (fun _ => LargeLayout.write_parts T1 JSON_stringify KVDEX_KEY_PREFIX
                        ID_KEY_PREFIX SEGMENT_KEY_PREFIX LARGE_COLLECTION_STRING_LIMIT
                        ATOMIC_OPERATION_MUTATION_LIMIT getDocumentId key docId parsed))).
  destruct (negb (commit_ok check) && negb overwrite); [apply emits_ret|].
  apply emits_bind; [|intros; apply emits_write_parts].
  destruct (negb (commit_ok check)); [apply emits_delete|apply emits_ret].
Qed.

Lemma attempt_one_probe docId (parsed : T1) overwrite s :
  attempts_made docId (snd (attempt docId parsed overwrite s)) = 1.
Proof.
  destruct (attempt_probes docId parsed overwrite s)
    as (c & s1 & cr & s0 & rest & -> & Hrest).
  cbn [snd]. change (?ev :: rest) with ([ev] ++ rest).
  rewrite attempts_made_app, (attempts_made_unchecked _ rest Hrest).
  unfold LargeLayout.attempts_made, LargeLayout.is_probe. cbn.
  by rewrite !bool_decide_eq_true_2.
Qed.

(** How the write goes on after its first attempt. *)
Lemma setDocument_attempts_step fuel id value (parsed : T1) options overwrite s
    outcome s1 t1 :
  model_parse value = Some parsed ->
  let docId := match id with Some i => i | None => idGenerator parsed end in
  attempt docId parsed overwrite s = (Normal outcome, s1, t1) ->
  setDocument_attempts fuel id value options overwrite s
  = match outcome with
    | LargeLayout.Written versionstamp => (Normal (CommitOk docId versionstamp), s1, t1)
    | LargeLayout.Taken => (Normal CommitError, s1, t1)
    | LargeLayout.Failed =>
        if (0 <? retry_of options)%Z
        then match fuel with
             | S fuel' =>
                 let again := setDocument_attempts fuel' (Some docId) parsed
                   (Some (mkSetOptions (Some (retry_of options - 1)%Z))) overwrite s1 in
                 (fst (fst again), snd (fst again), t1 ++ snd again)
             | O => (Unfinished, s1, t1)
             end
        else (Normal CommitError, s1, t1)
    end.
Proof.
  intros Hparse docId Hattempt.
  destruct fuel as [|fuel]; cbn [LargeLayout.setDocument_attempts]; rewrite Hparse.
  all: fold docId; rewrite (bind_normal _ _ _ _ _ _ Hattempt).
  all: destruct outcome as [vs| |]; cbn [ret fst snd]; rewrite ?app_nil_r; try done.
  all: destruct (0 <? retry_of options)%Z; cbn [ret unfinished fst snd];
         by rewrite ?app_nil_r.
Qed.

Lemma setDocument_attempts_rejects fuel id value options overwrite s :
  model_parse value = None ->
  setDocument_attempts fuel id value options overwrite s = (Thrown ModelParseError, s, []).
Proof. intros H. destruct fuel; cbn [LargeLayout.setDocument_attempts]; by rewrite H. Qed.

(** A write makes at least one attempt and at most `retry + 1`; it
    answers `{ok:false}` after `retry + 1` attempts, or at once when the
    probe finds the id-key taken and nothing may be overwritten; the id it
    reports is the id it probed. *)
Lemma attempts_counted fuel id value (parsed : T1) options overwrite s :
  model_parse value = Some parsed ->
  let docId := match id with Some i => i | None => idGenerator parsed end in
  let run := setDocument_attempts fuel id value options overwrite s in
  1 <= attempts_made docId (snd run) <= Z.to_nat (retry_of options) + 1 /\
  (fst (fst run) = Normal CommitError ->
     attempts_made docId (snd run) = Z.to_nat (retry_of options) + 1 \/
     (overwrite = false /\
      exists t0 s0,
        snd run = t0 ++ [mkEvent (OpCommit (probe docId) KvCommitError) s0])) /\
  (forall d vs, fst (fst run) = Normal (CommitOk d vs) -> d = docId).
Proof using ATOMIC_LIMIT_positive LIMIT_positive getDocumentId_last.
  revert id value parsed options s.
  induction fuel as [|fuel IH]; intros id value parsed options s Hparse docId run.
  all: destruct (attempt_outcome docId parsed overwrite s)
         as (outcome & s1 & t1 & Hattempt & _ & Hout).
  all: pose proof (attempt_one_probe docId parsed overwrite s) as Hone.
  all: rewrite Hattempt in Hone; cbn [snd] in Hone.
  all: unfold run; rewrite (setDocument_attempts_step _ _ _ _ _ _ _ _ _ _ Hparse Hattempt).
  all: fold docId.
  all: destruct outcome as [vs| |]; cbn [fst snd];
         [split; [lia|split; [discriminate|by intros d vs' [= <- _]]]
         |destruct Hout as (How & _ & _ & Ht & _);
          split; [lia|split; [|discriminate]]; intros _; right;
          split; [done|]; exists [], s1; by rewrite Ht
         |].
  all: destruct (Z.ltb_spec 0 (retry_of options)) as [Hpos|Hle].
  - cbn [fst snd]. split; [lia|split; [discriminate|discriminate]].
  - cbn [fst snd]. split; [lia|split; [intros _; left; lia|discriminate]].
  - cbn zeta. cbn [fst snd]. rewrite attempts_made_app, Hone.
    destruct (model_parse parsed) as [again|] eqn:Hagain.
    + destruct (IH (Some docId) parsed again
                  (Some (mkSetOptions (Some (retry_of options - 1)%Z))) s1 Hagain)
        as (Hbound & Herror & Hid).
      change (retry_of (Some (mkSetOptions (Some (retry_of options - 1)%Z))))
        with (retry_of options - 1)%Z in Hbound, Herror.
      split; [lia|split; [|exact Hid]].
      intros Hc. destruct (Herror Hc) as [Heq|(How & t0 & s0 & Ht)]; [left; lia|].
      right. split; [done|]. exists (t1 ++ t0), s0. by rewrite Ht, app_assoc.
    + rewrite (setDocument_attempts_rejects _ _ _ _ _ _ Hagain). cbn [fst snd].
      rewrite Nat.add_0_r. split; [lia|split; [discriminate|discriminate]].
  - cbn [fst snd]. split; [lia|split; [intros _; left; lia|discriminate]].
Qed.

(** With `retry` repetitions allowed the write completes, and the number
    allowed beyond that does not matter. *)
Lemma setDocument_attempts_within fuel fuel' id value options overwrite s :
  Z.to_nat (retry_of options) <= fuel ->
  Z.to_nat (retry_of options) <= fuel' ->
  setDocument_attempts fuel id value options overwrite s
    = setDocument_attempts fuel' id value options overwrite s /\
  fst (fst (setDocument_attempts fuel id value options overwrite s)) <> Unfinished.
Proof using ATOMIC_LIMIT_positive LIMIT_positive getDocumentId_last.
  revert fuel' id value options s.
  induction fuel as [|fuel IH]; intros fuel' id value options s Hfuel Hfuel'.
  all: destruct (model_parse value) as [parsed|] eqn:Hparse;
         [|by rewrite !setDocument_attempts_rejects].
  all: destruct (attempt_outcome
         (match id with Some i => i | None => idGenerator parsed end) parsed overwrite s)
         as (outcome & s1 & t1 & Hattempt & _ & _).
  all: rewrite !(setDocument_attempts_step _ _ _ _ _ _ _ _ _ _ Hparse Hattempt).
  all: destruct outcome as [vs| |]; [done|done|].
  all: destruct (Z.ltb_spec 0 (retry_of options)) as [Hpos|Hle]; [|done].
  - lia.
  - destruct fuel' as [|fuel']; [lia|]. cbn zeta.
    destruct (IH fuel' (Some (match id with Some i => i | None => idGenerator parsed end))
                parsed (Some (mkSetOptions (Some (retry_of options - 1)%Z))) s1)
      as [Heq Hfin]; [cbn; lia|cbn; lia|].
    by rewrite <- Heq.
Qed.

(** A successful [setDocument] that made a single attempt leaves the
    document stored, whatever the model does to a normalised value. *)
Lemma setDocument_written_once fuel id value options overwrite s d vs s' t (parsed : T1) :
  model_parse value = Some parsed ->
  setDocument fuel id value options overwrite s = (Normal (CommitOk d vs), s', t) ->
  attempts_made d t = 1 ->
  let parts := json_parts LARGE_COLLECTION_STRING_LIMIT (JSON_stringify parsed) in
  d = match id with Some i => i | None => idGenerator parsed end /\
  stored s' d parts vs /\ parts <> [] /\
  (forall k, k <> id_key d -> ~ In k (map fst (segment_entries d 0 parts)) ->
     entries s' !! k = None \/ entries s' !! k = entries s !! k).
Proof using ATOMIC_LIMIT_positive LIMIT_positive getDocumentId_last.
  intros Hparse Hrun Hsingle parts. rewrite setDocument_as_attempts in Hrun.
  destruct (attempts_counted fuel id value parsed options overwrite s Hparse)
    as (_ & _ & Hd).
  rewrite Hrun in Hd. specialize (Hd d vs eq_refl).
  set (docId := match id with Some i => i | None => idGenerator parsed end) in *.
  subst d.
  destruct (attempt_outcome docId parsed overwrite s)
    as (outcome & s1 & t1 & Hattempt & Hframe & Hout).
  pose proof (attempt_one_probe docId parsed overwrite s) as Hone.
  rewrite Hattempt in Hone. cbn [snd] in Hone.
  rewrite (setDocument_attempts_step _ _ _ _ _ _ _ _ _ _ Hparse Hattempt) in Hrun.
  fold docId in Hrun.
  destruct outcome as [vs1| |]; [|discriminate|].
  - inversion Hrun; subst. by destruct Hout.
  - destruct (0 <? retry_of options)%Z; [|discriminate].
    destruct fuel as [|fuel]; [discriminate|]. cbn zeta in Hrun.
    inversion Hrun as [[Hc Hs Ht]]. exfalso.
    rewrite <- Ht, attempts_made_app, Hone in Hsingle.
    destruct (model_parse parsed) as [again|] eqn:Hagain.
    + destruct (attempts_counted fuel (Some docId) parsed again
                  (Some (mkSetOptions (Some (retry_of options - 1)%Z))) overwrite s1 Hagain)
        as (Hbound & _). cbn [snd] in Hbound. lia.
    + rewrite (setDocument_attempts_rejects _ _ _ _ _ _ Hagain) in Hc. discriminate.
Qed.

(** The same when the model leaves the normalised value unchanged or the
    write made a single attempt. *)
Lemma setDocument_written_same fuel id value options overwrite s d vs s' t (parsed : T1) :
  model_parse value = Some parsed ->
  model_parse parsed = Some parsed \/ attempts_made d t = 1 ->
  setDocument fuel id value options overwrite s = (Normal (CommitOk d vs), s', t) ->
  let parts := json_parts LARGE_COLLECTION_STRING_LIMIT (JSON_stringify parsed) in
  d = match id with Some i => i | None => idGenerator parsed end /\
  stored s' d parts vs /\ parts <> [] /\
  (forall k, k <> id_key d -> ~ In k (map fst (segment_entries d 0 parts)) ->
     entries s' !! k = None \/ entries s' !! k = entries s !! k).
Proof using ATOMIC_LIMIT_positive LIMIT_positive getDocumentId_last.
  intros Hparse [Hstable|Hsingle] Hrun.
  - exact (setDocument_written _ _ _ _ _ _ _ _ _ _ _ Hparse Hstable Hrun).
  - exact (setDocument_written_once _ _ _ _ _ _ _ _ _ _ _ Hparse Hrun Hsingle).
Qed.

Lemma concat_strings (parts : list string) :
  String.concat EmptyString parts = join (map StoredString parts).
Proof.
  induction parts as [|part parts IH]; [done|].
  cbn [map join fold_right to_string]. fold (join (map StoredString parts)).
  rewrite <- IH. destruct parts as [|part2 parts].
  - simpl. clear. induction part as [|a part IHp]; [done|].
    change (String a part +:+ "") with (String a (part +:+ "")). by f_equal.
  - reflexivity.
Qed.

Lemma ceil_div_bounds n d :
  0 < d -> 0 < n -> d * (ceil_div n d - 1) < n <= d * ceil_div n d.
Proof.
  intros Hd Hn. clear -Hd Hn. unfold ceil_div.
  pose proof (Nat.div_mod_eq (n + d - 1) d) as Hdiv.
  pose proof (Nat.mod_upper_bound (n + d - 1) d) as Hmod.
  nia.
Qed.

Lemma ceil_div_half n d : 0 < d -> 2 * n = 5 * d -> ceil_div n d = 3.
Proof.
  intros Hd H. clear -Hd H. unfold ceil_div.
  symmetry. apply (Nat.div_unique _ _ _ (n + d - 1 - 3 * d)); lia.
Qed.

(** C4 (segments and manifest), as the code has it.  Take a successful
    [setDocument] of a value whose normalised form [parsed] has a JSON
    text of length [n], and that made a single attempt or whose model
    leaves [parsed] unchanged (an attempt that is repeated normalises the
    value again).  It leaves,
    with `k = ceil(n / LARGE_COLLECTION_STRING_LIMIT)`: [k] parts that,
    concatenated in order, are the JSON text; part [j] under the segment
    key of index [j], for `j = 0 .. k-1`; at the id-key the manifest that
    lists the indices `0 .. k-1` in order; no other key written (any
    other key is absent or holds what it held before); [n] is positive,
    and `n = 2.5 * LARGE_COLLECTION_STRING_LIMIT` gives a manifest of
    length 3. *)
Theorem setDocument_segments (fuel : nat) (id : option KvId) (value parsed : T1)
    (options : option SetOptions) (overwrite : bool) (s s' : Kv LargeStored)
    (d : KvId) (vs : Versionstamp) (t : list (Event LargeStored)) :
  model_parse value = Some parsed ->
  model_parse parsed = Some parsed \/ attempts_made d t = 1 ->
  setDocument fuel id value options overwrite s = (Normal (CommitOk d vs), s', t) ->
  let json := JSON_stringify parsed in
  let n := String.length json in
  let k := ceil_div n LARGE_COLLECTION_STRING_LIMIT in
  exists parts : list string,
    length parts = k /\
    String.concat EmptyString parts = json /\
    (forall (j : nat) (part : string), parts !! j = Some part ->
       exists vsj, entries s' !! segment_key d (Z.of_nat j)
                   = Some (StoredString part, vsj)) /\
    entries s' !! id_key d = Some (StoredEntry (mkEntry (segment_indices k)), vs) /\
    (forall key', key' <> id_key d ->
       (forall j : nat, j < k -> key' <> segment_key d (Z.of_nat j)) ->
       entries s' !! key' = None \/ entries s' !! key' = entries s !! key') /\
    0 < n /\
    LARGE_COLLECTION_STRING_LIMIT * (k - 1) < n <= LARGE_COLLECTION_STRING_LIMIT * k /\
    (2 * n = 5 * LARGE_COLLECTION_STRING_LIMIT -> length (segment_indices k) = 3).
Proof using ATOMIC_LIMIT_positive LIMIT_positive getDocumentId_last.
  intros Hparse Hstable Hrun json n k.
  destruct (setDocument_written_same _ _ _ _ _ _ _ _ _ _ _ Hparse Hstable Hrun)
    as (_ & [Hmanifest Hparts] & Hne & Hframe).
  fold json in Hmanifest, Hparts, Hne, Hframe.
  pose proof (json_parts_length LARGE_COLLECTION_STRING_LIMIT LIMIT_positive json) as Hlen.
  fold n in Hlen. fold k in Hlen.
  assert (Hn : 0 < n).
  { destruct (Nat.eq_dec n 0) as [H0|]; [|lia]. exfalso. apply Hne.
    apply length_zero_iff_nil. rewrite Hlen. unfold k. rewrite H0.
    by apply ceil_div_0. }
  exists (json_parts LARGE_COLLECTION_STRING_LIMIT json).
  split; [done|]. split; [by rewrite concat_strings, json_parts_join|].
  split; [done|]. split; [by rewrite <- Hlen|]. split; [|split; [done|split]].
  - intros key' Hid Hseg. apply Hframe; [done|]. intros Hin.
    apply segment_entries_keys in Hin as (j & Hj & ->).
    apply (Hseg (Z.to_nat j)); [lia|]. f_equal. lia.
  - by apply ceil_div_bounds.
  - intros Hhalf. unfold segment_indices. rewrite length_map, length_seq.
    by apply ceil_div_half.
Qed.

(** C2 (large round-trip), as the code has it.  Take a successful
    [setDocument] of a value whose normalised form [parsed] JSON encodes
    and decodes back, and that made a single attempt or whose model leaves
    [parsed] unchanged (an attempt that is repeated normalises the value
    again).  Then [find] of the id returns the document with that id, the
    normalised value and the versionstamp of the commit. *)
Theorem setDocument_find_roundtrip (fuel : nat) (id : option KvId) (value parsed : T1)
    (options : option SetOptions) (overwrite : bool) (s s' : Kv LargeStored)
    (d : KvId) (vs : Versionstamp) (t : list (Event LargeStored)) :
  model_parse value = Some parsed ->
  model_parse parsed = Some parsed \/ attempts_made d t = 1 ->
  JSON_parse (JSON_stringify parsed) = Some parsed ->
  setDocument fuel id value options overwrite s = (Normal (CommitOk d vs), s', t) ->
  exists t', find d s' = (Normal (Some (mkDocument T1 d parsed vs)), s', t').
Proof using ATOMIC_LIMIT_positive LIMIT_positive getDocumentId_last.
  intros Hparse Hstable Hjson Hrun.
  destruct (setDocument_written_same _ _ _ _ _ _ _ _ _ _ _ Hparse Hstable Hrun)
    as (_ & Hstored & _ & _).
  eapply find_stored; [exact Hstored|by apply json_parts_nonempty|].
  by rewrite json_parts_join.
Qed.

(** C5 (corrupted documents), as the code has it.  Without an entry at
    the id-key [find] returns null after one read.  It raises
    [CorruptedDocumentDataError] exactly when a manifest is at the id-key
    and either some segment key that the manifest lists has no value or
    holds the empty string, or the values at the segment keys, joined in
    manifest order, fail to JSON-decode. *)
Theorem find_corrupted (id : KvId) (s : Kv LargeStored) :
  (entries s !! id_key id = None /\
   find id s = (Normal None, s, [mkEvent (OpGet (id_key id)) s]))
  \/
  (is_Some (entries s !! id_key id) /\
   (fst (fst (find id s)) = Thrown CorruptedDocumentDataError <->
    exists entry vs,
      entries s !! id_key id = Some (StoredEntry entry, vs) /\
      ((exists segId, In segId (ids entry) /\
          match entries s !! segment_key_at id segId with
          | None => True
          | Some (StoredString str, _) => str = EmptyString
          | Some (StoredEntry _, _) => False
          end) \/
       JSON_parse (segment_text s id entry) = None))).
Proof.
  destruct (entries s !! id_key id) as [got|] eqn:Hget.
  - right. split; [done|]. rewrite find_corrupted_iff, Hget.
    split; intros (entry & vs & Heq & Hcases); exists entry, vs; (split; [done|]).
    all: destruct Hcases as [(segId & Hin & Hbad)|Hparse]; [left|by right].
    all: exists segId; split; [done|].
    all: destruct (entries s !! segment_key_at id segId) as [[[e'|str] vs']|];
      simpl in *; try done.
    + by destruct (String.eqb_spec str "").
    + by subst.
  - left. split; [done|]. by apply find_absent.
Qed.

Lemma concat_map_map {A B} (f : A -> B) (ls : list (list A)) :
  concat (map (map f) ls) = map f (concat ls).
Proof. induction ls as [|l ls IH]; simpl; [done|]. by rewrite IH, map_app. Qed.

(** C8 (delete).  Without a manifest at the id-key [delete] makes one
    read and leaves the store as it is.  With a manifest it reads, deletes
    the id-key, and then commits the batches of deletes of the segment
    keys that the manifest lists, in order.  Every store on the way is
    the initial store or has no entry at the id-key, so none has a
    manifest whose segments are already deleted.  At the end the id-key
    has no entry, and no listed segment key has one when the store
    refused no batch. *)
Theorem delete_manifest_first (id : KvId) (s : Kv LargeStored) :
  (entries s !! id_key id = None ->
   delete [id] s = (Normal tt, s, [mkEvent (OpGet (id_key id)) s])) /\
  (forall entry vs,
     entries s !! id_key id = Some (StoredEntry entry, vs) ->
     let s1 := mkKv (base.delete (id_key id) (entries s)) (clock s + 1)%Z (refusals s) in
     let batches :=
       map (map (segment_key_at id))
         (slices (length (ids entry)) ATOMIC_OPERATION_MUTATION_LIMIT (ids entry)) in
     exists crs s' t,
       let calls := mkEvent (OpGet (id_key id)) s
                    :: mkEvent (OpDelete (id_key id)) s1 :: t in
       delete [id] s = (Normal tt, s', calls) /\
       map ev_op t = zip_with OpCommit (map deletes_of batches) crs /\
       length crs = length batches /\
       concat batches = map (segment_key_at id) (ids entry) /\
       (forall ev, In ev calls ->
          ev_after ev = s \/ entries (ev_after ev) !! id_key id = None) /\
       entries s' !! id_key id = None /\
       (refusals s = [] -> forall segId, In segId (ids entry) ->
          entries s' !! segment_key_at id segId = None)).
Proof using ATOMIC_LIMIT_positive.
  split; [apply delete_absent|].
  intros entry vs Hget s1 batches.
  destruct (delete_manifest id s entry vs Hget)
    as (crs & s' & t & Hrun & Hops & Hlen & Hall & Hrem & Hgone).
  fold s1 in Hrun, Hall, Hrem. fold batches in Hops, Hlen, Hgone.
  assert (Hs1 : entries s1 !! id_key id = None) by apply lookup_delete_eq.
  assert (Hconcat : concat batches = map (segment_key_at id) (ids entry)).
  { unfold batches. rewrite concat_map_map. f_equal. by apply slices_concat. }
  exists crs, s', t. cbv zeta. split; [done|]. split; [done|]. split; [done|].
  split; [done|]. split; [|split].
  - intros ev [<-|[<-|Hin]]; simpl; [by left|by right|right].
    rewrite Forall_forall in Hall.
    eapply only_removed_absent; [|exact Hs1]. apply Hall. by apply list_elem_of_In.
  - by eapply only_removed_absent.
  - intros Hnone segId Hin. apply Hgone; [done|]. rewrite Hconcat. by apply in_map.
Qed.

Lemma probe_taken docId s :
  is_Some (entries s !! id_key docId) ->
  fst (commit_step (probe docId) s) = KvCommitError.
Proof.
  intros H. apply (commit_step_failed_check _ s (mkCheck (id_key docId) None)).
  - by left.
  - by apply check_absent_fails.
Qed.

(** C6 (the id-key is taken).  When the id-key holds an entry the probe
    fails.  With [overwrite] false [setDocument] returns `{ok:false}`
    after the probe alone, and the entries of the store are unchanged.
    With [overwrite] true and a manifest at the id-key, the probe is
    followed by the store calls of `delete(id)`, after which the id-key
    has no entry (and, when the store refuses no batch, neither has any
    segment key of the prior manifest); only then come the segment writes
    of the new document. *)
Theorem setDocument_taken (fuel : nat) (id : option KvId) (value parsed : T1)
    (options : option SetOptions) (overwrite : bool) (s : Kv LargeStored) :
  model_parse value = Some parsed ->
  let docId := match id with Some i => i | None => idGenerator parsed end in
  is_Some (entries s !! id_key docId) ->
  let s1 := snd (commit_step (probe docId) s) in
  let probed := mkEvent (OpCommit (probe docId) KvCommitError) s1 in
  (overwrite = false ->
     setDocument fuel id value options overwrite s = (Normal CommitError, s1, [probed]) /\
     entries s1 = entries s) /\
  (overwrite = true -> forall entry vs,
     entries s !! id_key docId = Some (StoredEntry entry, vs) ->
     exists s2 t_delete written s3 t_write c s' rest,
       delete [docId] s1 = (Normal tt, s2, t_delete) /\
       entries s2 !! id_key docId = None /\
       (refusals s1 = [] -> forall segId, In segId (ids entry) ->
          entries s2 !! segment_key_at docId segId = None) /\
       useAtomics ATOMIC_OPERATION_MUTATION_LIMIT
         (json_parts LARGE_COLLECTION_STRING_LIMIT (JSON_stringify parsed))
         (set_segment docId) (0%Z, []) s2 = (Normal written, s3, t_write) /\
       setDocument fuel id value options overwrite s
         = (c, s', probed :: t_delete ++ t_write ++ rest)).
Proof using ATOMIC_LIMIT_positive.
  intros Hparse docId Htaken s1 probed.
  pose proof (probe_taken docId s Htaken) as Hprobe.
  pose proof (commit_step_no_mutations (probe docId) s eq_refl) as Hsame.
  fold s1 in Hsame.
  assert (Hstep : commit_step (probe docId) s = (KvCommitError, s1)).
  { unfold s1. destruct (commit_step (probe docId) s) as [cr s0]. simpl in *. by subst. }
  assert (Hunfold : setDocument fuel id value options overwrite s
    = bind (attempt docId parsed overwrite)
        (fun outcome =>
           match outcome with
           | LargeLayout.Written versionstamp => ret (CommitOk docId versionstamp)
           | LargeLayout.Taken => ret CommitError
           | LargeLayout.Failed =>
               if (0 <? retry_of options)%Z
               then match fuel with
                    | S fuel' =>
                        setDocument_attempts fuel' (Some docId) parsed
                          (Some (mkSetOptions (Some (retry_of options - 1)%Z))) overwrite
                    | O => unfinished
                    end
               else ret CommitError
           end) s).
  { rewrite setDocument_as_attempts. destruct fuel; simpl; by rewrite Hparse. }
  split.
  - intros ->. split; [|done]. rewrite Hunfold.
    unfold LargeLayout.attempt, bind, kv_commit. rewrite Hstep. done.
  - intros -> entry vs Hget.
    assert (Hget1 : entries s1 !! id_key docId = Some (StoredEntry entry, vs))
      by by rewrite Hsame.
    destruct (delete_manifest docId s1 entry vs Hget1)
      as (crs & s2 & t & Hdel & _ & _ & _ & Hrem & Hgone).
    match type of Hdel with _ = (_, _, ?td) => set (t_delete := td) in * end.
    destruct (write_segments docId
      (json_parts LARGE_COLLECTION_STRING_LIMIT (JSON_stringify parsed)) s2)
      as (crs' & s3 & t_write & Hwrite & _).
    rewrite Hunfold.
    set (K3 := fun written : list KvCommit * (Z * list KvKey) =>
      if negb ((0 <? length (fst written))%nat && forallb commit_ok (fst written))
      then bind (allFulfilled (map kv_delete (snd (snd written))))
             (fun _ => ret LargeLayout.Failed)
      else bind (kv_commit (manifest docId (snd (snd written))))
             (fun cr => match cr with
                        | KvCommitError =>
                            bind (allFulfilled (map kv_delete (snd (snd written))))
                              (fun _ => ret LargeLayout.Failed)
                        | KvCommitResult versionstamp =>
                            ret (LargeLayout.Written versionstamp)
                        end)).
    destruct (bind_prefix _ K3 s2 _ _ _ Hwrite) as (c3 & s3' & rest3 & Hrun3).
    assert (Hattempt : attempt docId parsed true s
      = (c3, s3', probed :: (t_delete ++ (t_write ++ rest3)))).
    { unfold LargeLayout.attempt. unfold bind at 1. unfold kv_commit at 1.
      rewrite Hstep. cbn [commit_ok negb andb]. unfold bind at 1. rewrite Hdel.
      fold K3. rewrite Hrun3. done. }
    destruct (bind_prefix _ (fun outcome =>
           match outcome with
           | LargeLayout.Written versionstamp => ret (CommitOk docId versionstamp)
           | LargeLayout.Taken => ret CommitError
           | LargeLayout.Failed =>
               if (0 <? retry_of options)%Z
               then match fuel with
                    | S fuel' =>
                        setDocument_attempts fuel' (Some docId) parsed
                          (Some (mkSetOptions (Some (retry_of options - 1)%Z))) true
                    | O => unfinished
                    end
               else ret CommitError
           end) s _ _ _ Hattempt) as (c & s' & rest & Hrun).
    eexists s2, t_delete, _, s3, t_write, c, s', (rest3 ++ rest).
    split; [exact Hdel|]. split; [|split; [|split; [exact Hwrite|]]].
    + eapply only_removed_absent; [exact Hrem|]. apply lookup_delete_eq.
    + intros Hnone segId Hin. apply Hgone; [done|].
      rewrite concat_map_map, slices_concat by done. by apply in_map.
    + rewrite Hrun. cbn [app]. by rewrite <- !app_assoc.
Qed.

(** C7 (retries).  Take a write with `options.retry = retries` (0 when
    absent) of a value that the model accepts, and let [r] be [retries] as
    a natural number.  With [r] repetitions of the recursion allowed the
    write completes, and allowing more changes nothing.  Its store calls
    show at least one and at most `r + 1` attempts.  It returns
    `{ok:false}` only after `r + 1` attempts, or at once when the probe
    finds the id-key taken and nothing may be overwritten.  After an
    attempt in which a segment batch commit or the manifest commit was not
    ok, no segment key of its parts holds an entry; the write then returns
    `{ok:false}` when `retries <= 0`, and otherwise goes on as the write
    of the normalised value under the same id with `retries - 1`.  All of
    this is the write by attempts of the specification. *)
Theorem setDocument_retries (fuel : nat) (id : option KvId) (value parsed : T1)
    (options : option SetOptions) (overwrite : bool) (s : Kv LargeStored) :
  model_parse value = Some parsed ->
  let docId := match id with Some i => i | None => idGenerator parsed end in
  let retries := match options with
                 | Some o => match retry o with Some n => n | None => 0%Z end
                 | None => 0%Z
                 end in
  let r := Z.to_nat retries in
  let run := setDocument fuel id value options overwrite s in
  (r <= fuel ->
     fst (fst run) <> Unfinished /\
     forall fuel', r <= fuel' -> setDocument fuel' id value options overwrite s = run) /\
  1 <= attempts_made docId (snd run) <= r + 1 /\
  (fst (fst run) = Normal CommitError ->
     attempts_made docId (snd run) = r + 1 \/
     (overwrite = false /\
      exists t0 s0,
        snd run = t0 ++ [mkEvent (OpCommit (probe docId) KvCommitError) s0])) /\
  (forall s1 t1,
     attempt docId parsed overwrite s = (Normal LargeLayout.Failed, s1, t1) ->
     (forall (j : nat) (part : string),
        json_parts LARGE_COLLECTION_STRING_LIMIT (JSON_stringify parsed) !! j = Some part ->
        entries s1 !! segment_key docId (Z.of_nat j) = None) /\
     ((retries <= 0)%Z -> run = (Normal CommitError, s1, t1)) /\
     ((0 < retries)%Z -> forall fuel0, fuel = S fuel0 ->
        let again := setDocument fuel0 (Some docId) parsed
                       (Some (mkSetOptions (Some (retries - 1)%Z))) overwrite s1 in
        run = (fst (fst again), snd (fst again), t1 ++ snd again))) /\
  run = setDocument_attempts fuel id value options overwrite s.
Proof using ATOMIC_LIMIT_positive LIMIT_positive getDocumentId_last.
  intros Hparse docId retries r run.
  assert (Hretries : retries = retry_of options) by reflexivity.
  clearbody retries. subst retries. unfold run. rewrite setDocument_as_attempts.
  split.
  { intros Hfuel.
    destruct (setDocument_attempts_within fuel fuel id value options overwrite s)
      as [_ Hfin]; [done|done|].
    split; [done|]. intros fuel' Hfuel'. rewrite setDocument_as_attempts.
    by apply setDocument_attempts_within. }
  destruct (attempts_counted fuel id value parsed options overwrite s Hparse)
    as (Hbound & Herror & _).
  split; [exact Hbound|]. split; [exact Herror|]. split; [|reflexivity].
  intros s1 t1 Hfailed. split.
  { intros j part Hj.
    destruct (attempt_outcome docId parsed overwrite s)
      as (outcome & s1' & t1' & Hattempt & _ & Hout).
    rewrite Hfailed in Hattempt. inversion Hattempt; subst.
    apply (Hout _ (segment_entries_lookup docId 0 _ j part Hj)). }
  rewrite (setDocument_attempts_step _ _ _ _ _ _ _ _ _ _ Hparse Hfailed). split.
  - intros Hle. by destruct (Z.ltb_spec 0 (retry_of options)); [lia|].
  - intros Hpos fuel0 ->. destruct (Z.ltb_spec 0 (retry_of options)); [|lia].
    cbn zeta. by rewrite setDocument_as_attempts.
Qed.

End Segments.
End LargeSegments.

(** * The properties at concrete inputs *)

Module Witnesses.
Import AtomicBuilder BuilderCalls LargeCollection LargeLayout Instances.

Lemma triple_eta {A B C} (p : A * B * C) (a : A) :
  fst (fst p) = a -> p = (a, snd (fst p), snd p).
Proof. destruct p as [[x y] z]. simpl. by intros ->. Defined.

Lemma last_part_last (k : KvKey) (part : KvKeyPart) : last_part (k ++ [part]) = Some part.
Proof. apply last_snoc. Defined.

(** Two users with the same email: the second commit is rejected. *)
Lemma primary_index_unique_witness :
  let first := call last_part (new tt users)
                 (insert_call ViaAdd (PString "u1") (user "a" "x")) in
  let second := chain last_part
                  ([] ++ insert_call ViaSet (PString "u2") (user "b" "x") :: [])
                  (new tt users) in
  let s1 := snd (fst (commit first empty_kv)) in
  (exists augmented : Model,
     In (MutSet (primaryIndexKey users_index "email" (PString "x")) (VObject augmented))
        (mutations (batch_from atomic (operations second))) /\
     get_property augmented "__id__" = Some (VPart (PString "u2")) /\
     get_property augmented "name" = Some (VPart (PString "b"))) /\
  exists s2 t2, commit second s1 = (Normal KvCommitError, s2, t2) /\
    entries s2 = entries s1 /\ clock s2 = clock s1.
Proof.
  refine (let H := BuilderBatches.primary_index_unique last_part tt tt users users
     users_index "email" (PString "x") ViaAdd ViaSet (PString "u1") (PString "u2")
     (user "a" "x") (user "b" "x") [] [] empty_kv _ 0%Z _ _ _ _ _ _ _ in
     conj (match proj1 H with
           | ex_intro _ augmented (conj Hin (conj Hid Hothers)) =>
               ex_intro _ augmented (conj Hin (conj Hid
                 (eq_trans (Hothers "name"%string ltac:(discriminate)) eq_refl)))
           end)
          (proj2 (proj2 H))).
  - reflexivity.
  - simpl. auto.
  - reflexivity.
  - reflexivity.
  - apply triple_eta. vm_compute. reflexivity.
  - reflexivity.
Defined.

(** An add and a delete in the users collection: rejected at once. *)
Lemma commit_rejects_overlap_witness :
  commit (chain last_part
            ([] ++ CallAdd (PString "u1") (user "a" "x") :: [CallDelete (PString "u2")])
            (new tt users)) empty_kv
  = (Normal KvCommitError, empty_kv, []).
Proof.
  refine (BuilderFacts.commit_rejects_overlap last_part (new tt users)
    [] [CallDelete (PString "u2")] [CallAdd (PString "u1") (user "a" "x")] []
    (CallAdd (PString "u1") (user "a" "x")) (CallDelete (PString "u2")) empty_kv
    _ _ _ _).
  - reflexivity.
  - split; [eexists; reflexivity|exact I].
  - split; [eexists; reflexivity|exact I].
  - reflexivity.
Defined.

(** A guest has no email: nothing is enqueued for the email index. *)
Lemma sparse_index_witness :
  ~ In (primaryIndexKey users_index "email" (PString "x"))
    (map fst (primary_entries users_index (PString "g1") (as_Model (guest "a"))
                (primaryIndexList users_index))).
Proof.
  refine (proj1 (proj2 (BuilderBatches.sparse_index last_part tt (new tt users)
    users_index "email" ViaAdd (PString "g1") (guest "a") _ _)) (PString "x")).
  - reflexivity.
  - reflexivity.
Defined.

(** Deleting a user that does not exist commits. *)
Lemma delete_absent_document_witness :
  fst (fst (commit (AtomicBuilder.delete (PString "nobody") (new tt users)) empty_kv))
  = Normal (KvCommitResult 0%Z).
Proof.
  destruct (BuilderBatches.delete_absent_document tt users users_index
    (PString "nobody") empty_kv) as (prepare & prepared & s1 & s2 & cr2 & H).
  - reflexivity.
  - reflexivity.
  - reflexivity.
  - destruct H as (_ & _ & _ & _ & Hrun & _). rewrite Hrun. reflexivity.
Defined.

(** `12345` has a JSON text of 2.5 times the limit: three segments. *)
Lemma setDocument_segments_witness :
  entries one_doc !! docs_id_key (PString "doc1")
  = Some (StoredEntry (mkEntry (segment_indices 3)), 3%Z).
Proof.
  destruct (LargeSegments.setDocument_segments nat Some (fun _ => PString "generated")
    number_stringify KVDEX ID SEGMENT 2 2 last_part docs last_part_last
    ltac:(lia) ltac:(lia) 1 (Some (PString "doc1")) 12345 12345 None false
    empty_docs one_doc (PString "doc1") 3%Z one_doc_calls eq_refl (or_introl eq_refl))
    as (parts & _ & _ & _ & Hmanifest & _).
  - apply triple_eta. vm_compute. reflexivity.
  - exact Hmanifest.
Defined.

(** The document written is the document found, also behind a model
    that changes its own output, when one attempt is enough. *)
Lemma setDocument_find_roundtrip_witness :
  let run := counters_set 0 (Some (PString "doc1")) 5
               (Some (mkSetOptions (Some 1%Z))) false empty_docs in
  exists t, docs_find (PString "doc1") (snd (fst run))
            = (Normal (Some (mkDocument nat (PString "doc1") 6 2%Z)), snd (fst run), t).
Proof.
  refine (LargeSegments.setDocument_find_roundtrip nat successor
    (fun _ => PString "generated") number_stringify number_parse KVDEX ID SEGMENT 2 2
    last_part docs last_part_last ltac:(lia) ltac:(lia) 0 (Some (PString "doc1")) 5 6
    (Some (mkSetOptions (Some 1%Z))) false empty_docs
    (snd (fst (counters_set 0 (Some (PString "doc1")) 5
                 (Some (mkSetOptions (Some 1%Z))) false empty_docs)))
    (PString "doc1") 2%Z
    (snd (counters_set 0 (Some (PString "doc1")) 5
            (Some (mkSetOptions (Some 1%Z))) false empty_docs))
    eq_refl (or_intror _) _ _).
  - vm_compute. reflexivity.
  - vm_compute. reflexivity.
  - apply triple_eta. vm_compute. reflexivity.
Defined.

(** A second write to `doc1` without overwrite stops after the probe. *)
Lemma setDocument_taken_witness :
  fst (fst (docs_set 1 (Some (PString "doc1")) 777 None false one_doc))
  = Normal CommitError.
Proof.
  destruct (LargeSegments.setDocument_taken nat Some (fun _ => PString "generated")
    number_stringify KVDEX ID SEGMENT 2 2 last_part docs ltac:(lia) 1
    (Some (PString "doc1")) 777 777 None false one_doc eq_refl) as [Hno _].
  - vm_compute. eexists. reflexivity.
  - destruct (Hno eq_refl) as [Hrun _]. unfold docs_set. rewrite Hrun. reflexivity.
Defined.

(** With `retry = 1` on a store that refuses every segment batch, the
    write gives up after exactly two attempts. *)
Lemma setDocument_retries_witness :
  let run := docs_set 1 (Some (PString "doc1")) 7
               (Some (mkSetOptions (Some 1%Z))) true stubborn_docs in
  fst (fst run) = Normal CommitError /\
  attempts_made KVDEX ID SEGMENT docs (PString "doc1") (snd run) = 1 + 1.
Proof.
  assert (Hrun : fst (fst (docs_set 1 (Some (PString "doc1")) 7
                   (Some (mkSetOptions (Some 1%Z))) true stubborn_docs))
                 = Normal CommitError) by (vm_compute; reflexivity).
  split; [exact Hrun|].
  destruct (proj1 (proj2 (proj2 (LargeSegments.setDocument_retries nat Some
    (fun _ => PString "generated") number_stringify KVDEX ID SEGMENT 2 2 last_part docs
    last_part_last ltac:(lia) ltac:(lia) 1 (Some (PString "doc1")) 7 7
    (Some (mkSetOptions (Some 1%Z))) true stubborn_docs eq_refl))) Hrun)
    as [Hcount|[Hoverwrite _]].
  - exact Hcount.
  - discriminate Hoverwrite.
Defined.

(** Deleting `doc1` leaves no manifest. *)
Lemma delete_manifest_first_witness :
  exists s' t, docs_delete [PString "doc1"] one_doc = (Normal tt, s', t) /\
    entries s' !! docs_id_key (PString "doc1") = None.
Proof.
  destruct (proj2 (LargeSegments.delete_manifest_first KVDEX ID SEGMENT 2 docs
    ltac:(lia) (PString "doc1") one_doc)
    (mkEntry [PNumber 0; PNumber 1; PNumber 2]) 3%Z)
    as (crs & s' & t & Hrun & _ & _ & _ & _ & Hgone & _).
  - vm_compute. reflexivity.
  - exists s'. eexists. split; [exact Hrun|exact Hgone].
Defined.

(** C5 with absent values as the only missing parts fails on a store
    whose first segment is the empty string: [find] raises the error
    although every segment key of the manifest has a value and the joined
    text `5` decodes. *)
Lemma find_corrupted_counterexample :
  ~ (fst (fst (docs_find (PString "doc1") hollow_docs)) = Thrown CorruptedDocumentDataError
     <-> corrupt_by_absence hollow_docs (PString "doc1")).
Proof.
  intros [Hraise _].
  destruct (Hraise ltac:(vm_compute; reflexivity)) as (entry & vs & Hget & Hcases).
  vm_compute in Hget. inversion Hget; subst entry vs.
  destruct Hcases as [(segId & Hin & Hnone)|Hparse].
  - simpl in Hin. destruct Hin as [<-|[<-|[]]]; vm_compute in Hnone; discriminate.
  - vm_compute in Hparse. discriminate.
Qed.

(** C2 as stated fails in two ways.  Behind a model that normalises 5
    to 6, a write of 5 whose first attempt the store refuses and whose
    second attempt succeeds leaves a document that [find] returns with
    the value 7, not 6.  And `NaN`, whose JSON text `null` is not empty,
    is written and found as `null`. *)
Lemma setDocument_find_roundtrip_counterexample :
  (let run := counters_set 1 (Some (PString "doc1")) 5
                (Some (mkSetOptions (Some 1%Z))) false refusing_docs in
   fst (fst run) = Normal (CommitOk (PString "doc1") 4%Z) /\
   successor 5 = Some 6 /\
   fst (fst (docs_find (PString "doc1") (snd (fst run))))
     = Normal (Some (mkDocument nat (PString "doc1") 7 4%Z)) /\
   ~ (exists doc, fst (fst (docs_find (PString "doc1") (snd (fst run))))
                    = Normal (Some doc) /\ doc_value nat doc = 6)) /\
  (let run := readings_set 0 (Some (PString "doc1")) NaN None false empty_docs in
   fst (fst run) = Normal (CommitOk (PString "doc1") 2%Z) /\
   reading_stringify NaN = "null"%string /\
   fst (fst (readings_find (PString "doc1") (snd (fst run))))
     = Normal (Some (mkDocument Reading (PString "doc1") Null 2%Z)) /\
   ~ (exists doc, fst (fst (readings_find (PString "doc1") (snd (fst run))))
                    = Normal (Some doc) /\ doc_value Reading doc = NaN)).
Proof.
  split; cbv zeta.
  - split; [vm_compute; reflexivity|]. split; [reflexivity|].
    split; [vm_compute; reflexivity|].
    intros (doc & Hfind & Hvalue). vm_compute in Hfind.
    inversion Hfind; subst doc. discriminate Hvalue.
  - split; [vm_compute; reflexivity|]. split; [reflexivity|].
    split; [vm_compute; reflexivity|].
    intros (doc & Hfind & Hvalue). vm_compute in Hfind.
    inversion Hfind; subst doc. discriminate Hvalue.
Qed.

(** C4 as stated fails behind a model that normalises 5 to 6.  After a
    write of 5 whose first attempt the store refuses and whose second
    attempt succeeds, segment 0 holds the text `7`: the segments are not
    the parts of the JSON text `6` of the normalised value.  And after a
    write of 5 that succeeds at once, segment 0 holds `6`: the segments
    are the parts of the text of the normalised value, not of the text
    `5` of the value that was passed. *)
Lemma setDocument_segments_counterexample :
  (let run := counters_set 1 (Some (PString "doc1")) 5
                (Some (mkSetOptions (Some 1%Z))) false refusing_docs in
   fst (fst run) = Normal (CommitOk (PString "doc1") 4%Z) /\
   successor 5 = Some 6 /\
   number_stringify 6 = "6"%string /\
   entries (snd (fst run)) !! docs_segment_key (PString "doc1") (PNumber 0)
     = Some (StoredString "7", 3%Z) /\
   ~ (exists parts : list string,
        String.concat EmptyString parts = number_stringify 6 /\
        forall (j : nat) (part : string), parts !! j = Some part ->
          exists vsj, entries (snd (fst run))
                        !! docs_segment_key (PString "doc1") (PNumber (Z.of_nat j))
                      = Some (StoredString part, vsj))) /\
  (let run := counters_set 0 (Some (PString "doc1")) 5 None false empty_docs in
   fst (fst run) = Normal (CommitOk (PString "doc1") 2%Z) /\
   number_stringify 5 = "5"%string /\
   entries (snd (fst run)) !! docs_segment_key (PString "doc1") (PNumber 0)
     = Some (StoredString "6", 1%Z) /\
   ~ (exists parts : list string,
        String.concat EmptyString parts = number_stringify 5 /\
        forall (j : nat) (part : string), parts !! j = Some part ->
          exists vsj, entries (snd (fst run))
                        !! docs_segment_key (PString "doc1") (PNumber (Z.of_nat j))
                      = Some (StoredString part, vsj))).
Proof.
  split; cbv zeta.
  - split; [vm_compute; reflexivity|]. split; [reflexivity|].
    split; [vm_compute; reflexivity|]. split; [vm_compute; reflexivity|].
    intros (parts & Hconcat & Hstored). destruct parts as [|part rest].
    + vm_compute in Hconcat. discriminate Hconcat.
    + destruct (Hstored 0 part eq_refl) as [vsj Hpart]. vm_compute in Hpart.
      inversion Hpart; subst part. vm_compute in Hconcat.
      destruct rest; discriminate Hconcat.
  - split; [vm_compute; reflexivity|].
    split; [vm_compute; reflexivity|]. split; [vm_compute; reflexivity|].
    intros (parts & Hconcat & Hstored). destruct parts as [|part rest].
    + vm_compute in Hconcat. discriminate Hconcat.
    + destruct (Hstored 0 part eq_refl) as [vsj Hpart]. vm_compute in Hpart.
      inversion Hpart; subst part. vm_compute in Hconcat.
      destruct rest; discriminate Hconcat.
Qed.

End Witnesses.

(** * Further properties of the builder *)

Module BuilderLaws.
Import AtomicBuilder BuilderCalls BuilderFacts BuilderBatches.

Section Laws.
Context {TSchema : Type}.
Variable getDocumentId : KvKey -> option KvId.

Local Abbreviation call := (call getDocumentId).
Local Abbreviation chain := (chain getDocumentId).

Lemma chain_app cs1 cs2 (b : AtomicBuilder TSchema) :
  chain (cs1 ++ cs2) b = chain cs2 (chain cs1 b).
Proof. apply fold_left_app. Qed.

Lemma chain_cons x cs (b : AtomicBuilder TSchema) :
  chain (x :: cs) b = chain cs (call b x).
Proof. reflexivity. Qed.

Lemma chain_read_only (sch : TSchema) c cs :
  Forall read_only (prepareDeleteFns (operations (chain cs (new sch c)))).
Proof. apply (grows_chain getDocumentId cs (new sch c)). constructor. Qed.

Lemma apply_sets_stamp {V} `{!KvCounter V} vs (frags : list (KvKey * V)) m m' k :
  apply_mutations vs m (map (fun e => MutSet (fst e) (snd e)) frags) = Some m' ->
  In k (map fst frags) \/ (exists v, m !! k = Some (v, vs)) ->
  exists v, m' !! k = Some (v, vs).
Proof.
  revert m. induction frags as [|e rest IH]; intros m Happly Hk.
  - simpl in Happly. inversion Happly; subst. by destruct Hk as [[]|].
  - simpl in Happly. apply (IH _ Happly).
    destruct (List.in_dec (fun x y => decide (x = y)) k (map fst rest)) as [|Hnot];
      [by left|right].
    destruct (decide (k = fst e)) as [->|Hne].
    + exists (snd e). apply lookup_insert_eq.
    + rewrite lookup_insert_ne by done.
      destruct Hk as [[Hk|Hk]|Hk]; [by subst|done|done].
Qed.

Lemma mapM_commit_total {V} `{!KvCounter V} (ops : list (AtomicOperation V)) s :
  exists crs s' t, mapM kv_commit ops s = (Normal crs, s', t).
Proof.
  revert s. induction ops as [|op ops IH]; intros s; simpl.
  - unfold ret. eauto.
  - unfold bind at 1. unfold kv_commit at 1.
    destruct (commit_step op s) as [cr s1].
    destruct (IH s1) as (crs & s' & t & Hrest).
    unfold bind at 1. rewrite Hrest. unfold ret. eauto.
Qed.

(** Without overlap [commit] runs the prepare closures, commits the main
    batch and, when that is ok, the cleanup batches. *)
Lemma commit_run (b : AtomicBuilder TSchema) s :
  Forall read_only (prepareDeleteFns (operations b)) ->
  overlapping (operations b) = false ->
  let batch := batch_from atomic (operations b) in
  let cr := fst (commit_step batch s) in
  let s1 := snd (commit_step batch s) in
  exists prepared reads s' cleanups,
    mapM (fun fn => fn) (prepareDeleteFns (operations b)) s = (Normal prepared, s, reads) /\
    commit b s = (Normal cr, s', reads ++ mkEvent (OpCommit batch cr) s1 :: cleanups) /\
    (cr = KvCommitError -> s' = s1 /\ cleanups = []) /\
    (forall crs s2 t, mapM (fun p => kv_commit (index_cleanup p)) prepared s1
                      = (Normal crs, s2, t) ->
       commit_ok cr = true -> s' = s2 /\ cleanups = t).
Proof.
  intros Hro Hov batch cr s1. unfold commit. rewrite Hov.
  destruct (mapM_read_only _ s Hro) as (prepared & reads & Hl).
  exists prepared, reads.
  unfold bind at 1. rewrite Hl.
  unfold bind at 1. unfold kv_commit at 1.
  fold (batch_from atomic (operations b)). fold batch.
  subst cr s1. destruct (commit_step batch s) as [cr s1]. cbn [fst snd].
  destruct cr as [vs|]; cbn [commit_ok].
  - destruct (mapM_commit_total (map index_cleanup prepared) s1) as (crs & s2 & t & Hc).
    assert (Hc' : mapM (fun p => kv_commit (index_cleanup p)) prepared s1 = (Normal crs, s2, t)).
    { clear -Hc. revert s1 crs s2 t Hc.
      induction prepared as [|p ps IH]; intros s1 crs s2 t Hc; [done|].
      simpl in *. unfold bind at 1. unfold bind at 1 in Hc.
      destruct (kv_commit (index_cleanup p) s1) as [[c sa] ta].
      destruct c; [|done|done].
      unfold bind at 1. unfold bind at 1 in Hc.
      destruct (mapM kv_commit (map index_cleanup ps) sa) as [[c' sb] tb] eqn:Hps.
      rewrite (IH sa match c' with Normal l => l | _ => [] end sb tb).
      - destruct c'; done.
      - destruct c'; [done| |].
        + destruct (mapM_commit_total (map index_cleanup ps) sa) as (?&?&?&?); congruence.
        + destruct (mapM_commit_total (map index_cleanup ps) sa) as (?&?&?&?); congruence. }
    unfold bind at 1. unfold bind at 1. rewrite Hc'. unfold ret. cbn.
    exists s2, t. rewrite !app_nil_r. split; [done|]. split; [done|].
    split; [done|]. intros crs' s2' t' Heq _. by inversion Heq.
  - unfold bind, ret. cbn. exists s1, []. split; [done|]. split; [done|].
    split; [done|]. done.
Qed.

(** X1 (atomicity of [commit]).  Whatever calls were chained on a new
    builder, when [commit] answers `{ok:false}` the entries and the clock
    of the store are those before the commit: nothing of the batch was
    written and no index entry was cleaned up. *)
Theorem commit_all_or_nothing (sch : TSchema) (c : Collection) (cs : list Call)
    (s s' : Kv KvValue) (t : list (Event KvValue)) :
  commit (chain cs (new sch c)) s = (Normal KvCommitError, s', t) ->
  entries s' = entries s /\ clock s' = clock s.
Proof.
  intros Hcommit.
  destruct (overlapping (operations (chain cs (new sch c)))) eqn:Hov.
  - unfold commit in Hcommit. rewrite Hov in Hcommit. by inversion Hcommit.
  - destruct (commit_run (chain cs (new sch c)) s (chain_read_only sch c cs) Hov)
      as (prepared & reads & s1 & cleanups & Hreads & Hrun & Herr & _).
    rewrite Hrun in Hcommit. inversion Hcommit as [[Hcr Hs Ht]].
    destruct (Herr Hcr) as [Hs1 _]. rewrite <- Hs, Hs1.
    destruct (commit_step _ s) as [cr s2] eqn:Hstep. cbn [fst snd] in *. subst cr.
    split; [by eapply commit_step_error_entries|by eapply commit_step_error_clock].
Qed.

(** *** Chains of [add] and [set] *)

Lemma insert_keeps_deletes how id value (b : AtomicBuilder TSchema) :
  indexDeleteCollectionKeys (operations (call b (insert_call how id value)))
    = indexDeleteCollectionKeys (operations b) /\
  prepareDeleteFns (operations (call b (insert_call how id value)))
    = prepareDeleteFns (operations b) /\
  schema (call b (insert_call how id value)) = schema b /\
  collection (call b (insert_call how id value)) = collection b.
Proof.
  destruct how; simpl; unfold add, set; simpl;
    destruct (indexable (collection b)) as [ix|]; simpl; try done.
  all: match goal with
       | |- context [fold_left (add_secondary_index ?ix ?id ?d ?v) ?l2 (fold_left _ ?l1 ?o)] =>
           destruct (fold_secondary_keys ix id d v l2
                       (fold_left (add_primary_index ix id d) l1 o)) as (_ & H2 & H3);
           destruct (fold_primary_keys ix id d l1 o) as (_ & H5 & H6)
       end; simpl in *; by rewrite H2, H3, H5, H6.
Qed.

Lemma inserts_only_chain (cs : list Call) (b : AtomicBuilder TSchema) op :
  inserts_only cs ->
  batch_from op (operations (chain cs b))
    = enqueue (chain_fragments (schema b) (collection b) cs) (batch_from op (operations b)) /\
  indexDeleteCollectionKeys (operations (chain cs b))
    = indexDeleteCollectionKeys (operations b) /\
  prepareDeleteFns (operations (chain cs b)) = prepareDeleteFns (operations b).
Proof.
  intros Hcs. revert b. induction Hcs as [|x cs Hx _ IH]; intros b.
  - simpl. by rewrite enqueue_nil.
  - rewrite chain_cons. destruct (IH (call b x)) as (Hb & Hd & Hp).
    rewrite Hb, Hd, Hp. clear IH Hb Hd Hp.
    destruct x as [selector|id data|id data| | | |]; try done.
    + destruct (insert_keeps_deletes ViaAdd id data b) as (Hd & Hp & Hs & Hc).
      cbn [insert_call] in *. rewrite Hd, Hp, Hs, Hc.
      pose proof (insert_batch getDocumentId ViaAdd id data b op) as Hib.
      cbn [insert_call] in Hib. rewrite Hib.
      cbn [chain_fragments]. by rewrite enqueue_app.
    + destruct (insert_keeps_deletes ViaSet id data b) as (Hd & Hp & Hs & Hc).
      cbn [insert_call] in *. rewrite Hd, Hp, Hs, Hc.
      pose proof (insert_batch getDocumentId ViaSet id data b op) as Hib.
      cbn [insert_call] in Hib. rewrite Hib.
      cbn [chain_fragments]. by rewrite enqueue_app.
Qed.

Lemma overlapping_no_deletes ops :
  indexDeleteCollectionKeys ops = [] -> overlapping ops = false.
Proof.
  intros H. unfold overlapping. rewrite H.
  induction (indexAddCollectionKeys ops); simpl; auto.
Qed.

(** A builder without prepare closures and without index deletes makes
    one store call: the commit of its batch. *)
Lemma commit_one_call (b : AtomicBuilder TSchema) s :
  prepareDeleteFns (operations b) = [] ->
  indexDeleteCollectionKeys (operations b) = [] ->
  let batch := batch_from atomic (operations b) in
  commit b s = (Normal (fst (commit_step batch s)), snd (commit_step batch s),
                [mkEvent (OpCommit batch (fst (commit_step batch s)))
                   (snd (commit_step batch s))]).
Proof.
  intros Hp Hd batch. unfold commit.
  rewrite (overlapping_no_deletes _ Hd), Hp.
  fold (batch_from atomic (operations b)). fold batch.
  simpl. unfold bind, ret, kv_commit. simpl.
  destruct (commit_step batch s) as [cr s']. simpl.
  by destruct cr.
Qed.

(** X3 (several documents in one commit).  A chain of [add], [set] and
    [select] calls on a new builder makes one store call, the commit of
    the fragments of all its documents.  The commit is ok exactly when the
    store does not refuse it and none of the fragment keys holds an entry;
    then every fragment key holds an entry with the versionstamp of the
    commit, and (the keys being distinct) the value of its fragment.  When
    it is not ok no document of the chain was written. *)
Theorem commit_inserts (sch : TSchema) (c : Collection) (cs : list Call)
    (s : Kv KvValue) :
  inserts_only cs ->
  let fragments := chain_fragments sch c cs in
  let batch := enqueue fragments atomic in
  exists cr s',
    commit (chain cs (new sch c)) s = (Normal cr, s', [mkEvent (OpCommit batch cr) s']) /\
    (commit_ok cr = true <->
       refused s = false /\ forall e, In e fragments -> entries s !! fst e = None) /\
    (commit_ok cr = false -> entries s' = entries s) /\
    (commit_ok cr = true ->
       (forall k, ~ In k (map fst fragments) -> entries s' !! k = entries s !! k) /\
       (forall e, In e fragments -> exists v, entries s' !! fst e = Some (v, clock s)) /\
       (NoDup (map fst fragments) ->
          forall e, In e fragments -> entries s' !! fst e = Some (snd e, clock s))).
Proof.
  intros Hcs fragments batch.
  destruct (inserts_only_chain cs (new sch c) atomic Hcs) as (Hb & Hd & Hp).
  cbn [new operations schema collection indexDeleteCollectionKeys prepareDeleteFns] in Hb, Hd, Hp.
  change (batch_from atomic (mkOperations [] [] [] [])) with (@atomic KvValue) in Hb.
  fold fragments in Hb. fold batch in Hb.
  rewrite (commit_one_call _ s Hp Hd). rewrite Hb.
  exists (fst (commit_step batch s)), (snd (commit_step batch s)).
  split; [done|].
  unfold commit_step, batch, enqueue. cbn [checks mutations atomic app].
  destruct (refused s) eqn:Href.
  { cbn [fst snd commit_ok entries]. split; [split; [done|by intros [? _]]|].
    split; [done|done]. }
  destruct (apply_sets_result (clock s) fragments (entries s)) as (m' & Hm' & Hother & Hdup).
  destruct (forallb _ _) eqn:Hall.
  - rewrite Hm'. cbn [fst snd commit_ok entries].
    split; [split; [|done]|].
    { intros _. split; [done|]. by apply (forallb_checks_absent (entries s) fragments). }
    split; [done|]. intros _. split; [exact Hother|]. split; [|exact Hdup].
    intros e He. apply (apply_sets_stamp _ _ _ _ _ Hm'). left. by apply in_map.
  - cbn [fst snd commit_ok entries]. split; [split; [done|]|done].
    intros [_ Habs]. apply (forallb_checks_absent (entries s) fragments) in Habs. congruence.
Qed.

Lemma secondary_entries_in ix id data value l f x :
  In f l -> index_value data f = Some x ->
  In (secondaryIndexKey ix f x id, value) (secondary_entries ix id data value l).
Proof.
  intros Hf Hx. unfold secondary_entries.
  apply list_elem_of_In, list_elem_of_omap. exists f.
  split; [by apply list_elem_of_In|]. by rewrite Hx.
Qed.

Lemma inserted_secondary c ix id value f x :
  indexable c = Some ix -> In f (secondaryIndexList ix) ->
  index_value (as_Model value) f = Some x ->
  In (secondaryIndexKey ix f x id, value) (inserted c id value).
Proof.
  intros Hix Hf Hx. unfold inserted. rewrite Hix. right.
  unfold index_entries. apply in_or_app. right. by apply secondary_entries_in.
Qed.

(** X4 (what a committed [add] or [set] stores).  On a store
    that does not refuse the batch and has the keys of the document free
    (the keys being distinct), the commit of a new builder with one [add]
    or [set] is ok and afterwards the id-key holds the document, the
    primary index key of every defined primary index field holds the
    document with `__id__` set to the id (an object whose property
    `__id__` is the id and whose other properties are those of the
    document), the secondary index key of every
    defined secondary index field holds the document, all with the
    versionstamp of the commit, and every other key is as before. *)
Theorem commit_stores_document (sch : TSchema) (c : Collection) (how : Insert)
    (id : KvId) (value : KvValue) (s : Kv KvValue) :
  refused s = false ->
  (forall e, In e (inserted c id value) -> entries s !! fst e = None) ->
  NoDup (map fst (inserted c id value)) ->
  exists s' t,
    commit (call (new sch c) (insert_call how id value)) s
      = (Normal (KvCommitResult (clock s)), s', t) /\
    entries s' !! extendKey (collectionIdKey c) [id] = Some (value, clock s) /\
    (forall ix f x, indexable c = Some ix -> In f (primaryIndexList ix) ->
       index_value (as_Model value) f = Some x ->
       exists augmented : Model,
         entries s' !! primaryIndexKey ix f x = Some (VObject augmented, clock s) /\
         get_property augmented "__id__" = Some (VPart id) /\
         forall name, name <> "__id__"%string ->
           get_property augmented name = get_property (as_Model value) name) /\
    (forall ix f x, indexable c = Some ix -> In f (secondaryIndexList ix) ->
       index_value (as_Model value) f = Some x ->
       entries s' !! secondaryIndexKey ix f x id = Some (value, clock s)) /\
    (forall k, ~ In k (map fst (inserted c id value)) -> entries s' !! k = entries s !! k).
Proof.
  intros Href Hfree Hdup. rewrite commit_single_insert.
  unfold commit_step, enqueue. cbn [checks mutations atomic app]. rewrite Href.
  destruct (apply_sets_result (clock s) (inserted c id value) (entries s))
    as (m' & Hm' & Hother & Hset).
  rewrite (proj2 (forallb_checks_absent (entries s) (inserted c id value)) Hfree), Hm'.
  cbn [fst snd entries]. eexists _, _. split; [reflexivity|]. cbn [entries].
  split; [|split; [|split]].
  - apply (Hset Hdup (extendKey (collectionIdKey c) [id], value)). by left.
  - intros ix f x Hix Hf Hx.
    destruct (IndexDataEntry_properties (as_Model value) id)
      as (augmented & Hentry & Hid & Hothers).
    exists augmented. split; [|by split]. rewrite <- Hentry.
    apply (Hset Hdup (primaryIndexKey ix f x, IndexDataEntry (as_Model value) id)).
    by apply inserted_primary.
  - intros ix f x Hix Hf Hx.
    apply (Hset Hdup (secondaryIndexKey ix f x id, value)).
    by apply inserted_secondary.
  - exact Hother.
Qed.

(** *** Collections without indexes *)

Lemma fold_mutate_each_plain c muts ops :
  indexable c = None ->
  let ops' := fold_left (mutate_each getDocumentId c) muts ops in
  indexDeleteCollectionKeys ops' = indexDeleteCollectionKeys ops /\
  indexAddCollectionKeys ops' = indexAddCollectionKeys ops /\
  prepareDeleteFns ops' = prepareDeleteFns ops.
Proof.
  intros Hc. revert ops. induction muts as [|mut muts IH]; intros ops; [done|].
  simpl. destruct (IH (mutate_each getDocumentId c ops mut)) as (H1 & H2 & H3).
  rewrite H1, H2, H3. unfold mutate_each. rewrite Hc. by destruct mut.
Qed.

Lemma plain_call (b : AtomicBuilder TSchema) x :
  indexable (collection b) = None ->
  (forall selector, x = CallSelect selector -> indexable (selector (schema b)) = None) ->
  indexable (collection (call b x)) = None /\
  schema (call b x) = schema b /\
  indexDeleteCollectionKeys (operations (call b x))
    = indexDeleteCollectionKeys (operations b) /\
  prepareDeleteFns (operations (call b x)) = prepareDeleteFns (operations b).
Proof.
  intros Hc Hsel. destruct x as [selector|id data|id data|id|cks|id n|muts]; simpl.
  - split; [by apply Hsel|done].
  - unfold add. rewrite Hc. done.
  - unfold set. rewrite Hc. done.
  - unfold delete. rewrite Hc. done.
  - done.
  - done.
  - unfold mutate. cbn [collection schema operations].
    match goal with
    | |- context [fold_left (mutate_each _ ?c) ?muts ?ops] =>
        destruct (fold_mutate_each_plain c muts ops Hc) as (H1 & _ & H3)
    end.
    cbv zeta in H1, H3. rewrite H1, H3. done.
Qed.

Lemma plain_chain (b : AtomicBuilder TSchema) cs :
  indexable (collection b) = None ->
  plain (schema b) cs ->
  indexDeleteCollectionKeys (operations (chain cs b))
    = indexDeleteCollectionKeys (operations b) /\
  prepareDeleteFns (operations (chain cs b)) = prepareDeleteFns (operations b).
Proof.
  revert b. induction cs as [|x cs IH]; intros b Hc Hplain; [done|].
  rewrite chain_cons.
  destruct (plain_call b x Hc) as (Hc' & Hs & Hd & Hp).
  { intros selector ->. apply Hplain. by left. }
  destruct (IH (call b x) Hc') as (Hd' & Hp').
  { rewrite Hs. intros selector Hin. apply Hplain. by right. }
  by rewrite Hd', Hp', Hd, Hp.
Qed.

(** X7 (without indexes, one store call).  When the
    collection of a new builder is not indexable and no [select] of the
    chain selects an indexable one, [commit] never rejects the chain up
    front, reads nothing and cleans nothing up: its only store call is the
    commit of the batch, and its answer is the answer of the store. *)
Theorem plain_commit_one_call (sch : TSchema) (c : Collection) (cs : list Call)
    (s : Kv KvValue) :
  indexable c = None ->
  plain sch cs ->
  let batch := batch_from atomic (operations (chain cs (new sch c))) in
  commit (chain cs (new sch c)) s
    = (Normal (fst (commit_step batch s)), snd (commit_step batch s),
       [mkEvent (OpCommit batch (fst (commit_step batch s))) (snd (commit_step batch s))]).
Proof.
  intros Hc Hplain batch.
  destruct (plain_chain (new sch c) cs Hc Hplain) as [Hd Hp].
  by apply commit_one_call.
Qed.

(** *** Checks that a chain puts in the batch *)

Lemma grows_checks ops ops' op c :
  grows ops ops' ->
  In c (checks (batch_from op ops)) -> In c (checks (batch_from op ops')).
Proof.
  intros [(extra & Hfns & Happ) _] Hin. unfold batch_from. rewrite Hfns, fold_left_app.
  by apply (fold_appending extra _ Happ).
Qed.

Lemma mutate_each_set_grows c ops key value :
  grows (push_atomicFn (fun op => op_check [mkCheck key None] op) ops)
        (mutate_each getDocumentId c ops (MutSet key value)).
Proof.
  unfold mutate_each. destruct (indexable c) as [ix|]; [|apply grows_refl].
  destruct (getDocumentId key) as [id|]; [|apply grows_refl].
  eapply grows_trans; [apply grows_push_add|apply grows_index_fragments].
Qed.

Lemma fold_mutate_each_check c muts ops op key value :
  In (MutSet key value) muts ->
  In (mkCheck key None)
     (checks (batch_from op (fold_left (mutate_each getDocumentId c) muts ops))).
Proof.
  revert ops. induction muts as [|mut muts IH]; intros ops Hin; [done|].
  destruct Hin as [->|Hin]; [|by apply IH].
  simpl. eapply grows_checks.
  - apply grows_fold. intros. apply grows_mutate_each.
  - eapply grows_checks; [apply mutate_each_set_grows|].
    rewrite batch_from_push. simpl. apply in_or_app. right. by left.
Qed.

Lemma write_check (b : AtomicBuilder TSchema) w id op :
  writes_id w id ->
  In (mkCheck (extendKey (collectionIdKey (collection b)) [id]) None)
     (checks (batch_from op (operations (call b w)))).
Proof.
  intros Hw. destruct w as [|id' data|id' data| | | |muts]; try done.
  - simpl in Hw. subst id'.
    pose proof (insert_batch getDocumentId ViaAdd id data b op) as Hb.
    cbn [insert_call] in Hb. rewrite Hb.
    apply (enqueue_in _ _ (extendKey (collectionIdKey (collection b)) [id], data)).
    by left.
  - simpl in Hw. subst id'.
    pose proof (insert_batch getDocumentId ViaSet id data b op) as Hb.
    cbn [insert_call] in Hb. rewrite Hb.
    apply (enqueue_in _ _ (extendKey (collectionIdKey (collection b)) [id], data)).
    by left.
  - destruct Hw as [value Hin]. simpl. unfold mutate. cbn [operations].
    apply (fold_mutate_each_check _ _ _ _ _ value).
    apply in_map_iff. exists (MutateSet id value). by split.
Qed.

Lemma check_call_check (b : AtomicBuilder TSchema) cks id vs op :
  In (id, vs) cks ->
  In (mkCheck (extendKey (collectionIdKey (collection b)) [id]) vs)
     (checks (batch_from op (operations (call b (CallCheck cks))))).
Proof.
  intros Hin. simpl. unfold check. cbn [operations]. rewrite batch_from_push.
  simpl. apply in_or_app. right.
  apply in_map_iff. exists (id, vs). by split.
Qed.

Lemma chain_check_stays (b : AtomicBuilder TSchema) cs op c :
  In c (checks (batch_from op (operations b))) ->
  In c (checks (batch_from op (operations (chain cs b)))).
Proof. apply grows_checks, grows_chain. Qed.

(** X5 (no overwrite).  When the id-key of a
    document holds an entry, every chain on a new builder that has an
    [add] or [set] of that id, or a [mutate] with a set of that id, in the
    collection of the document fails to commit, whatever else the chain
    holds (a delete of the same id before it, a check of its
    versionstamp): the answer is `{ok:false}` and the entries and the clock
    of the store are as before. *)
Theorem write_never_overwrites (sch : TSchema) (c : Collection)
    (before after : list Call) (w : Call) (id : KvId) (s : Kv KvValue) :
  writes_id w id ->
  is_Some (entries s !!
    extendKey (collectionIdKey (collection (chain before (new sch c)))) [id]) ->
  exists s' t,
    commit (chain (before ++ w :: after) (new sch c)) s = (Normal KvCommitError, s', t) /\
    entries s' = entries s /\ clock s' = clock s.
Proof.
  intros Hw Htaken.
  apply (commit_failing_check _ s
    (mkCheck (extendKey (collectionIdKey (collection (chain before (new sch c)))) [id])
       None)).
  - apply chain_read_only.
  - rewrite chain_app, chain_cons. apply chain_check_stays. by apply write_check.
  - by apply check_absent_fails.
Qed.

(** X6 (a check excludes a write).  A
    chain that holds a [check] of document [id] against a versionstamp and
    an [add], [set] or [mutate]-set of the same id in the same collection
    can never commit: on every store the answer is `{ok:false}` and the
    entries are as before (the write wants the id-key free, the check wants
    it taken). *)
Theorem check_excludes_write (sch : TSchema) (c : Collection)
    (pre1 post1 pre2 post2 : list Call) (cks : list (KvId * option Versionstamp))
    (w : Call) (id : KvId) (vs : Versionstamp) (s : Kv KvValue) :
  pre1 ++ CallCheck cks :: post1 = pre2 ++ w :: post2 ->
  In (id, Some vs) cks ->
  writes_id w id ->
  collectionIdKey (collection (chain pre1 (new sch c)))
    = collectionIdKey (collection (chain pre2 (new sch c))) ->
  exists s' t,
    commit (chain (pre1 ++ CallCheck cks :: post1) (new sch c)) s
      = (Normal KvCommitError, s', t) /\
    entries s' = entries s /\ clock s' = clock s.
Proof.
  intros Hcs Hin Hw Hkey.
  set (k := extendKey (collectionIdKey (collection (chain pre1 (new sch c)))) [id]).
  destruct (entries s !! k) as [[v vs']|] eqn:Hk.
  - apply (commit_failing_check _ s (mkCheck k None)).
    + apply chain_read_only.
    + rewrite Hcs, chain_app, chain_cons. apply chain_check_stays.
      unfold k. rewrite Hkey. by apply write_check.
    + apply check_absent_fails. by rewrite Hk.
  - apply (commit_failing_check _ s (mkCheck k (Some vs))).
    + apply chain_read_only.
    + rewrite chain_app, chain_cons. apply chain_check_stays.
      by apply check_call_check.
    + unfold check_passes. cbn [check_key check_versionstamp]. by rewrite Hk.
Qed.

(** *** Where the index keys of a chain come from *)

Ltac fragment_keys :=
  match goal with
  | |- context [fold_left (add_secondary_index ?ix ?id ?d ?v) _ (fold_left _ _ ?o)] =>
      let H1 := fresh in let H2 := fresh in
      destruct (index_fragments_keys ix id d v o) as [H1 H2];
      simpl in H1, H2; rewrite ?H1, ?H2; clear H1 H2
  end.


Lemma mutate_each_keys c ops mut k :
  let ops' := mutate_each getDocumentId c ops mut in
  (In k (indexAddCollectionKeys ops') ->
     In k (indexAddCollectionKeys ops) \/
     (is_Some (indexable c) /\ k = collectionIdKey c /\
      exists key value, mut = MutSet key value /\ is_Some (getDocumentId key))) /\
  (In k (indexDeleteCollectionKeys ops') ->
     In k (indexDeleteCollectionKeys ops) \/
     (is_Some (indexable c) /\ k = collectionIdKey c /\
      exists key, mut = MutDelete key /\ is_Some (getDocumentId key))).
Proof.
  unfold mutate_each.
  destruct (indexable c) as [ix|] eqn:Hix; [|destruct mut; simpl; auto].
  destruct mut as [key value|key|key n]; simpl;
    (destruct (getDocumentId key) as [id|] eqn:Hid; [|simpl; auto]).
  - fragment_keys. simpl. split; [|auto].
    intros Hin. apply in_app_or in Hin as [Hin|[<-|[]]]; [by left|right].
    split; [done|]. split; [done|]. exists key, value. by rewrite Hid.
  - simpl. split; [auto|].
    intros Hin. apply in_app_or in Hin as [Hin|[<-|[]]]; [by left|right].
    split; [done|]. split; [done|]. exists key. by rewrite Hid.
  - auto.
Qed.

Lemma fold_mutate_each_keys c muts ops k :
  let ops' := fold_left (mutate_each getDocumentId c) muts ops in
  (In k (indexAddCollectionKeys ops') ->
     In k (indexAddCollectionKeys ops) \/
     (is_Some (indexable c) /\ k = collectionIdKey c /\
      exists key value, In (MutSet key value) muts /\ is_Some (getDocumentId key))) /\
  (In k (indexDeleteCollectionKeys ops') ->
     In k (indexDeleteCollectionKeys ops) \/
     (is_Some (indexable c) /\ k = collectionIdKey c /\
      exists key, In (MutDelete key) muts /\ is_Some (getDocumentId key))).
Proof.
  revert ops. induction muts as [|mut muts IH]; intros ops; [simpl; auto|].
  simpl. destruct (IH (mutate_each getDocumentId c ops mut)) as [IHa IHd].
  destruct (mutate_each_keys c ops mut k) as [Ha Hd]. cbv zeta in *.
  split; intros Hin.
  - destruct (IHa Hin) as [H|(Hc & Hk & key & value & Hm & Hid)].
    + destruct (Ha H) as [?|(Hc & Hk & key & value & -> & Hid)]; [by left|right].
      split; [done|]. split; [done|]. exists key, value. split; [by left|done].
    + right. split; [done|]. split; [done|]. exists key, value. split; [by right|done].
  - destruct (IHd Hin) as [H|(Hc & Hk & key & Hm & Hid)].
    + destruct (Hd H) as [?|(Hc & Hk & key & -> & Hid)]; [by left|right].
      split; [done|]. split; [done|]. exists key. split; [by left|done].
    + right. split; [done|]. split; [done|]. exists key. split; [by right|done].
Qed.

Lemma call_keys (b : AtomicBuilder TSchema) x k :
  (In k (indexAddCollectionKeys (operations (call b x))) ->
     In k (indexAddCollectionKeys (operations b)) \/
     (adds_index getDocumentId b x /\ k = collectionIdKey (collection b))) /\
  (In k (indexDeleteCollectionKeys (operations (call b x))) ->
     In k (indexDeleteCollectionKeys (operations b)) \/
     (deletes_index getDocumentId b x /\ k = collectionIdKey (collection b))).
Proof.
  destruct x as [selector|id data|id data|id|cks|id n|muts]; simpl.
  - auto.
  - unfold add. destruct (indexable (collection b)) as [ix|] eqn:Hix; simpl; [|auto].
    fragment_keys. simpl. split; [|auto].
    intros Hin. apply in_app_or in Hin as [Hin|[<-|[]]]; [by left|right].
    split; [|done]. split; [by rewrite Hix|done].
  - unfold set. destruct (indexable (collection b)) as [ix|] eqn:Hix; simpl; [|auto].
    fragment_keys. simpl. split; [|auto].
    intros Hin. apply in_app_or in Hin as [Hin|[<-|[]]]; [by left|right].
    split; [|done]. split; [by rewrite Hix|done].
  - unfold delete. destruct (indexable (collection b)) as [ix|] eqn:Hix; simpl; [|auto].
    split; [auto|].
    intros Hin. apply in_app_or in Hin as [Hin|[<-|[]]]; [by left|right].
    split; [|done]. split; [by rewrite Hix|done].
  - auto.
  - auto.
  - unfold mutate. cbn [operations].
    match goal with
    | |- context [fold_left (mutate_each _ ?c) ?ms ?ops] =>
        destruct (fold_mutate_each_keys c ms ops k) as [Ha Hd]
    end.
    cbv zeta in Ha, Hd. split; intros Hin.
    + destruct (Ha Hin) as [H|(Hc & -> & key & value & Hm & Hid)]; [by left|right].
      split; [|done]. split; [done|].
      apply in_map_iff in Hm as (m & Hm & Hmin).
      destruct m as [id v|id|id n]; inversion Hm; subst. by exists id, value.
    + destruct (Hd Hin) as [H|(Hc & -> & key & Hm & Hid)]; [by left|right].
      split; [|done]. split; [done|].
      apply in_map_iff in Hm as (m & Hm & Hmin).
      destruct m as [id v|id|id n]; inversion Hm; subst. by exists id.
Qed.

Lemma chain_keys cs (b : AtomicBuilder TSchema) k :
  (In k (indexAddCollectionKeys (operations (chain cs b))) ->
     In k (indexAddCollectionKeys (operations b)) \/
     exists pre a post, cs = pre ++ a :: post /\
       adds_index getDocumentId (chain pre b) a /\
       k = collectionIdKey (collection (chain pre b))) /\
  (In k (indexDeleteCollectionKeys (operations (chain cs b))) ->
     In k (indexDeleteCollectionKeys (operations b)) \/
     exists pre d post, cs = pre ++ d :: post /\
       deletes_index getDocumentId (chain pre b) d /\
       k = collectionIdKey (collection (chain pre b))).
Proof.
  revert b. induction cs as [|x cs IH]; intros b; [simpl; auto|].
  rewrite chain_cons. destruct (IH (call b x)) as [IHa IHd].
  destruct (call_keys b x k) as [Ha Hd].
  split; intros Hin.
  - destruct (IHa Hin) as [H|(pre & a & post & -> & Hadd & Hk)].
    + destruct (Ha H) as [?|[Hadd Hk]]; [by left|right].
      by exists [], x, cs.
    + right. by exists (x :: pre), a, post.
  - destruct (IHd Hin) as [H|(pre & d & post & -> & Hdel & Hk)].
    + destruct (Hd H) as [?|[Hdel Hk]]; [by left|right].
      by exists [], x, cs.
    + right. by exists (x :: pre), d, post.
Qed.

(** X2 (the overlap test is exact).  [commit]
    answers `{ok:false}` without any store call if and only if the chain
    has a call that adds index entries and a call that deletes index
    entries on indexable collections with the same id-key prefix; in every
    other case the batch is handed to the store. *)
Theorem overlap_exact (sch : TSchema) (c : Collection) (cs : list Call)
    (s : Kv KvValue) :
  commit (chain cs (new sch c)) s = (Normal KvCommitError, s, []) <->
  exists pre1 a post1 pre2 d post2,
    cs = pre1 ++ a :: post1 /\ cs = pre2 ++ d :: post2 /\
    adds_index getDocumentId (chain pre1 (new sch c)) a /\
    deletes_index getDocumentId (chain pre2 (new sch c)) d /\
    collectionIdKey (collection (chain pre1 (new sch c)))
      = collectionIdKey (collection (chain pre2 (new sch c))).
Proof.
  split.
  - intros Hrun.
    destruct (overlapping (operations (chain cs (new sch c)))) eqn:Hov.
    + unfold overlapping in Hov.
      apply existsb_exists in Hov as (addKey & Hadd & Hov).
      apply existsb_exists in Hov as (deleteKey & Hdel & Heq).
      unfold keyEq in Heq. apply bool_decide_eq_true in Heq. subst deleteKey.
      destruct (chain_keys cs (new sch c) addKey) as [Ha Hd].
      destruct (Ha Hadd) as [[]|(pre1 & a & post1 & Hcs1 & Hadds & Hk1)].
      destruct (Hd Hdel) as [[]|(pre2 & d & post2 & Hcs2 & Hdels & Hk2)].
      exists pre1, a, post1, pre2, d, post2. by rewrite <- Hk1, <- Hk2.
    + destruct (commit_run (chain cs (new sch c)) s (chain_read_only sch c cs) Hov)
        as (prepared & reads & s' & cleanups & _ & Hrun' & _).
      rewrite Hrun in Hrun'. inversion Hrun' as [[Hcr Hs Ht]].
      by destruct reads.
  - intros (pre1 & a & post1 & pre2 & d & post2 & Hcs1 & Hcs2 & Hadds & Hdels & Hk).
    unfold commit.
    rewrite (overlapping_intro (operations (chain cs (new sch c)))
               (collectionIdKey (collection (chain pre1 (new sch c))))
               (collectionIdKey (collection (chain pre2 (new sch c))))); [done| | |].
    + rewrite Hcs1, chain_app, chain_cons.
      apply (chain_mono getDocumentId). by apply adds_index_marks.
    + rewrite Hcs2, chain_app, chain_cons.
      apply (chain_mono getDocumentId). by apply deletes_index_marks.
    + unfold keyEq. by apply bool_decide_eq_true.
Qed.

(** *** Deleting an indexed document *)

Lemma fold_cleanup (keyOf : string -> KvId -> KvKey) (data : Model) l (op : AtomicOp) :
  fold_left (fun atomic index =>
    match index_value data index with
    | None => atomic
    | Some indexValue => op_delete (keyOf index indexValue) atomic
    end) l op
  = mkAtomic (checks op)
      (mutations op ++
       map (fun k => MutDelete k) (omap (fun index => keyOf index <$> index_value data index) l)).
Proof.
  revert op. induction l as [|index l IH]; intros op.
  - simpl. rewrite app_nil_r. by destruct op.
  - simpl. rewrite IH. destruct (index_value data index) as [v|]; simpl; [|done].
    by rewrite <- app_assoc.
Qed.

Lemma omap_entry_keys {X} (keyOf : string -> KvId -> KvKey) (entryOf : X)
    (data : Model) l :
  map fst (omap (fun index =>
    match index_value data index with
    | Some indexValue => Some (keyOf index indexValue, entryOf)
    | None => None
    end) l)
  = omap (fun index => keyOf index <$> index_value data index) l.
Proof.
  induction l as [|index l IH]; [done|].
  simpl. destruct (index_value data index); simpl; [f_equal|]; exact IH.
Qed.

(** The cleanup batch of a prepared delete: the deletes of the index keys
    of the document that was read. *)
Lemma index_cleanup_deletes ix id value :
  index_cleanup (mkPrepared id (as_Model value)
    (primaryCollectionIndexKey ix) (secondaryCollectionIndexKey ix)
    (primaryIndexList ix) (secondaryIndexList ix))
  = deletes_of (index_keys ix id value).
Proof.
  unfold index_cleanup. cbn [prepared_id prepared_data prepared_primaryCollectionIndexKey
    prepared_secondaryCollectionIndexKey prepared_primaryIndexList
    prepared_secondaryIndexList].
  rewrite (fold_cleanup (fun index indexValue =>
    extendKey (primaryCollectionIndexKey ix) [PString index; indexValue])).
  rewrite (fold_cleanup (fun index indexValue =>
    extendKey (secondaryCollectionIndexKey ix) [PString index; indexValue; id])).
  unfold deletes_of, index_keys, index_entries, primary_entries, secondary_entries.
  cbn [checks mutations atomic app].
  rewrite map_app, map_app. unfold primaryIndexKey, secondaryIndexKey.
  rewrite (omap_entry_keys (fun index indexValue =>
    extendKey (primaryCollectionIndexKey ix) [PString index; indexValue])).
  by rewrite (omap_entry_keys (fun index indexValue =>
    extendKey (secondaryCollectionIndexKey ix) [PString index; indexValue; id])).
Qed.

Lemma foldl_delete_other {V} (keys : list KvKey) (m : gmap KvKey V) k :
  ~ In k keys -> foldl (fun m k => base.delete k m) m keys !! k = m !! k.
Proof.
  revert m. induction keys as [|k' keys IH]; intros m Hk; [done|].
  simpl. rewrite IH by (intros ?; apply Hk; by right).
  apply lookup_delete_ne. intros ->. apply Hk. by left.
Qed.

(** The run of a lone [delete] on an indexable collection whose document
    exists, on a store that refuses nothing. *)
Lemma commit_delete_run (sch : TSchema) c ix id value vs0 s :
  indexable c = Some ix ->
  entries s !! extendKey (collectionIdKey c) [id] = Some (value, vs0) ->
  refusals s = [] ->
  let idKey := extendKey (collectionIdKey c) [id] in
  let main := op_delete idKey atomic in
  let cleanup := deletes_of (index_keys ix id value) in
  let s1 := mkKv (base.delete idKey (entries s)) (clock s + 1)%Z [] in
  let s2 := mkKv (foldl (fun m k => base.delete k m) (base.delete idKey (entries s))
                    (index_keys ix id value)) (clock s + 1 + 1)%Z [] in
  commit (delete id (new sch c)) s
  = (Normal (KvCommitResult (clock s)), s2,
     [mkEvent (OpGet idKey) s;
      mkEvent (OpCommit main (KvCommitResult (clock s))) s1;
      mkEvent (OpCommit cleanup (KvCommitResult (clock s + 1)%Z)) s2]).
Proof.
  intros Hix Hentry Hrefusals idKey main cleanup s1 s2.
  set (prepared := mkPrepared id (as_Model value) (primaryCollectionIndexKey ix)
    (secondaryCollectionIndexKey ix) (primaryIndexList ix) (secondaryIndexList ix)).
  assert (Hprep : prepare_delete ix id idKey s
                  = (Normal prepared, s, [mkEvent (OpGet idKey) s])).
  { unfold prepare_delete, bind, kv_get, ret. fold idKey in Hentry. by rewrite Hentry. }
  assert (Hmain : commit_step main s = (KvCommitResult (clock s), s1)).
  { unfold commit_step, main, refused. rewrite Hrefusals. done. }
  assert (Hclean : commit_step (index_cleanup prepared) s1
                   = (KvCommitResult (clock s + 1)%Z, s2)).
  { unfold prepared. rewrite index_cleanup_deletes.
    unfold commit_step, deletes_of, refused. cbn [refusals s1 checks mutations forallb].
    rewrite apply_deletes. done. }
  unfold commit, delete. simpl. rewrite Hix. simpl.
  unfold bind at 1. unfold bind at 1.
  change (extendKey (collectionIdKey c) [id]) with idKey. rewrite Hprep.
  unfold ret at 1. unfold bind at 1. simpl.
  unfold bind at 1. unfold kv_commit at 1. fold main. rewrite Hmain.
  simpl. unfold bind, ret, kv_commit. rewrite Hclean.
  unfold prepared. by rewrite index_cleanup_deletes.
Qed.

Lemma index_keys_primary ix id value f x :
  In f (primaryIndexList ix) -> index_value (as_Model value) f = Some x ->
  In (primaryIndexKey ix f x) (index_keys ix id value).
Proof.
  intros Hf Hx. unfold index_keys, index_entries. rewrite map_app. apply in_or_app. left.
  apply in_map_iff. exists (primaryIndexKey ix f x, IndexDataEntry (as_Model value) id).
  split; [done|]. by apply primary_entries_in.
Qed.

Lemma index_keys_secondary ix id value f x :
  In f (secondaryIndexList ix) -> index_value (as_Model value) f = Some x ->
  In (secondaryIndexKey ix f x id) (index_keys ix id value).
Proof.
  intros Hf Hx. unfold index_keys, index_entries. rewrite map_app. apply in_or_app. right.
  apply in_map_iff. exists (secondaryIndexKey ix f x id, value).
  split; [done|]. by apply secondary_entries_in.
Qed.

(** X8 ([delete] cleans the indexes).  On a
    store that refuses nothing the commit of a new builder with one
    [delete] reads the document, commits the delete of the id-key and then
    commits the deletes of the index keys computed from the document that
    was read.  Afterwards the id-key, the primary index key of every
    defined primary index field and the secondary index key of every
    defined secondary index field hold nothing, and every other key is as
    before. *)
Theorem delete_cleans_indexes (sch : TSchema) (c : Collection) (ix : IndexKeys)
    (id : KvId) (value : KvValue) (vs0 : Versionstamp) (s : Kv KvValue) :
  indexable c = Some ix ->
  entries s !! extendKey (collectionIdKey c) [id] = Some (value, vs0) ->
  refusals s = [] ->
  let idKey := extendKey (collectionIdKey c) [id] in
  exists s' t,
    commit (delete id (new sch c)) s = (Normal (KvCommitResult (clock s)), s', t) /\
    map ev_op t =
      [OpGet idKey;
       OpCommit (op_delete idKey atomic) (KvCommitResult (clock s));
       OpCommit (deletes_of (index_keys ix id value)) (KvCommitResult (clock s + 1)%Z)] /\
    entries s' !! idKey = None /\
    (forall f x, In f (primaryIndexList ix) -> index_value (as_Model value) f = Some x ->
       entries s' !! primaryIndexKey ix f x = None) /\
    (forall f x, In f (secondaryIndexList ix) -> index_value (as_Model value) f = Some x ->
       entries s' !! secondaryIndexKey ix f x id = None) /\
    (forall k, k <> idKey -> ~ In k (index_keys ix id value) ->
       entries s' !! k = entries s !! k).
Proof.
  intros Hix Hentry Hrefusals idKey.
  rewrite (commit_delete_run sch c ix id value vs0 s Hix Hentry Hrefusals).
  eexists _, _. split; [reflexivity|]. split; [reflexivity|]. cbn [entries].
  subst idKey. split; [|split; [|split]].
  - match goal with
    | |- foldl ?f ?m ?keys !! ?k = None =>
        destruct (foldl_delete_weak keys m k) as [H|H]; [done|]
    end.
    rewrite H. apply lookup_delete_eq.
  - intros f x Hf Hx. apply foldl_delete_gone. by apply index_keys_primary.
  - intros f x Hf Hx. apply foldl_delete_gone. by apply index_keys_secondary.
  - intros k Hk Hnot. rewrite foldl_delete_other by done. by apply lookup_delete_ne.
Qed.

(** X9 (insert, then delete).  On a store that
    refuses nothing and has the keys of the document free, a committed
    [add] or [set] of a document followed by a committed [delete] of its
    id leaves the entries of the store exactly as they were before the
    insert: the id-key and every index entry of the document are gone and
    nothing else has changed.  (The id-key is assumed not to be one of the
    index keys of the document.) *)
Theorem insert_then_delete_restores (sch : TSchema) (c : Collection) (ix : IndexKeys)
    (how : Insert) (id : KvId) (value : KvValue) (s0 : Kv KvValue) :
  indexable c = Some ix ->
  refusals s0 = [] ->
  (forall e, In e (inserted c id value) -> entries s0 !! fst e = None) ->
  ~ In (extendKey (collectionIdKey c) [id]) (index_keys ix id value) ->
  exists s1 t1 s2 t2,
    commit (call (new sch c) (insert_call how id value)) s0
      = (Normal (KvCommitResult (clock s0)), s1, t1) /\
    commit (delete id (new sch c)) s1
      = (Normal (KvCommitResult (clock s0 + 1)%Z), s2, t2) /\
    entries s2 = entries s0.
Proof.
  intros Hix Hrefusals Hfree Hfresh.
  set (idKey := extendKey (collectionIdKey c) [id]) in *.
  assert (Hins : inserted c id value = (idKey, value) :: index_entries ix id value).
  { unfold inserted. by rewrite Hix. }
  rewrite commit_single_insert.
  unfold commit_step, enqueue, refused. cbn [checks mutations atomic app]. rewrite Hrefusals.
  rewrite (proj2 (forallb_checks_absent (entries s0) (inserted c id value)) Hfree).
  rewrite Hins. cbn [map apply_mutations apply_mutation fst snd].
  destruct (apply_sets_result (clock s0) (index_entries ix id value)
              (<[idKey := (value, clock s0)]> (entries s0))) as (m' & Hm' & Hother & _).
  rewrite Hm'. cbn [fst snd tail].
  assert (Hid : m' !! idKey = Some (value, clock s0)).
  { rewrite Hother by done. apply lookup_insert_eq. }
  set (s1 := mkKv m' (clock s0 + 1)%Z []).
  pose proof (commit_delete_run sch c ix id value (clock s0) s1 Hix Hid eq_refl) as Hdel.
  cbv zeta in Hdel. fold idKey in Hdel.
  eexists s1, _, _, _. split; [reflexivity|]. split; [exact Hdel|].
  cbn [entries s1]. apply map_eq. intros k.
  destruct (decide (k = idKey)) as [->|Hk].
  - assert (H0 : entries s0 !! idKey = None).
    { apply (Hfree (idKey, value)). rewrite Hins. by left. }
    rewrite H0.
    match goal with
    | |- foldl ?f ?m ?keys !! ?k = None =>
        destruct (foldl_delete_weak keys m k) as [H|H]; [done|]
    end.
    rewrite H. apply lookup_delete_eq.
  - destruct (List.in_dec (fun x y => decide (x = y)) k (index_keys ix id value))
      as [Hin|Hnot].
    + rewrite foldl_delete_gone by done.
      unfold index_keys in Hin. apply in_map_iff in Hin as (e & <- & He).
      symmetry. apply Hfree. rewrite Hins. by right.
    + rewrite foldl_delete_other by done.
      rewrite lookup_delete_ne by done. rewrite Hother by done.
      by apply lookup_insert_ne.
Qed.

(** *** [mutate] against [set] and [delete] *)

Lemma same_effect_refl ops : same_effect ops ops.
Proof. done. Qed.

Lemma same_effect_push_atomicFn fn o1 o2 :
  same_effect o1 o2 -> same_effect (push_atomicFn fn o1) (push_atomicFn fn o2).
Proof.
  intros (Ha & Hd & Hp & Hb). repeat split; try done.
  intros op. by rewrite !batch_from_push, Hb.
Qed.

Lemma same_effect_push_add k o1 o2 :
  same_effect o1 o2 ->
  same_effect (push_indexAddCollectionKey k o1) (push_indexAddCollectionKey k o2).
Proof.
  intros (Ha & Hd & Hp & Hb). repeat split; try done.
  simpl. by rewrite Ha.
Qed.

Lemma same_effect_push_delete k o1 o2 :
  same_effect o1 o2 ->
  same_effect (push_indexDeleteCollectionKey k o1) (push_indexDeleteCollectionKey k o2).
Proof.
  intros (Ha & Hd & Hp & Hb). repeat split; try done.
  simpl. by rewrite Hd.
Qed.

Lemma same_effect_push_prepare fn o1 o2 :
  same_effect o1 o2 ->
  same_effect (push_prepareDeleteFn fn o1) (push_prepareDeleteFn fn o2).
Proof.
  intros (Ha & Hd & Hp & Hb). repeat split; try done.
  simpl. by rewrite Hp.
Qed.

Lemma same_effect_fold {X} (step : Operations -> X -> Operations) l o1 o2 :
  (forall x o1 o2, same_effect o1 o2 -> same_effect (step o1 x) (step o2 x)) ->
  same_effect o1 o2 -> same_effect (fold_left step l o1) (fold_left step l o2).
Proof.
  intros Hstep. revert o1 o2. induction l as [|x l IH]; intros o1 o2 H; [done|].
  simpl. apply IH. by apply Hstep.
Qed.

Lemma same_effect_index_fragments ix id data value o1 o2 :
  same_effect o1 o2 ->
  same_effect
    (fold_left (add_secondary_index ix id data value) (secondaryIndexList ix)
       (fold_left (add_primary_index ix id data) (primaryIndexList ix) o1))
    (fold_left (add_secondary_index ix id data value) (secondaryIndexList ix)
       (fold_left (add_primary_index ix id data) (primaryIndexList ix) o2)).
Proof.
  intros H. apply same_effect_fold.
  { intros f o o' Ho. unfold add_secondary_index.
    destruct (index_value data f); [by apply same_effect_push_atomicFn|done]. }
  apply same_effect_fold; [|done].
  intros f o o' Ho. unfold add_primary_index.
  destruct (index_value data f); [by apply same_effect_push_atomicFn|done].
Qed.

Lemma same_effect_mutate_each c mut o1 o2 :
  same_effect o1 o2 ->
  same_effect (mutate_each getDocumentId c o1 mut) (mutate_each getDocumentId c o2 mut).
Proof.
  intros H. unfold mutate_each.
  destruct mut as [key value|key|key n].
  - destruct (indexable c) as [ix|]; [|by apply same_effect_push_atomicFn].
    destruct (getDocumentId key) as [id|]; [|by apply same_effect_push_atomicFn].
    by apply same_effect_index_fragments, same_effect_push_add, same_effect_push_atomicFn.
  - destruct (indexable c) as [ix|]; [|done].
    destruct (getDocumentId key) as [id|]; [|done].
    by apply same_effect_push_prepare, same_effect_push_delete.
  - destruct (indexable c) as [ix|]; [|done].
    by destruct (getDocumentId key).
Qed.

Lemma same_effect_call (b1 b2 : AtomicBuilder TSchema) x :
  schema b1 = schema b2 -> collection b1 = collection b2 ->
  same_effect (operations b1) (operations b2) ->
  schema (call b1 x) = schema (call b2 x) /\
  collection (call b1 x) = collection (call b2 x) /\
  same_effect (operations (call b1 x)) (operations (call b2 x)).
Proof.
  intros Hs Hc H.
  destruct x as [selector|id data|id data|id|cks|id n|muts]; simpl.
  - by rewrite Hs.
  - unfold add. rewrite Hs, Hc. cbn [schema collection operations].
    split; [done|]. split; [done|].
    destruct (indexable (collection b2)) as [ix|].
    + by apply same_effect_index_fragments, same_effect_push_add,
        same_effect_push_atomicFn.
    + by apply same_effect_push_atomicFn.
  - unfold set. rewrite Hs, Hc. cbn [schema collection operations].
    split; [done|]. split; [done|].
    destruct (indexable (collection b2)) as [ix|].
    + by apply same_effect_index_fragments, same_effect_push_add,
        same_effect_push_atomicFn.
    + by apply same_effect_push_atomicFn.
  - unfold delete. rewrite Hs, Hc. cbn [schema collection operations].
    split; [done|]. split; [done|].
    destruct (indexable (collection b2)) as [ix|].
    + by apply same_effect_push_prepare, same_effect_push_delete,
        same_effect_push_atomicFn.
    + by apply same_effect_push_atomicFn.
  - unfold check. rewrite Hs, Hc. cbn [schema collection operations].
    split; [done|]. split; [done|]. by apply same_effect_push_atomicFn.
  - unfold sum. rewrite Hs, Hc. cbn [schema collection operations].
    split; [done|]. split; [done|]. by apply same_effect_push_atomicFn.
  - unfold mutate. rewrite Hs, Hc. cbn [schema collection operations].
    split; [done|]. split; [done|].
    apply same_effect_fold; [intros; by apply same_effect_mutate_each|].
    by apply same_effect_push_atomicFn.
Qed.

Lemma same_effect_chain cs (b1 b2 : AtomicBuilder TSchema) :
  schema b1 = schema b2 -> collection b1 = collection b2 ->
  same_effect (operations b1) (operations b2) ->
  same_effect (operations (chain cs b1)) (operations (chain cs b2)).
Proof.
  revert b1 b2. induction cs as [|x cs IH]; intros b1 b2 Hs Hc H; [done|].
  rewrite !chain_cons.
  destruct (same_effect_call b1 b2 x Hs Hc H) as (Hs' & Hc' & H').
  by apply IH.
Qed.

Lemma same_effect_commit (b1 b2 : AtomicBuilder TSchema) s :
  same_effect (operations b1) (operations b2) -> commit b1 s = commit b2 s.
Proof.
  intros (Ha & Hd & Hp & Hb). unfold commit, overlapping.
  rewrite Ha, Hd, Hp.
  fold (batch_from atomic (operations b1)). fold (batch_from atomic (operations b2)).
  by rewrite Hb.
Qed.

(** X10 ([mutate] with a set is [set]).  When the id-key carries the document
    id, `mutate({type: "set", id, value})` and `set(id, value)` are
    interchangeable at any place of a chain: whatever calls follow, the
    commit runs the same store calls and gives the same answer. *)
Theorem mutate_set_as_set (b : AtomicBuilder TSchema) (id : KvId) (value : KvValue)
    (cs : list Call) (s : Kv KvValue) :
  getDocumentId (extendKey (collectionIdKey (collection b)) [id]) = Some id ->
  commit (chain cs (mutate getDocumentId [MutateSet id value] b)) s
  = commit (chain cs (set id value b)) s.
Proof.
  intros Hid. apply same_effect_commit, same_effect_chain; [done|done|].
  unfold mutate, set. cbn [operations map fold_left collection].
  unfold mutate_each.
  assert (Hbase : same_effect
    (push_atomicFn
       (fun op => op_check [mkCheck (extendKey (collectionIdKey (collection b)) [id]) None] op)
       (push_atomicFn
          (fun op => op_mutate [MutSet (extendKey (collectionIdKey (collection b)) [id]) value] op)
          (operations b)))
    (push_atomicFn
       (fun op => op_set (extendKey (collectionIdKey (collection b)) [id]) value
                    (op_check [mkCheck (extendKey (collectionIdKey (collection b)) [id]) None] op))
       (operations b))).
  { repeat split; try done. intros op. by rewrite !batch_from_push. }
  destruct (indexable (collection b)) as [ix|]; [|done].
  match goal with
  | |- context [getDocumentId ?k] =>
      replace (getDocumentId k) with (Some id) by (symmetry; exact Hid)
  end.
  by apply same_effect_index_fragments, same_effect_push_add.
Qed.

(** X11 ([mutate] with a delete is [delete]).  When the id-key carries the
    document id, `mutate({type: "delete", id})` and `delete(id)` are
    interchangeable at any place of a chain: whatever calls follow, the
    commit runs the same store calls and gives the same answer. *)
Theorem mutate_delete_as_delete (b : AtomicBuilder TSchema) (id : KvId)
    (cs : list Call) (s : Kv KvValue) :
  getDocumentId (extendKey (collectionIdKey (collection b)) [id]) = Some id ->
  commit (chain cs (mutate getDocumentId [MutateDelete id] b)) s
  = commit (chain cs (delete id b)) s.
Proof.
  intros Hid. apply same_effect_commit, same_effect_chain; [done|done|].
  unfold mutate, delete. cbn [operations map fold_left collection].
  unfold mutate_each.
  assert (Hbase : same_effect
    (push_atomicFn
       (fun op => op_mutate [MutDelete (extendKey (collectionIdKey (collection b)) [id])] op)
       (operations b))
    (push_atomicFn
       (fun op => op_delete (extendKey (collectionIdKey (collection b)) [id]) op)
       (operations b))).
  { by repeat split. }
  destruct (indexable (collection b)) as [ix|]; [|done].
  match goal with
  | |- context [getDocumentId ?k] =>
      replace (getDocumentId k) with (Some id) by (symmetry; exact Hid)
  end.
  by apply same_effect_push_prepare, same_effect_push_delete.
Qed.

(** *** A delete guarded by a versionstamp *)

Lemma index_cleanup_is_deletes p : exists keys, index_cleanup p = deletes_of keys.
Proof.
  unfold index_cleanup.
  rewrite (fold_cleanup (fun index indexValue =>
    extendKey (prepared_primaryCollectionIndexKey p) [PString index; indexValue])).
  rewrite (fold_cleanup (fun index indexValue =>
    extendKey (prepared_secondaryCollectionIndexKey p)
      [PString index; indexValue; prepared_id p])).
  cbn [checks mutations atomic app]. rewrite <- map_app. by eexists.
Qed.

Lemma cleanups_only_remove (prepared : list PreparedIndexDelete) (s1 : Kv KvValue) :
  exists crs s2 t,
    mapM (fun p => kv_commit (index_cleanup p)) prepared s1 = (Normal crs, s2, t) /\
    only_removed s1 s2.
Proof.
  revert s1. induction prepared as [|p ps IH]; intros s1.
  - simpl. unfold ret. eexists _, _, _. split; [done|]. apply only_removed_refl.
  - simpl. unfold bind at 1. unfold kv_commit at 1.
    destruct (index_cleanup_is_deletes p) as [keys ->].
    pose proof (commit_step_deletes keys s1) as Hstep.
    destruct (commit_step (deletes_of keys) s1) as [cr sa].
    destruct Hstep as (_ & Hrem & _).
    destruct (IH sa) as (crs & s2 & t & Hrest & Hrem').
    unfold bind at 1. rewrite Hrest. unfold ret.
    eexists _, _, _. split; [done|]. by eapply only_removed_trans.
Qed.

(** X12 (a delete guarded by a versionstamp).  The commit of `check({id,
    versionstamp})` followed by `delete(id)` on a new builder is ok exactly
    when the store does not refuse the batch and the id-key holds an entry
    with that versionstamp.  When it is ok the id-key holds nothing
    afterwards; when it is not, the entries are as before. *)
Theorem checked_delete (sch : TSchema) (c : Collection) (id : KvId)
    (vs : Versionstamp) (s : Kv KvValue) :
  let idKey := extendKey (collectionIdKey c) [id] in
  exists cr s' t,
    commit (delete id (check [(id, Some vs)] (new sch c))) s = (Normal cr, s', t) /\
    (commit_ok cr = true <->
       refused s = false /\ exists v, entries s !! idKey = Some (v, vs)) /\
    (commit_ok cr = true -> entries s' !! idKey = None) /\
    (commit_ok cr = false -> entries s' = entries s).
Proof.
  intros idKey.
  set (b := delete id (check [(id, Some vs)] (new sch c))).
  assert (Hro : Forall read_only (prepareDeleteFns (operations b))).
  { unfold b, delete, check. simpl. destruct (indexable c); simpl; [|constructor].
    constructor; [apply read_only_prepare_delete|constructor]. }
  assert (Hov : overlapping (operations b) = false).
  { unfold b, delete, check. simpl. by destruct (indexable c). }
  assert (Hbatch : batch_from atomic (operations b)
                   = mkAtomic [mkCheck idKey (Some vs)] [MutDelete idKey]).
  { unfold b, delete, check. simpl. by destruct (indexable c). }
  destruct (commit_run b s Hro Hov) as (prepared & reads & s' & cleanups & _ & Hrun & Herr & Hok).
  rewrite Hbatch in Hrun, Herr, Hok.
  exists (fst (commit_step (mkAtomic [mkCheck idKey (Some vs)] [MutDelete idKey]) s)), s'.
  eexists. split; [exact Hrun|]. clear Hrun.
  destruct (cleanups_only_remove prepared
    (snd (commit_step (mkAtomic [mkCheck idKey (Some vs)] [MutDelete idKey]) s)))
    as (crs & s2 & t & Hclean & Hrem).
  specialize (Hok crs s2 t Hclean).
  revert Herr Hok Hrem.
  unfold commit_step. cbn [checks mutations forallb]. unfold check_passes.
  cbn [check_key check_versionstamp].
  destruct (refused s) eqn:Href.
  { cbn [fst snd commit_ok entries]. intros Herr _ _. destruct (Herr eq_refl) as [-> _].
    split; [split; [done|by intros [? _]]|]. done. }
  destruct (entries s !! idKey) as [[v vs']|] eqn:Hk.
  - rewrite andb_true_r. destruct (bool_decide (vs' = vs)) eqn:Hvs.
    + apply bool_decide_eq_true in Hvs. subst vs'.
      cbn [apply_mutations apply_mutation fst snd commit_ok entries].
      intros _ Hok Hrem. destruct (Hok eq_refl) as [-> _].
      split; [split; [|done]|]. { intros _. split; [done|]. by exists v. }
      split; [|done]. intros _.
      eapply only_removed_absent; [exact Hrem|]. cbn [entries]. apply lookup_delete_eq.
    + apply bool_decide_eq_false in Hvs.
      cbn [fst snd commit_ok entries]. intros Herr _ _. destruct (Herr eq_refl) as [-> _].
      split; [split; [done|]|done].
      intros (_ & v' & Hv'). congruence.
  - cbn [andb fst snd commit_ok entries]. intros Herr _ _. destruct (Herr eq_refl) as [-> _].
    split; [split; [done|]|done].
    intros (_ & v' & Hv'). congruence.
Qed.

End Laws.
End BuilderLaws.

(** * Further properties of large collections *)

Section CommitFrames.
Context {V : Type} `{!KvCounter V}.

Lemma commit_step_deletes_frame (keys : list KvKey) (s : Kv V) k :
  ~ In k keys -> entries (snd (commit_step (deletes_of keys) s)) !! k = entries s !! k.
Proof.
  intros Hk. unfold commit_step, deletes_of. cbn [checks mutations forallb].
  destruct (refused s); [done|]. rewrite apply_deletes. cbn [snd entries].
  by apply BuilderLaws.foldl_delete_other.
Qed.

(** Batches of deletes committed one after the other: what they leave
    alone, and what a store that refuses nothing ends with. *)
Lemma mapM_deletes_frame (batches : list (list KvKey)) (s : Kv V) :
  exists crs s' t,
    mapM kv_commit (map deletes_of batches) s = (Normal crs, s', t) /\
    only_removed s s' /\
    (forall k, ~ In k (concat batches) -> entries s' !! k = entries s !! k) /\
    (refusals s = [] ->
       refusals s' = [] /\
       entries s' = foldl (fun m k => base.delete k m) (entries s) (concat batches)).
Proof.
  revert s. induction batches as [|batch batches IH]; intros s.
  - simpl. unfold ret. eexists _, _, _. split; [done|].
    split; [apply only_removed_refl|]. done.
  - simpl. unfold bind at 1. unfold kv_commit at 1.
    pose proof (commit_step_deletes batch s) as Hstep.
    pose proof (fun k => commit_step_deletes_frame batch s k) as Hframe.
    assert (Hexact : refusals s = [] ->
      commit_step (deletes_of batch) s
      = (KvCommitResult (clock s),
         mkKv (foldl (fun m k => base.delete k m) (entries s) batch) (clock s + 1)%Z [])).
    { intros H. unfold commit_step, deletes_of, refused. rewrite H.
      cbn [checks mutations forallb tail]. by rewrite apply_deletes. }
    destruct (commit_step (deletes_of batch) s) as [cr s1].
    destruct Hstep as (_ & Hrem1 & _). cbn [snd] in Hframe.
    destruct (IH s1) as (crs & s' & t & Hrun & Hrem & Hother & Hgone).
    unfold bind at 1. rewrite Hrun. unfold ret.
    eexists _, _, _. split; [done|].
    split; [by eapply only_removed_trans|]. split.
    + intros k Hk. rewrite Hother, Hframe; [done| |];
        intros Hin; apply Hk, in_or_app; auto.
    + intros Hrefusals. specialize (Hexact Hrefusals). inversion Hexact; subst.
      destruct (Hgone eq_refl) as [Hr He]. split; [done|].
      rewrite He. cbn [entries]. by rewrite foldl_app.
Qed.

(** *** Computations that keep keys *)

Lemma keeps_ret {A} K (a : A) : keeps K (@ret V A a).
Proof. by intros s k _. Qed.

Lemma keeps_throw {A} K e : keeps K (@throw V A e).
Proof. by intros s k _. Qed.

Lemma keeps_unfinished {A} K : keeps K (@unfinished V A).
Proof. by intros s k _. Qed.

Lemma keeps_bind {A B} K (m : IO V A) (f : A -> IO V B) (Q : A -> Prop) :
  keeps K m ->
  (forall s a s1 t, m s = (Normal a, s1, t) -> Q a) ->
  (forall a, Q a -> keeps K (f a)) ->
  keeps K (bind m f).
Proof.
  intros Hm HQ Hf s k Hk. specialize (Hm s k Hk). unfold bind.
  destruct (m s) as [[c s1] t1] eqn:Hms. cbn [fst snd] in Hm.
  destruct c as [a| |]; [|done|done].
  specialize (Hf a (HQ _ _ _ _ Hms) s1 k Hk).
  destruct (f a s1) as [[c2 s2] t2]. cbn [fst snd] in *. congruence.
Qed.

Lemma keeps_bind_any {A B} K (m : IO V A) (f : A -> IO V B) :
  keeps K m -> (forall a, keeps K (f a)) -> keeps K (bind m f).
Proof. intros Hm Hf. apply (keeps_bind K m f (fun _ => True)); auto. Qed.

Lemma keeps_allFulfilled {A} K (ps : list (IO V A)) :
  Forall (keeps K) ps -> keeps K (allFulfilled ps).
Proof.
  induction 1 as [|p ps Hp _ IH]; intros s k Hk; [done|].
  rewrite allFulfilled_cons. specialize (Hp s k Hk).
  destruct (p s) as [[c s1] t1]. cbn [fst snd] in Hp.
  specialize (IH s1 k Hk).
  destruct (allFulfilled ps s1) as [[c2 s2] t2]. cbn [fst snd] in IH.
  destruct c; [| |done]; destruct c2; cbn [fst snd]; congruence.
Qed.

Lemma keeps_mapM {A B} K (f : A -> IO V B) (l : list A) :
  (forall x, In x l -> keeps K (f x)) -> keeps K (mapM f l).
Proof.
  induction l as [|x l IH]; intros Hf; [apply keeps_ret|].
  simpl. apply keeps_bind_any; [apply Hf; by left|]. intros y.
  apply keeps_bind_any; [apply IH; intros; apply Hf; by right|].
  intros. apply keeps_ret.
Qed.

Lemma keeps_kv_get K key : keeps K (@kv_get V key).
Proof. by intros s k _. Qed.

Lemma keeps_kv_getMany K keys : keeps K (@kv_getMany V keys).
Proof. by intros s k _. Qed.

Lemma keeps_kv_delete (K : KvKey -> Prop) key : ~ K key -> keeps K (@kv_delete V key).
Proof.
  intros Hkey s k Hk. simpl. apply lookup_delete_ne. intros ->. by apply Hkey.
Qed.

Lemma apply_mutations_frame vs (muts : list (KvMutation V)) m m' k :
  apply_mutations vs m muts = Some m' ->
  (forall mut, In mut muts -> mutation_key mut <> k) ->
  m' !! k = m !! k.
Proof.
  revert m. induction muts as [|mut muts IH]; intros m Happly Hkeys.
  - simpl in Happly. by inversion Happly.
  - simpl in Happly. destruct (apply_mutation vs m mut) as [m1|] eqn:Hmut; [|done].
    rewrite (IH m1 Happly) by (intros; apply Hkeys; by right).
    assert (Hne : mutation_key mut <> k) by (apply Hkeys; by left).
    destruct mut as [key value|key|key n]; simpl in *.
    + inversion Hmut; subst. by apply lookup_insert_ne.
    + inversion Hmut; subst. by apply lookup_delete_ne.
    + destruct (kv_sum _ n); inversion Hmut; subst. by apply lookup_insert_ne.
Qed.

Lemma keeps_kv_commit (K : KvKey -> Prop) (op : AtomicOperation V) :
  (forall mut, In mut (mutations op) -> ~ K (mutation_key mut)) ->
  keeps K (kv_commit op).
Proof.
  intros Hkeys s k Hk. unfold kv_commit, commit_step.
  destruct (refused s); [done|].
  destruct (forallb _ _); [|done].
  destruct (apply_mutations _ _ _) as [m'|] eqn:Happly; [|done].
  cbn [fst snd entries]. apply (apply_mutations_frame _ _ _ _ _ Happly).
  intros mut Hin Heq. apply (Hkeys mut Hin). by rewrite Heq.
Qed.

(** *** Computations that add nothing at some keys *)

Lemma never_adds_keeps {A} K (m : IO V A) : keeps K m -> never_adds K m.
Proof. intros Hm s Hs k Hk. rewrite Hm by done. by apply Hs. Qed.

Lemma never_adds_removed {A} K (m : IO V A) :
  (forall s, only_removed s (snd (fst (m s)))) -> never_adds K m.
Proof. intros Hm s Hs k Hk. eapply only_removed_absent; [apply Hm|by apply Hs]. Qed.

Lemma never_adds_bind {A B} K (m : IO V A) (f : A -> IO V B) (Q : A -> Prop) :
  never_adds K m ->
  (forall s a s1 t, m s = (Normal a, s1, t) -> Q a) ->
  (forall a, Q a -> never_adds K (f a)) ->
  never_adds K (bind m f).
Proof.
  intros Hm HQ Hf s Hs k Hk. pose proof (Hm s Hs) as Hs1. unfold bind.
  destruct (m s) as [[c s1] t1] eqn:Hms. cbn [fst snd] in Hs1.
  destruct c as [a| |]; [|by apply Hs1|by apply Hs1].
  pose proof (Hf a (HQ _ _ _ _ Hms) s1 Hs1 k Hk) as H.
  destruct (f a s1) as [[c2 s2] t2]. done.
Qed.

Lemma never_adds_bind_any {A B} K (m : IO V A) (f : A -> IO V B) :
  never_adds K m -> (forall a, never_adds K (f a)) -> never_adds K (bind m f).
Proof. intros Hm Hf. apply (never_adds_bind K m f (fun _ => True)); auto. Qed.

Lemma never_adds_deletes K (keys : list KvKey) :
  never_adds K (allFulfilled (V:=V) (map kv_delete keys)).
Proof.
  apply never_adds_removed. intros s.
  destruct (allFulfilled_deletes keys s) as (l & s' & t & Hrun & _ & _ & _ & Hrem).
  rewrite Hrun. exact Hrem.
Qed.

End CommitFrames.

Module LargeLaws.
Import LargeCollection LargeFacts.

Section Laws.
Variable T1 : Type.
Variable model_parse : T1 -> option T1.
Variable idGenerator : T1 -> KvId.
Variable JSON_stringify : T1 -> string.
Variable JSON_parse : string -> option T1.
Variable KVDEX_KEY_PREFIX ID_KEY_PREFIX SEGMENT_KEY_PREFIX : KvKeyPart.
Variable LARGE_COLLECTION_STRING_LIMIT : nat.
Variable ATOMIC_OPERATION_MUTATION_LIMIT : nat.
Variable getDocumentId : KvKey -> option KvId.
Variable key : KvKey.

Local Abbreviation id_key :=
  (LargeLayout.id_key KVDEX_KEY_PREFIX ID_KEY_PREFIX SEGMENT_KEY_PREFIX key).
Local Abbreviation segment_key :=
  (LargeLayout.segment_key KVDEX_KEY_PREFIX ID_KEY_PREFIX SEGMENT_KEY_PREFIX key).
Local Abbreviation segment_key_at :=
  (LargeLayout.segment_key_at KVDEX_KEY_PREFIX ID_KEY_PREFIX SEGMENT_KEY_PREFIX key).
Local Abbreviation segment_entries :=
  (LargeLayout.segment_entries KVDEX_KEY_PREFIX ID_KEY_PREFIX SEGMENT_KEY_PREFIX key).
Local Abbreviation batch_entries :=
  (LargeLayout.batch_entries KVDEX_KEY_PREFIX ID_KEY_PREFIX SEGMENT_KEY_PREFIX key).
Local Abbreviation set_segment :=
  (set_segment KVDEX_KEY_PREFIX ID_KEY_PREFIX SEGMENT_KEY_PREFIX key).
Local Abbreviation delete_id :=
  (delete_id KVDEX_KEY_PREFIX ID_KEY_PREFIX SEGMENT_KEY_PREFIX
     ATOMIC_OPERATION_MUTATION_LIMIT key).
Local Abbreviation delete :=
  (delete KVDEX_KEY_PREFIX ID_KEY_PREFIX SEGMENT_KEY_PREFIX
     ATOMIC_OPERATION_MUTATION_LIMIT key).
Local Abbreviation setDocument :=
  (setDocument T1 model_parse idGenerator JSON_stringify KVDEX_KEY_PREFIX ID_KEY_PREFIX
     SEGMENT_KEY_PREFIX LARGE_COLLECTION_STRING_LIMIT ATOMIC_OPERATION_MUTATION_LIMIT
     getDocumentId key).
Local Abbreviation attempt :=
  (LargeLayout.attempt T1 JSON_stringify KVDEX_KEY_PREFIX ID_KEY_PREFIX SEGMENT_KEY_PREFIX
     LARGE_COLLECTION_STRING_LIMIT ATOMIC_OPERATION_MUTATION_LIMIT getDocumentId key).
Local Abbreviation setDocument_attempts :=
  (LargeLayout.setDocument_attempts T1 model_parse idGenerator JSON_stringify
     KVDEX_KEY_PREFIX ID_KEY_PREFIX SEGMENT_KEY_PREFIX LARGE_COLLECTION_STRING_LIMIT
     ATOMIC_OPERATION_MUTATION_LIMIT getDocumentId key).
Local Abbreviation probe :=
  (LargeLayout.probe KVDEX_KEY_PREFIX ID_KEY_PREFIX SEGMENT_KEY_PREFIX key).
Local Abbreviation manifest :=
  (LargeLayout.manifest KVDEX_KEY_PREFIX ID_KEY_PREFIX SEGMENT_KEY_PREFIX getDocumentId key).
Local Abbreviation constructLargeDocument :=
  (constructLargeDocument T1 JSON_parse KVDEX_KEY_PREFIX ID_KEY_PREFIX SEGMENT_KEY_PREFIX key).
Local Abbreviation find :=
  (find T1 JSON_parse KVDEX_KEY_PREFIX ID_KEY_PREFIX SEGMENT_KEY_PREFIX key).
Local Abbreviation findMany :=
  (findMany T1 JSON_parse KVDEX_KEY_PREFIX ID_KEY_PREFIX SEGMENT_KEY_PREFIX
     getDocumentId key).

(** *** Key layout *)

Lemma segment_key_at_not_id docId segId docId' : segment_key_at docId segId <> id_key docId'.
Proof.
  unfold LargeLayout.segment_key_at, LargeLayout.id_key, _keys, extendKey.
  cbn [segmentKey idKey]. intros H. apply (f_equal length) in H.
  rewrite !length_app in H. simpl in H. lia.
Qed.

Lemma id_key_inj docId docId' : id_key docId = id_key docId' -> docId = docId'.
Proof.
  unfold LargeLayout.id_key, extendKey. intros H. apply app_inv_head in H. congruence.
Qed.

Lemma segment_key_at_inj docId segId docId' segId' :
  segment_key_at docId segId = segment_key_at docId' segId' ->
  docId = docId' /\ segId = segId'.
Proof.
  unfold LargeLayout.segment_key_at, extendKey. intros H. apply app_inv_head in H.
  by inversion H.
Qed.

(** X19 (key layout).  The keys that the constructor lays out never
    clash: every id-key is the base key followed by the id marker and the
    id, every segment key is the base key followed by the segment marker,
    the id and the segment id; so no segment key is an id-key, and two
    id-keys or two segment keys are equal only for the same id and the same
    segment id. *)
Theorem keys_never_clash :
  let keys := _keys KVDEX_KEY_PREFIX ID_KEY_PREFIX SEGMENT_KEY_PREFIX key in
  (forall docId, id_key docId = baseKey keys ++ [ID_KEY_PREFIX; docId]) /\
  (forall docId segId,
     segment_key_at docId segId = baseKey keys ++ [SEGMENT_KEY_PREFIX; docId; segId]) /\
  (forall docId segId docId', segment_key_at docId segId <> id_key docId') /\
  (forall docId docId', id_key docId = id_key docId' -> docId = docId') /\
  (forall docId segId docId' segId',
     segment_key_at docId segId = segment_key_at docId' segId' ->
     docId = docId' /\ segId = segId').
Proof.
  split; [|split; [|split; [|split]]].
  - intros docId. unfold LargeLayout.id_key, _keys, extendKey. cbn [idKey baseKey].
    by rewrite <- !app_assoc.
  - intros docId segId. unfold LargeLayout.segment_key_at, _keys, extendKey.
    cbn [segmentKey baseKey]. by rewrite <- !app_assoc.
  - apply segment_key_at_not_id.
  - apply id_key_inj.
  - apply segment_key_at_inj.
Qed.

(** *** Reading *)

Lemma construct_read_only id value vs s :
  exists c t, constructLargeDocument id value vs s = (c, s, t) /\ c <> Unfinished.
Proof.
  unfold LargeCollection.constructLargeDocument. destruct value as [entry|str].
  - unfold bind, kvGetMany, kv_getMany.
    match goal with |- context [if ?b then _ else _] => destruct b end.
    + unfold throw. eexists _, _. split; [reflexivity|done].
    + match goal with |- context [JSON_parse ?j] => destruct (JSON_parse j) end.
      * unfold ret. eexists _, _. split; [reflexivity|done].
      * unfold throw. eexists _, _. split; [reflexivity|done].
  - unfold throw. eexists _, _. split; [reflexivity|done].
Qed.

Lemma find_completion id s :
  match entries s !! id_key id with
  | None => find id s = (Normal None, s, [mkEvent (OpGet (id_key id)) s])
  | Some (value, vs) =>
      exists c t t',
        constructLargeDocument id value vs s = (c, s, t) /\
        find id s = (match c with
                     | Normal doc => Normal (Some doc)
                     | Thrown e => Thrown e
                     | Unfinished => Unfinished
                     end, s, t')
  end.
Proof.
  destruct (entries s !! id_key id) as [[value vs]|] eqn:Hget.
  - destruct (construct_read_only id value vs s) as (c & t & Hc & _).
    exists c, t. unfold LargeCollection.find, bind, kv_get. fold (id_key id).
    rewrite Hget, Hc. destruct c; unfold ret; eauto.
  - unfold LargeCollection.find, bind, kv_get. fold (id_key id). by rewrite Hget.
Qed.

(** [find] only reads: whatever it returns or throws, the store is the
    one it was given. *)
Lemma find_read_only id s : snd (fst (find id s)) = s.
Proof.
  pose proof (find_completion id s) as H.
  destruct (entries s !! id_key id) as [[value vs]|].
  - destruct H as (c & t & t' & _ & ->). done.
  - by rewrite H.
Qed.

Section ManyIds.
Hypothesis getDocumentId_last :
  forall (k : KvKey) (part : KvKeyPart), getDocumentId (k ++ [part]) = Some part.

Lemma findMany_callbacks (ids : list KvId) s :
  exists pushed t,
    allFulfilled (map (fun '(key, entry) =>
        match getDocumentId key, entry with
        | Some id, Some (value, versionstamp) =>
            let* doc := constructLargeDocument id value versionstamp in
            ret (Some doc)
        | _, _ => ret None
        end) (map (fun id => (id_key id, entries s !! id_key id)) ids)) s
      = (Normal pushed, s, t) /\
    omap (fun doc => doc) pushed
      = omap (fun id => match fst (fst (find id s)) with
                        | Normal (Some doc) => Some doc
                        | _ => None
                        end) ids.
Proof using getDocumentId_last.
  induction ids as [|id ids IH].
  - simpl. eexists _, _. split; done.
  - destruct IH as (pushed & t & Hrest & Hpushed).
    cbn [map]. rewrite allFulfilled_cons.
    assert (Hid : getDocumentId (id_key id) = Some id).
    { unfold LargeLayout.id_key, extendKey. apply getDocumentId_last. }
    rewrite Hid.
    pose proof (find_completion id s) as Hfind.
    destruct (entries s !! id_key id) as [[value vs]|].
    + destruct Hfind as (c & tc & t' & Hc & Hfind).
      destruct (construct_read_only id value vs s) as (c' & tc' & Hc' & Hfin).
      rewrite Hc in Hc'. inversion Hc'; subst c' tc'.
      unfold bind at 1. rewrite Hc. cbn [omap list_omap]. rewrite Hfind. cbn [fst].
      destruct c as [doc|e|]; [| |done].
      * unfold ret at 1. cbn beta iota. rewrite Hrest. eexists _, _.
        split; [reflexivity|]. cbn [omap list_omap]. by rewrite <- Hpushed.
      * cbn beta iota. rewrite Hrest. eexists _, _. split; [reflexivity|]. done.
    + unfold ret at 1. cbn beta iota. rewrite Hrest. cbn [omap list_omap].
      rewrite Hfind. cbn [fst]. eexists _, _. split; [reflexivity|]. done.
Qed.

(** X13 ([findMany] against [find]).  [findMany] never throws and leaves the
    store as it is, and it returns, in some order, exactly the documents
    that [find] returns for the given ids: an id without manifest and an
    id for which [find] throws (a corrupted document) are left out. *)
Theorem findMany_agrees_with_find (ids : list KvId) (s : Kv LargeStored) :
  exists docs t,
    findMany ids s = (Normal docs, s, t) /\
    Permutation docs
      (omap (fun id => match fst (fst (find id s)) with
                       | Normal (Some doc) => Some doc
                       | _ => None
                       end) ids) /\
    (forall doc, In doc docs <->
       exists id, In id ids /\ fst (fst (find id s)) = Normal (Some doc)).
Proof using getDocumentId_last.
  destruct (findMany_callbacks ids s) as (pushed & t & Hrun & Hpushed).
  exists (omap (fun doc => doc) pushed). eexists.
  split; [|split].
  - unfold LargeCollection.findMany. unfold bind at 1. unfold kvGetMany, kv_getMany.
    rewrite map_map.
    replace (zip _ _) with (map (fun id => (id_key id, entries s !! id_key id)) ids).
    2:{ clear. induction ids as [|id ids IH]; [done|]. simpl. by rewrite IH. }
    unfold bind at 1. rewrite Hrun. unfold ret. reflexivity.
  - by rewrite Hpushed.
  - intros doc. rewrite Hpushed. split.
    + intros Hin. apply list_elem_of_In, list_elem_of_omap in Hin as (id & Hid & Hdoc).
      exists id. split; [by apply list_elem_of_In|].
      destruct (fst (fst (find id s))) as [[d|]| |]; try done. by inversion Hdoc.
    + intros (id & Hid & Hdoc). apply list_elem_of_In, list_elem_of_omap.
      exists id. split; [by apply list_elem_of_In|]. by rewrite Hdoc.
Qed.

End ManyIds.

(** *** Deleting *)

(** What the deletion of one id does. *)
Lemma delete_id_effect id s :
  exists c s' t,
    delete_id id s = (c, s', t) /\ c <> Unfinished /\
    only_removed s s' /\
    (forall k, k <> id_key id -> (forall segId, k <> segment_key_at id segId) ->
       entries s' !! k = entries s !! k) /\
    (refusals s = [] -> refusals s' = []) /\
    (forall entry vs, entries s !! id_key id = Some (StoredEntry entry, vs) ->
       entries s' !! id_key id = None /\
       (refusals s = [] -> 0 < ATOMIC_OPERATION_MUTATION_LIMIT ->
        forall segId, In segId (ids entry) ->
          entries s' !! segment_key_at id segId = None)).
Proof.
  unfold LargeCollection.delete_id. unfold bind at 1. unfold kv_get. fold (id_key id).
  destruct (entries s !! id_key id) as [[[entry|str] vs]|] eqn:Hget.
  - cbn [truthy negb]. unfold bind at 1. unfold kv_delete at 1.
    set (s1 := mkKv (base.delete (id_key id) (entries s)) (clock s + 1)%Z (refusals s)).
    assert (Hrem1 : only_removed s s1).
    { intros k. simpl. destruct (decide (id_key id = k)) as [->|Hne];
        [left; apply lookup_delete_eq|right; by apply lookup_delete_ne]. }
    unfold useAtomics. rewrite LargeSegments.build_batches_deletes.
    set (batches := slices (length (ids entry)) ATOMIC_OPERATION_MUTATION_LIMIT (ids entry)).
    destruct (mapM_deletes_frame (map (map (segment_key_at id)) batches) s1)
      as (crs & s' & t & Hrun & Hrem & Hother & Hgone).
    rewrite map_map in Hrun.
    unfold bind at 1. unfold bind at 1. rewrite Hrun. unfold ret. cbn beta iota.
    eexists _, _, _. split; [reflexivity|]. split; [done|].
    split; [by eapply only_removed_trans|]. split; [|split].
    + intros k Hk Hseg. rewrite Hother.
      * simpl. by apply lookup_delete_ne.
      * rewrite LargeSegments.concat_map_map. intros Hin.
        apply in_map_iff in Hin as (segId & <- & _). by apply (Hseg segId).
    + intros Hr. by apply Hgone.
    + intros entry' vs' Heq. inversion Heq; subst entry' vs'. split.
      * eapply only_removed_absent; [exact Hrem|]. simpl. apply lookup_delete_eq.
      * intros Hr Hpos segId Hin. destruct (Hgone Hr) as [_ ->].
        apply foldl_delete_gone. rewrite LargeSegments.concat_map_map.
        apply in_map. unfold batches. by rewrite slices_concat.
  - cbn [truthy]. destruct (String.eqb str "") eqn:Hstr; cbn [negb].
    + unfold ret. eexists _, _, _. split; [reflexivity|]. split; [done|].
      split; [apply only_removed_refl|]. split; [done|]. split; [done|]. done.
    + unfold bind, kv_delete, throw. eexists _, _, _. split; [reflexivity|].
      split; [done|]. split; [|split; [|split]].
      * intros k. simpl. destruct (decide (id_key id = k)) as [->|Hne];
          [left; apply lookup_delete_eq|right; by apply lookup_delete_ne].
      * intros k Hk _. simpl. by apply lookup_delete_ne.
      * done.
      * done.
  - unfold ret. eexists _, _, _. split; [reflexivity|]. split; [done|].
    split; [apply only_removed_refl|]. split; [done|]. split; [done|]. done.
Qed.

Lemma delete_effect (ids : list KvId) (s : Kv LargeStored) :
  exists s' t,
    delete ids s = (Normal tt, s', t) /\
    only_removed s s' /\
    (forall k, (forall id, In id ids ->
                  k <> id_key id /\ forall segId, k <> segment_key_at id segId) ->
       entries s' !! k = entries s !! k) /\
    ((forall id str vs, In id ids -> entries s !! id_key id <> Some (StoredString str, vs)) ->
     (forall id, In id ids -> entries s' !! id_key id = None) /\
     (refusals s = [] -> 0 < ATOMIC_OPERATION_MUTATION_LIMIT ->
      forall id entry vs segId, In id ids ->
        entries s !! id_key id = Some (StoredEntry entry, vs) ->
        In segId (LargeCollection.ids entry) ->
        entries s' !! segment_key_at id segId = None)).
Proof.
  unfold LargeCollection.delete.
  assert (H : exists l s' t,
    allFulfilled (map delete_id ids) s = (Normal l, s', t) /\
    only_removed s s' /\
    (refusals s = [] -> refusals s' = []) /\
    (forall k, (forall id, In id ids ->
                  k <> id_key id /\ forall segId, k <> segment_key_at id segId) ->
       entries s' !! k = entries s !! k) /\
    ((forall id str vs, In id ids -> entries s !! id_key id <> Some (StoredString str, vs)) ->
     (forall id, In id ids -> entries s' !! id_key id = None) /\
     (refusals s = [] -> 0 < ATOMIC_OPERATION_MUTATION_LIMIT ->
      forall id entry vs segId, In id ids ->
        entries s !! id_key id = Some (StoredEntry entry, vs) ->
        In segId (LargeCollection.ids entry) ->
        entries s' !! segment_key_at id segId = None))).
  { revert s. induction ids as [|id0 ids IH]; intros s.
    - simpl. eexists _, _, _. split; [reflexivity|]. split; [apply only_removed_refl|].
      split; [done|]. split; [done|]. intros _. split; [done|]. by intros.
    - cbn [map]. rewrite allFulfilled_cons.
      destruct (delete_id_effect id0 s)
        as (c & s1 & t1 & Hrun1 & Hfin & Hrem1 & Hframe1 & Hrefs1 & Hentry1).
      destruct (IH s1) as (l & s' & t & Hrun & Hrem & Hrefs & Hframe & Htyped).
      rewrite Hrun1.
      assert (Hgoal : exists l', match c with
        | Unfinished => (Unfinished, s1, t1)
        | _ => match allFulfilled (map delete_id ids) s1 with
               | (Normal l, s2, t2) =>
                   (Normal match c with Normal a => a :: l | _ => l end, s2, t1 ++ t2)
               | (c2, s2, t2) => (c2, s2, t1 ++ t2)
               end
        end = (Normal l', s', t1 ++ t)).
      { rewrite Hrun. destruct c; [by eexists|by eexists|done]. }
      destruct Hgoal as [l' Hgoal].
      exists l', s', (t1 ++ t). split; [destruct c; exact Hgoal|].
      split; [by eapply only_removed_trans|]. split; [auto|]. split.
      + intros k Hk. rewrite Hframe.
        * destruct (Hk id0) as [H1 H2]; [by left|]. by apply Hframe1.
        * intros id Hid. apply Hk. by right.
      + intros Hnostr.
        assert (Hnostr1 : forall id str vs, In id ids ->
                  entries s1 !! id_key id <> Some (StoredString str, vs)).
        { intros id str vs Hid Heq. destruct (Hrem1 (id_key id)) as [H1|H1]; [congruence|].
          rewrite H1 in Heq. by apply (Hnostr id str vs); [right|]. }
        destruct (Htyped Hnostr1) as [Hids Hsegs]. split.
        * intros id [<-|Hid]; [|by apply Hids].
          eapply only_removed_absent; [exact Hrem|].
          destruct (entries s !! id_key id0) as [[[entry|str] vs]|] eqn:Hget.
          -- by apply (Hentry1 entry vs).
          -- exfalso. by apply (Hnostr id0 str vs); [left|].
          -- by eapply only_removed_absent.
        * intros Hr Hpos id entry vs segId Hid Hget Hseg.
          destruct (decide (id = id0)) as [->|Hne].
          -- eapply only_removed_absent; [exact Hrem|].
             by apply (proj2 (Hentry1 entry vs Hget) Hr Hpos).
          -- destruct Hid as [->|Hid]; [done|].
             apply (Hsegs (Hrefs1 Hr) Hpos id entry vs segId Hid); [|done].
             rewrite Hframe1; [done| |].
             ++ intros Heq. by apply id_key_inj in Heq.
             ++ intros segId' Heq. symmetry in Heq.
                by apply segment_key_at_not_id in Heq. }
  destruct H as (l & s' & t & Hrun & Hrem & _ & Hframe & Htyped).
  exists s', (t ++ []). split; [|done].
  unfold bind. rewrite Hrun. done.
Qed.

(** X14 ([delete] of several ids).  It always resolves, it only removes
    entries, and it leaves alone every key that is neither the id-key nor
    a segment key of one of the ids.  When the id-keys of the ids hold
    manifests or nothing, every id-key holds nothing afterwards; when
    moreover the store refuses nothing, the segments that the manifests
    listed are gone as well, also when an id is given twice. *)
Theorem delete_removes_documents (ids : list KvId) (s : Kv LargeStored) :
  exists s' t,
    delete ids s = (Normal tt, s', t) /\
    only_removed s s' /\
    (forall k, (forall id, In id ids ->
                  k <> id_key id /\ forall segId, k <> segment_key_at id segId) ->
       entries s' !! k = entries s !! k) /\
    ((forall id str vs, In id ids -> entries s !! id_key id <> Some (StoredString str, vs)) ->
     (forall id, In id ids -> entries s' !! id_key id = None) /\
     (refusals s = [] -> 0 < ATOMIC_OPERATION_MUTATION_LIMIT ->
      forall id entry vs segId, In id ids ->
        entries s !! id_key id = Some (StoredEntry entry, vs) ->
        In segId (LargeCollection.ids entry) ->
        entries s' !! segment_key_at id segId = None)).
Proof. apply delete_effect. Qed.

(** *** The keys that a write touches *)

Lemma keeps_delete (d : KvId) :
  keeps (fun k => k <> id_key d /\ forall segId, k <> segment_key_at d segId)
        (delete [d]).
Proof.
  intros s k Hk.
  destruct (delete_effect [d] s) as (s' & t & Hrun & _ & Hframe & _).
  rewrite Hrun. cbn [fst snd]. apply Hframe. by intros id [<-|[]].
Qed.

Lemma segment_key_as_at (d : KvId) j : segment_key d j = segment_key_at d (PNumber j).
Proof. reflexivity. Qed.

Lemma write_segments_keys (K : KvKey -> Prop) (d : KvId) (parts : list string) :
  (forall j, ~ K (segment_key d j)) ->
  keeps K (useAtomics ATOMIC_OPERATION_MUTATION_LIMIT parts (set_segment d) (0%Z, [])) /\
  forall s a s1 t,
    useAtomics ATOMIC_OPERATION_MUTATION_LIMIT parts (set_segment d) (0%Z, []) s
      = (Normal a, s1, t) ->
    forall k, In k (snd (snd a)) -> exists j, k = segment_key d j.
Proof.
  intros HK. unfold useAtomics. rewrite LargeSegments.build_batches_segments.
  set (batches := slices (length parts) ATOMIC_OPERATION_MUTATION_LIMIT parts).
  split.
  - apply keeps_bind_any; [|intros; apply keeps_ret].
    apply keeps_mapM. intros op Hop. apply keeps_kv_commit.
    apply in_map_iff in Hop as (batch & <- & Hbatch).
    intros mut Hmut Hk. unfold sets_of in Hmut. cbn [mutations] in Hmut.
    apply in_map_iff in Hmut as (e & <- & He). cbn [mutation_key] in Hk.
    assert (Hin : In (fst e) (map fst (segment_entries d 0 (concat batches)))).
    { rewrite <- LargeSegments.batch_entries_concat. apply in_map.
      apply in_concat. eauto. }
    apply LargeSegments.segment_entries_keys in Hin as (j & _ & Hj).
    rewrite Hj in Hk. by apply (HK j).
  - intros s a s1 t Hrun k Hk.
    unfold bind in Hrun.
    destruct (mapM kv_commit _ s) as [[c s2] t2]. destruct c; [|done|done].
    unfold ret in Hrun. inversion Hrun; subst. cbn [snd app] in Hk.
    apply LargeSegments.segment_entries_keys in Hk as (j & _ & Hj). eauto.
Qed.

Lemma own_keys_segment (d : KvId) j :
  ~ (segment_key d j <> id_key d /\ forall segId, segment_key d j <> segment_key_at d segId).
Proof. intros [_ Hseg]. by apply (Hseg (PNumber j)). Qed.

Lemma keeps_teardown {A} (K : KvKey -> Prop) (keys : list KvKey)
    (rest : IO LargeStored A) :
  (forall k, In k keys -> ~ K k) -> keeps K rest ->
  keeps K (let* _ := allFulfilled (map kv_delete keys) in rest).
Proof.
  intros Hkeys Hrest. apply keeps_bind_any; [|done].
  apply keeps_allFulfilled, Forall_forall. intros p Hp.
  apply list_elem_of_In, in_map_iff in Hp as (k & <- & Hk).
  by apply keeps_kv_delete, Hkeys.
Qed.

Lemma setDocument_keeps fuel (d : KvId) (value : T1) options overwrite :
  keeps (fun k => k <> id_key d /\ forall segId, k <> segment_key_at d segId)
        (setDocument fuel (Some d) value options overwrite).
Proof.
  revert value options. induction fuel as [|fuel IH]; intros value options.
  all: cbn [LargeCollection.setDocument].
  all: destruct (model_parse value) as [parsed|]; [|apply keeps_throw].
  all: apply keeps_bind_any; [apply keeps_kv_commit; intros mut []|]; intros check.
  all: destruct (negb (commit_ok check) && negb overwrite); [apply keeps_ret|].
  all: apply keeps_bind_any;
         [destruct (negb (commit_ok check)); [apply keeps_delete|apply keeps_ret]|];
         intros _.
  all: destruct (write_segments_keys
         (fun k => k <> id_key d /\ forall segId, k <> segment_key_at d segId) d
         (jsonParts_loop LARGE_COLLECTION_STRING_LIMIT
            (String.length (JSON_stringify parsed)) (JSON_stringify parsed) 0 [])
         (own_keys_segment d)) as [Hkeep Hkeys];
       apply (keeps_bind _ _ _ _ Hkeep Hkeys); intros written Hwritten.
  all: match goal with
       | |- keeps ?K (if _ then ?again else _) =>
           assert (Hagain : keeps K again);
           [apply keeps_teardown;
            [intros k Hk [_ Hseg]; destruct (Hwritten k Hk) as [j ->];
             by apply (Hseg (PNumber j))
            |destruct (0 <? retry_of options)%Z;
             [first [apply keeps_unfinished|apply IH]|apply keeps_ret]]
           |]
       end.
  all: match goal with |- keeps _ (if ?b then _ else _) => destruct b end; [done|].
  all: apply keeps_bind_any;
         [apply keeps_kv_commit; intros mut [<-|[]] [Hid _]; by apply Hid|].
  all: intros [vs|]; [apply keeps_ret|done].
Qed.

Lemma setDocument_docId fuel id (value parsed : T1) options overwrite s :
  model_parse value = Some parsed ->
  setDocument fuel id value options overwrite s
  = setDocument fuel
      (Some match id with Some i => i | None => idGenerator parsed end)
      value options overwrite s.
Proof.
  intros Hparse. destruct fuel; cbn [LargeCollection.setDocument]; by rewrite Hparse.
Qed.

(** X15 (a write touches its own keys only).  However
    [setDocument] ends (written, refused, failed after retries, thrown), and
    also when it overwrites, every key other than the id-key and the
    segment keys of the document it writes holds what it held before: no
    other document of the collection, and nothing outside it, is
    changed. *)
Theorem setDocument_isolated (fuel : nat) (id : option KvId) (value parsed : T1)
    (options : option SetOptions) (overwrite : bool) (s : Kv LargeStored) (k : KvKey) :
  model_parse value = Some parsed ->
  let d := match id with Some i => i | None => idGenerator parsed end in
  k <> id_key d ->
  (forall segId, k <> segment_key_at d segId) ->
  entries (snd (fst (setDocument fuel id value options overwrite s))) !! k
  = entries s !! k.
Proof.
  intros Hparse d Hid Hseg.
  rewrite (setDocument_docId fuel id value parsed options overwrite s Hparse).
  by apply (setDocument_keeps fuel d value options overwrite s k).
Qed.

(** What [find] reads: the id-key and the segment keys of the id. *)
Lemma find_depends_on_own_keys id s1 s2 :
  entries s1 !! id_key id = entries s2 !! id_key id ->
  (forall segId, entries s1 !! segment_key_at id segId
                 = entries s2 !! segment_key_at id segId) ->
  fst (fst (find id s1)) = fst (fst (find id s2)).
Proof.
  intros Hid Hseg.
  unfold LargeCollection.find, bind, kv_get. fold (id_key id). rewrite Hid.
  destruct (entries s2 !! id_key id) as [[[entry|str] vs]|]; [|done|done].
  unfold LargeCollection.constructLargeDocument, bind, kvGetMany, kv_getMany.
  cbn beta iota.
  assert (Hentries :
    map (fun k => entries s1 !! k)
      (map (fun segId => extendKey
              (segmentKey (_keys KVDEX_KEY_PREFIX ID_KEY_PREFIX SEGMENT_KEY_PREFIX key))
              [id; segId]) (ids entry))
    = map (fun k => entries s2 !! k)
        (map (fun segId => extendKey
                (segmentKey (_keys KVDEX_KEY_PREFIX ID_KEY_PREFIX SEGMENT_KEY_PREFIX key))
                [id; segId]) (ids entry))).
  { rewrite !map_map. apply map_ext. intros segId. apply Hseg. }
  rewrite Hentries.
  match goal with |- context [if ?b then _ else _] => destruct b end; [done|].
  match goal with |- context [JSON_parse ?j] => destruct (JSON_parse j) end; done.
Qed.

(** X20 (other documents read the same).  Whatever [setDocument] does
    for one document and however it ends, and whatever ids [delete] is
    given, [find] of any other id returns or throws afterwards what it
    returned or threw before. *)
Theorem find_unaffected_by_others (id : KvId) (s : Kv LargeStored) :
  (forall fuel id' value parsed options overwrite,
     model_parse value = Some parsed ->
     id <> match id' with Some i => i | None => idGenerator parsed end ->
     fst (fst (find id (snd (fst (setDocument fuel id' value options overwrite s)))))
     = fst (fst (find id s))) /\
  (forall ids, ~ In id ids ->
     fst (fst (find id (snd (fst (delete ids s))))) = fst (fst (find id s))).
Proof.
  split.
  - intros fuel id' value parsed options overwrite Hparse Hne.
    rewrite (setDocument_docId fuel id' value parsed options overwrite s Hparse).
    apply find_depends_on_own_keys.
    + apply setDocument_keeps. split.
      * intros H. by apply id_key_inj in H.
      * intros segId H. symmetry in H. by apply segment_key_at_not_id in H.
    + intros segId. apply setDocument_keeps. split.
      * apply segment_key_at_not_id.
      * intros segId' H. apply segment_key_at_inj in H as [H _]. done.
  - intros ids Hnot.
    destruct (delete_effect ids s) as (s' & t & Hrun & _ & Hframe & _).
    rewrite Hrun. cbn [fst snd].
    apply find_depends_on_own_keys.
    + apply Hframe. intros id' Hid'. split.
      * intros H. apply id_key_inj in H. by subst.
      * intros segId H. symmetry in H. by apply segment_key_at_not_id in H.
    + intros segId. apply Hframe. intros id' Hid'. split.
      * apply segment_key_at_not_id.
      * intros segId' H. apply segment_key_at_inj in H as [H _]. by subst.
Qed.

Section Written.
Hypothesis getDocumentId_last :
  forall (k : KvKey) (part : KvKeyPart), getDocumentId (k ++ [part]) = Some part.
Hypothesis ATOMIC_LIMIT_positive : 0 < ATOMIC_OPERATION_MUTATION_LIMIT.
Hypothesis LIMIT_positive : 0 < LARGE_COLLECTION_STRING_LIMIT.

(** X16 (deleting what was written).  After a successful [setDocument], a
    [delete] of the returned id on a store that refuses nothing removes
    the manifest and every segment of the document: [find] of the id
    returns null and no segment key of the document holds an entry. *)
Theorem delete_after_set (fuel : nat) (id : option KvId) (value parsed : T1)
    (options : option SetOptions) (overwrite : bool) (s s' : Kv LargeStored)
    (d : KvId) (vs : Versionstamp) (t : list (Event LargeStored)) :
  model_parse value = Some parsed ->
  model_parse parsed = Some parsed ->
  setDocument fuel id value options overwrite s = (Normal (CommitOk d vs), s', t) ->
  refusals s' = [] ->
  exists s'' t',
    delete [d] s' = (Normal tt, s'', t') /\
    find d s'' = (Normal None, s'', [mkEvent (OpGet (id_key d)) s'']) /\
    (forall j : nat,
       j < ceil_div (String.length (JSON_stringify parsed)) LARGE_COLLECTION_STRING_LIMIT ->
       entries s'' !! segment_key d (Z.of_nat j) = None).
Proof using getDocumentId_last ATOMIC_LIMIT_positive LIMIT_positive.
  intros Hparse Hidem Hrun Hrefusals.
  destruct (LargeSegments.setDocument_written T1 model_parse idGenerator JSON_stringify
    KVDEX_KEY_PREFIX ID_KEY_PREFIX SEGMENT_KEY_PREFIX LARGE_COLLECTION_STRING_LIMIT
    ATOMIC_OPERATION_MUTATION_LIMIT getDocumentId key getDocumentId_last
    ATOMIC_LIMIT_positive LIMIT_positive fuel id value options overwrite s d vs s' t
    parsed Hparse Hidem Hrun) as (_ & [Hmanifest _] & _ & _).
  destruct (delete_effect [d] s') as (s'' & t' & Hdel & _ & _ & Htyped).
  destruct Htyped as [Hids Hsegs].
  { intros id' str vs' [<-|[]]. by rewrite Hmanifest. }
  exists s'', t'. split; [exact Hdel|]. split.
  - apply LargeSegments.find_absent. apply Hids. by left.
  - intros j Hj.
    eapply (Hsegs Hrefusals ATOMIC_LIMIT_positive d); [by left|exact Hmanifest|].
    cbn [ids]. unfold segment_indices. apply in_map_iff. exists j. split; [done|].
    apply in_seq. rewrite (json_parts_length _ LIMIT_positive). lia.
Qed.

(** An attempt that failed leaves the id-key without entry, when it held
    a manifest or nothing before. *)
Lemma attempt_failed_id (d : KvId) (parsed : T1) overwrite s s' t :
  (forall str vs, entries s !! id_key d <> Some (StoredString str, vs)) ->
  attempt d parsed overwrite s = (Normal LargeLayout.Failed, s', t) ->
  entries s' !! id_key d = None.
Proof.
  intros Htyped Hrun. unfold LargeLayout.attempt in Hrun.
  unfold bind at 1 in Hrun. unfold kv_commit at 1 in Hrun.
  destruct (commit_step (probe d) s) as [check s0] eqn:Hprobe.
  assert (He0 : entries s0 = entries s).
  { pose proof (commit_step_no_mutations (probe d) s eq_refl) as H.
    by rewrite Hprobe in H. }
  destruct (negb (commit_ok check) && negb overwrite) eqn:Htaken.
  { unfold ret in Hrun. cbn in Hrun. by inversion Hrun. }
  assert (Hpre : exists s2 t2,
    (if negb (commit_ok check) then delete [d] else ret tt) s0 = (Normal tt, s2, t2) /\
    entries s2 !! id_key d = None).
  { destruct check as [vs|]; cbn [commit_ok negb].
    - apply commit_step_ok in Hprobe as (_ & Hchecks & _).
      cbn [LargeLayout.probe op_check checks atomic app forallb] in Hchecks.
      unfold check_passes in Hchecks. cbn [check_key check_versionstamp] in Hchecks.
      unfold ret. eexists _, _. split; [reflexivity|]. rewrite He0.
      destruct (entries s !! id_key d) as [[v vs']|]; [done|done].
    - destruct (delete_effect [d] s0) as (s2 & t2 & Hdel & _ & _ & Hgone).
      destruct Hgone as [Hids _].
      { intros id' str vs' [<-|[]]. rewrite He0. apply Htyped. }
      exists s2, t2. split; [done|]. apply Hids. by left. }
  destruct Hpre as (s2 & t2 & Hpre & Hnone).
  unfold bind at 1 in Hrun. rewrite Hpre in Hrun.
  destruct (write_segments_keys (fun k => k = id_key d) d
    (json_parts LARGE_COLLECTION_STRING_LIMIT (JSON_stringify parsed)))
    as [Hkeep Hkeys].
  { intros j. apply LargeSegments.segment_key_not_id. }
  specialize (Hkeep s2 (id_key d) eq_refl).
  unfold bind at 1 in Hrun.
  destruct (useAtomics _ _ _ _ s2) as [[c3 s3] t3] eqn:Hw. cbn [fst snd] in Hkeep.
  destruct c3 as [written| |]; [|by inversion Hrun|by inversion Hrun].
  specialize (Hkeys s2 written s3 t3 Hw).
  assert (Hdeletes : forall s4,
    entries (snd (fst (allFulfilled (V:=LargeStored)
                         (map kv_delete (snd (snd written))) s4))) !! id_key d
    = entries s4 !! id_key d /\
    exists l, fst (fst (allFulfilled (V:=LargeStored)
                          (map kv_delete (snd (snd written))) s4)) = Normal l).
  { intros s4.
    destruct (allFulfilled_deletes (snd (snd written)) s4)
      as (l & s5 & t5 & Hd & _ & _ & Hother & _).
    rewrite Hd. cbn [fst snd]. split; [|by eexists]. apply Hother.
    intros Hin. destruct (Hkeys _ Hin) as [j Hj]. symmetry in Hj.
    by apply LargeSegments.segment_key_not_id in Hj. }
  destruct (negb ((0 <? length (fst written))%nat && forallb commit_ok (fst written))).
  - destruct (Hdeletes s3) as [He [l Hl]]. unfold bind in Hrun.
    destruct (allFulfilled _ s3) as [[c4 s4] t4]. cbn [fst snd] in He, Hl. subst c4.
    unfold ret in Hrun. inversion Hrun; subst. congruence.
  - unfold bind at 1 in Hrun. unfold kv_commit at 1 in Hrun.
    destruct (commit_step _ s3) as [cr s4] eqn:Hstep.
    destruct cr as [vs|]; [unfold ret in Hrun; cbn in Hrun; by inversion Hrun|].
    apply commit_step_error_entries in Hstep.
    destruct (Hdeletes s4) as [He [l Hl]]. unfold bind in Hrun.
    destruct (allFulfilled _ s4) as [[c5 s5] t5]. cbn [fst snd] in He, Hl. subst c5.
    unfold ret in Hrun. inversion Hrun; subst. congruence.
Qed.

(** A write that answers `{ok:false}` puts no entry where none was, and
    either found the id-key taken or leaves the id-key and the segment
    keys of the text without entry, however often the model normalised the
    value on the way. *)
Lemma attempts_failed fuel id (value parsed : T1) options overwrite s s' t :
  model_parse value = Some parsed ->
  let d := match id with Some i => i | None => idGenerator parsed end in
  (forall str vs, entries s !! id_key d <> Some (StoredString str, vs)) ->
  setDocument_attempts fuel id value options overwrite s = (Normal CommitError, s', t) ->
  (forall k, entries s !! k = None -> entries s' !! k = None) /\
  (entries s' = entries s \/
   (entries s' !! id_key d = None /\
    forall (j : nat) part,
      json_parts LARGE_COLLECTION_STRING_LIMIT (JSON_stringify parsed) !! j = Some part ->
      entries s' !! segment_key d (Z.of_nat j) = None)).
Proof using getDocumentId_last ATOMIC_LIMIT_positive LIMIT_positive.
  revert id value parsed options s t.
  induction fuel as [|fuel IH]; intros id value parsed options s t Hparse d Htyped Hrun.
  all: destruct (LargeSegments.attempt_outcome T1 JSON_stringify KVDEX_KEY_PREFIX
         ID_KEY_PREFIX SEGMENT_KEY_PREFIX LARGE_COLLECTION_STRING_LIMIT
         ATOMIC_OPERATION_MUTATION_LIMIT getDocumentId key getDocumentId_last
         ATOMIC_LIMIT_positive LIMIT_positive d parsed overwrite s)
         as (outcome & s1 & t1 & Hattempt & Hframe & Hout).
  all: rewrite (LargeSegments.setDocument_attempts_step T1 model_parse idGenerator
         JSON_stringify KVDEX_KEY_PREFIX ID_KEY_PREFIX SEGMENT_KEY_PREFIX
         LARGE_COLLECTION_STRING_LIMIT ATOMIC_OPERATION_MUTATION_LIMIT getDocumentId key
         _ id value parsed options overwrite s outcome s1 t1 Hparse Hattempt) in Hrun.
  all: fold d in Hrun.
  all: destruct outcome as [vs| |];
         [discriminate Hrun
         |destruct Hout as (_ & _ & _ & _ & He); inversion Hrun; subst;
          split; [intros k Hk; by rewrite He|by left]
         |].
  all: pose proof (attempt_failed_id d parsed overwrite s s1 t1 Htyped Hattempt) as Hid.
  all: assert (Hsegs : forall (j : nat) part,
         json_parts LARGE_COLLECTION_STRING_LIMIT (JSON_stringify parsed) !! j = Some part ->
         entries s1 !! segment_key d (Z.of_nat j) = None)
       by (intros j part Hj;
           apply (Hout (segment_key d (0 + Z.of_nat j), StoredString part));
           by apply LargeSegments.segment_entries_lookup).
  all: assert (Hnone : forall k, entries s !! k = None -> entries s1 !! k = None)
       by (intros k Hk; destruct (decide (k = id_key d)) as [->|Hne]; [done|];
           destruct (List.in_dec (fun x y => decide (x = y)) k
                       (map fst (segment_entries d 0
                          (json_parts LARGE_COLLECTION_STRING_LIMIT
                             (JSON_stringify parsed))))) as [Hin|Hnin];
           [apply in_map_iff in Hin as (e & <- & He); by apply Hout
           |destruct (Hframe k Hne Hnin) as [H|H]; [done|by rewrite H]]).
  all: destruct (0 <? retry_of options)%Z;
         [|inversion Hrun; subst; split; [exact Hnone|right; by split]].
  - discriminate Hrun.
  - cbn zeta in Hrun.
    destruct (model_parse parsed) as [again|] eqn:Hagain.
    + destruct (LargeLayout.setDocument_attempts _ _ _ _ _ _ _ _ _ _ _ fuel _ _ _ _ s1)
        as [[c2 s2] t2] eqn:Hrec.
      cbn in Hrun. inversion Hrun; subst c2 s2 t.
      assert (Htyped1 : forall str vs,
                entries s1 !! id_key d <> Some (StoredString str, vs))
        by (intros; by rewrite Hid).
      destruct (IH (Some d) parsed again _ s1 t2 Hagain Htyped1 Hrec)
        as [Hnone' [He|[Hid' Hsegs']]].
      * split; [intros k Hk; by apply Hnone', Hnone|].
        right. rewrite He. by split.
      * split; [intros k Hk; by apply Hnone', Hnone|].
        right. split; [exact Hid'|]. intros j part Hj. by apply Hnone', (Hsegs j part).
    + rewrite (LargeSegments.setDocument_attempts_rejects T1 model_parse idGenerator
        JSON_stringify KVDEX_KEY_PREFIX ID_KEY_PREFIX SEGMENT_KEY_PREFIX
        LARGE_COLLECTION_STRING_LIMIT ATOMIC_OPERATION_MUTATION_LIMIT getDocumentId key
        _ _ _ _ _ _ Hagain) in Hrun.
      discriminate Hrun.
Qed.

(** X17 (a failed write leaves no document).  When the id-key held a
    manifest or nothing and [setDocument] of a value that the model
    accepts returns `{ok:false}`, either the entries of the store are
    untouched (the id-key was found taken and must not be overwritten), or
    the document is absent afterwards: the id-key holds nothing, also when
    it held a document that was to be overwritten, and no segment key of
    the text of the normalised value holds an entry.  The model need not
    leave a normalised value unchanged; both limits are positive and
    [getDocumentId] returns the last part of a key. *)
Theorem failed_write_leaves_no_document (fuel : nat) (id : option KvId)
    (value parsed : T1) (options : option SetOptions) (overwrite : bool)
    (s s' : Kv LargeStored) (t : list (Event LargeStored)) :
  model_parse value = Some parsed ->
  let d := match id with Some i => i | None => idGenerator parsed end in
  (forall str vs, entries s !! id_key d <> Some (StoredString str, vs)) ->
  setDocument fuel id value options overwrite s = (Normal CommitError, s', t) ->
  entries s' = entries s \/
  (find d s' = (Normal None, s', [mkEvent (OpGet (id_key d)) s']) /\
   forall j : nat,
     j < ceil_div (String.length (JSON_stringify parsed)) LARGE_COLLECTION_STRING_LIMIT ->
     entries s' !! segment_key d (Z.of_nat j) = None).
Proof using getDocumentId_last ATOMIC_LIMIT_positive LIMIT_positive.
  intros Hparse d Htyped Hrun.
  rewrite LargeSegments.setDocument_as_attempts in Hrun.
  destruct (attempts_failed fuel id value parsed options overwrite s s' t
              Hparse Htyped Hrun) as [_ [He|[Hid Hsegs]]]; [by left|right].
  split; [by apply LargeSegments.find_absent|].
  intros j Hj. rewrite <- (json_parts_length _ LIMIT_positive) in Hj.
  apply lookup_lt_is_Some in Hj as [part Hpart]. by apply (Hsegs j part).
Qed.

(** *** Overwriting *)

Lemma attempt_unfold (d : KvId) (parsed : T1) overwrite s :
  attempt d parsed overwrite s
  = bind (kv_commit (probe d)) (fun check =>
      if negb (commit_ok check) && negb overwrite then ret LargeLayout.Taken
      else bind (if negb (commit_ok check) then delete [d] else ret tt)
             (fun _ => LargeLayout.write_parts T1 JSON_stringify KVDEX_KEY_PREFIX
                         ID_KEY_PREFIX SEGMENT_KEY_PREFIX LARGE_COLLECTION_STRING_LIMIT
                         ATOMIC_OPERATION_MUTATION_LIMIT getDocumentId key d parsed)) s.
Proof. reflexivity. Qed.

Section Orphans.
Variable d : KvId.
Variable parsed : T1.
Variable old : list KvId.
Hypothesis parsed_normal : model_parse parsed = Some parsed.

Local Abbreviation unused :=
  (LargeLayout.unused_segment KVDEX_KEY_PREFIX ID_KEY_PREFIX SEGMENT_KEY_PREFIX key d old
     (length (json_parts LARGE_COLLECTION_STRING_LIMIT (JSON_stringify parsed)))).

Lemma write_parts_never_adds :
  never_adds unused
    (LargeLayout.write_parts T1 JSON_stringify KVDEX_KEY_PREFIX ID_KEY_PREFIX
       SEGMENT_KEY_PREFIX LARGE_COLLECTION_STRING_LIMIT ATOMIC_OPERATION_MUTATION_LIMIT
       getDocumentId key d parsed).
Proof using ATOMIC_LIMIT_positive LIMIT_positive.
  unfold LargeLayout.write_parts.
  apply never_adds_bind_any.
  - apply never_adds_keeps. unfold useAtomics.
    rewrite LargeSegments.build_batches_segments.
    rewrite slices_concat by (done || lia).
    apply keeps_bind_any; [|intros; apply keeps_ret].
    apply keeps_mapM. intros op Hop. apply keeps_kv_commit.
    apply in_map_iff in Hop as (batch & <- & Hbatch).
    intros mut Hmut (segId & _ & Hk & Hnew). unfold sets_of in Hmut. cbn [mutations] in Hmut.
    apply in_map_iff in Hmut as (e & <- & He). cbn [mutation_key] in Hk.
    assert (Hin : In (fst e) (map fst (segment_entries d 0
              (json_parts LARGE_COLLECTION_STRING_LIMIT (JSON_stringify parsed))))).
    { match type of Hbatch with
      | In _ (LargeLayout.batch_entries _ _ _ _ _ _ ?batches) =>
          pose proof (LargeSegments.batch_entries_concat KVDEX_KEY_PREFIX ID_KEY_PREFIX
                        SEGMENT_KEY_PREFIX key d 0 batches) as Hc
      end.
      rewrite slices_concat in Hc by (done || lia). rewrite <- Hc.
      apply in_map, in_concat. eauto. }
    apply LargeSegments.segment_entries_keys in Hin as (j & Hj & Hkey).
    rewrite Hkey in Hk. apply segment_key_at_inj in Hk as [_ Hseg].
    apply (Hnew (Z.to_nat j)); [lia|]. rewrite <- Hseg. f_equal. lia.
  - intros written.
    assert (Hmanifest : forall keys, never_adds unused (kv_commit (manifest d keys))).
    { intros keys. apply never_adds_keeps, keeps_kv_commit.
      intros mut [<-|[]] (segId & _ & Hk & _). cbn [mutation_key] in Hk.
      symmetry in Hk. by apply segment_key_at_not_id in Hk. }
    destruct (negb _).
    + apply never_adds_bind_any; [apply never_adds_deletes|].
      intros. apply never_adds_keeps, keeps_ret.
    + apply never_adds_bind_any; [apply Hmanifest|]. intros [vs|].
      * apply never_adds_keeps, keeps_ret.
      * apply never_adds_bind_any; [apply never_adds_deletes|].
        intros. apply never_adds_keeps, keeps_ret.
Qed.

Lemma attempt_never_adds overwrite : never_adds unused (attempt d parsed overwrite).
Proof using ATOMIC_LIMIT_positive LIMIT_positive.
  intros s. rewrite attempt_unfold. revert s.
  apply never_adds_bind_any.
  - apply never_adds_keeps, keeps_kv_commit. intros mut [].
  - intros check. destruct (negb (commit_ok check) && negb overwrite).
    + apply never_adds_keeps, keeps_ret.
    + apply never_adds_bind_any; [|intros; apply write_parts_never_adds].
      destruct (negb (commit_ok check)); [|apply never_adds_keeps, keeps_ret].
      apply never_adds_removed. intros s.
      destruct (delete_effect [d] s) as (s' & t & Hrun & Hrem & _).
      by rewrite Hrun.
Qed.

Lemma attempts_never_add fuel options overwrite :
  never_adds unused (setDocument_attempts fuel (Some d) parsed options overwrite).
Proof using ATOMIC_LIMIT_positive LIMIT_positive parsed_normal.
  revert options. induction fuel as [|fuel IH]; intros options.
  all: cbn [LargeLayout.setDocument_attempts]; rewrite parsed_normal.
  all: apply never_adds_bind_any; [apply attempt_never_adds|].
  all: intros [vs| |]; try apply never_adds_keeps, keeps_ret.
  all: destruct (0 <? retry_of options)%Z; try apply never_adds_keeps, keeps_ret.
  - apply never_adds_keeps, keeps_unfinished.
  - apply IH.
Qed.

End Orphans.

(** X18 (an overwrite leaves no orphan segments).  When the id-key holds
    a manifest, the store refuses nothing and [setDocument] is called with
    [overwrite], then however the write ends, no segment that the prior
    manifest listed and that the new text does not use holds an entry
    afterwards: a shorter document leaves no segment of the longer one it
    replaces. *)
Theorem overwrite_leaves_no_orphans (fuel : nat) (id : option KvId) (value parsed : T1)
    (options : option SetOptions) (s : Kv LargeStored) (entry : LargeDocumentEntry)
    (vs0 : Versionstamp) (segId : KvId) :
  model_parse value = Some parsed ->
  model_parse parsed = Some parsed ->
  let d := match id with Some i => i | None => idGenerator parsed end in
  entries s !! id_key d = Some (StoredEntry entry, vs0) ->
  refusals s = [] ->
  In segId (ids entry) ->
  (forall j : nat,
     j < ceil_div (String.length (JSON_stringify parsed)) LARGE_COLLECTION_STRING_LIMIT ->
     segId <> PNumber (Z.of_nat j)) ->
  entries (snd (fst (setDocument fuel id value options true s)))
    !! segment_key_at d segId = None.
Proof using ATOMIC_LIMIT_positive LIMIT_positive.
  intros Hparse Hidem d Hentry Hrefusals Hold Hnew.
  set (n := length (json_parts LARGE_COLLECTION_STRING_LIMIT (JSON_stringify parsed))).
  assert (Hk : LargeLayout.unused_segment KVDEX_KEY_PREFIX ID_KEY_PREFIX SEGMENT_KEY_PREFIX
                 key d (ids entry) n (segment_key_at d segId)).
  { exists segId. split; [done|]. split; [done|]. intros j Hj. apply Hnew.
    unfold n in Hj. by rewrite (json_parts_length _ LIMIT_positive) in Hj. }
  set (s0 := mkKv (entries s) (clock s) []).
  assert (Hprobe : commit_step (probe d) s = (KvCommitError, s0)).
  { unfold commit_step, refused. rewrite Hrefusals.
    cbn [LargeLayout.probe op_check checks atomic app forallb]. unfold check_passes.
    cbn [check_key check_versionstamp]. by rewrite Hentry. }
  destruct (delete_effect [d] s0) as (s2 & t2 & Hdel & _ & _ & Htyped).
  destruct Htyped as [_ Hsegs].
  { intros id' str vs' [<-|[]]. cbn [entries s0]. by rewrite Hentry. }
  assert (Hclear : forall k,
    LargeLayout.unused_segment KVDEX_KEY_PREFIX ID_KEY_PREFIX SEGMENT_KEY_PREFIX
      key d (ids entry) n k -> entries s2 !! k = None).
  { intros k (g & Hg & -> & _).
    by apply (Hsegs eq_refl ATOMIC_LIMIT_positive d entry vs0 g); [left| |]. }
  pose proof (write_parts_never_adds d parsed (ids entry) s2 Hclear) as Hwritten.
  rewrite LargeSegments.setDocument_as_attempts.
  assert (Hcont : forall outcome s3 fuel',
    (forall k, LargeLayout.unused_segment KVDEX_KEY_PREFIX ID_KEY_PREFIX SEGMENT_KEY_PREFIX
                 key d (ids entry) n k -> entries s3 !! k = None) ->
    entries (snd (fst (
      match outcome with
      | LargeLayout.Written versionstamp => ret (CommitOk d versionstamp)
      | LargeLayout.Taken => ret CommitError
      | LargeLayout.Failed =>
          if (0 <? retry_of options)%Z
          then match fuel' with
               | S attempts' =>
                   setDocument_attempts attempts' (Some d) parsed
                     (Some (mkSetOptions (Some (retry_of options - 1)%Z))) true
               | O => unfinished
               end
          else ret CommitError
      end s3))) !! segment_key_at d segId = None).
  { intros outcome s3 fuel' H3.
    destruct outcome as [vs| |]; [by apply H3|by apply H3|].
    destruct (0 <? retry_of options)%Z; [|by apply H3].
    destruct fuel' as [|fuel']; [by apply H3|].
    by apply (attempts_never_add d parsed (ids entry) Hidem fuel'
      (Some (mkSetOptions (Some (retry_of options - 1)%Z))) true s3 H3). }
  destruct (LargeLayout.write_parts T1 JSON_stringify KVDEX_KEY_PREFIX ID_KEY_PREFIX
              SEGMENT_KEY_PREFIX LARGE_COLLECTION_STRING_LIMIT
              ATOMIC_OPERATION_MUTATION_LIMIT getDocumentId key d parsed s2)
    as [[c3 s3] t3] eqn:Hwp.
  cbn [fst snd] in Hwritten.
  assert (Hattempt : attempt d parsed true s
    = (c3, s3, [mkEvent (OpCommit (probe d) KvCommitError) s0] ++ t2 ++ t3)).
  { rewrite attempt_unfold. unfold bind at 1. unfold kv_commit at 1. rewrite Hprobe.
    cbn [commit_ok negb andb]. unfold bind at 1. rewrite Hdel, Hwp. done. }
  destruct fuel as [|fuel]; cbn [LargeLayout.setDocument_attempts];
    rewrite Hparse; fold d.
  - destruct c3 as [outcome| |].
    + rewrite (bind_normal _ _ _ _ _ _ Hattempt). cbn [fst snd].
      by apply (Hcont outcome s3 0).
    + unfold bind. rewrite Hattempt. by apply Hwritten.
    + unfold bind. rewrite Hattempt. by apply Hwritten.
  - destruct c3 as [outcome| |].
    + rewrite (bind_normal _ _ _ _ _ _ Hattempt). cbn [fst snd].
      by apply (Hcont outcome s3 (S fuel)).
    + unfold bind. rewrite Hattempt. by apply Hwritten.
    + unfold bind. rewrite Hattempt. by apply Hwritten.
Qed.

End Written.

End Laws.
End LargeLaws.

(** * The further properties at concrete inputs *)

Module LawWitnesses.
Import AtomicBuilder BuilderCalls LargeCollection LargeLayout Instances.

(** A set of the note `n1`, which the store holds already, is answered
    `{ok:false}` and leaves the store as it was. *)
Lemma commit_all_or_nothing_witness :
  let run := commit (chain last_part [CallSet (PString "n1") (VPart (PString "new"))]
                       (new tt notes)) one_note in
  fst (fst run) = Normal KvCommitError /\
  entries (snd (fst run)) = entries one_note /\
  clock (snd (fst run)) = clock one_note.
Proof.
  assert (Hrun : fst (fst (commit (chain last_part
                   [CallSet (PString "n1") (VPart (PString "new"))]
                   (new tt notes)) one_note)) = Normal KvCommitError)
    by (vm_compute; reflexivity).
  split; [exact Hrun|].
  exact (BuilderLaws.commit_all_or_nothing last_part tt notes
           [CallSet (PString "n1") (VPart (PString "new"))] one_note _ _
           (Witnesses.triple_eta _ _ Hrun)).
Defined.

(** A guest and a note in one commit on the empty store. *)
Lemma commit_inserts_witness :
  exists cr s' t,
    commit (chain last_part
              [CallAdd (PString "g1") (guest "a");
               CallSelect (fun _ => notes);
               CallSet (PString "n1") (VPart (PString "hello"))]
              (new tt users)) empty_kv = (Normal cr, s', t) /\
    commit_ok cr = true.
Proof.
  destruct (BuilderLaws.commit_inserts last_part tt users
    [CallAdd (PString "g1") (guest "a"); CallSelect (fun _ => notes);
     CallSet (PString "n1") (VPart (PString "hello"))] empty_kv)
    as (cr & s' & Hrun & Hok & _).
  - repeat constructor.
  - exists cr, s'. eexists. split; [exact Hrun|].
    apply Hok. split; [reflexivity|]. intros e _. apply lookup_empty.
Defined.

(** The user `u1` is found under its email after the commit. *)
Lemma commit_stores_document_witness :
  exists s' t augmented,
    commit (call last_part (new tt users)
              (insert_call ViaSet (PString "u1") (user "a" "x"))) empty_kv
      = (Normal (KvCommitResult 0%Z), s', t) /\
    entries s' !! primaryIndexKey users_index "email" (PString "x")
      = Some (VObject augmented, 0%Z) /\
    get_property augmented "__id__" = Some (VPart (PString "u1")) /\
    get_property augmented "name" = Some (VPart (PString "a")).
Proof.
  destruct (BuilderLaws.commit_stores_document last_part tt users ViaSet
    (PString "u1") (user "a" "x") empty_kv) as (s' & t & Hrun & _ & Hprimary & _).
  - reflexivity.
  - intros e _. apply lookup_empty.
  - apply (bool_decide_unpack _). vm_compute. exact I.
  - destruct (Hprimary users_index "email"%string (PString "x"))
      as (augmented & Hentry & Hid & Hothers); [reflexivity|by left|reflexivity|].
    exists s', t, augmented. split; [exact Hrun|]. split; [exact Hentry|].
    split; [exact Hid|]. by rewrite Hothers.
Defined.

(** A set and a delete of notes: one store call. *)
Lemma plain_commit_one_call_witness :
  length (snd (commit (chain last_part
                         [CallSet (PString "n2") (VPart (PString "new"));
                          CallDelete (PString "n1")]
                         (new tt notes)) one_note)) = 1.
Proof.
  rewrite (BuilderLaws.plain_commit_one_call last_part tt notes
    [CallSet (PString "n2") (VPart (PString "new")); CallDelete (PString "n1")] one_note).
  - reflexivity.
  - reflexivity.
  - intros selector [H|[H|[]]]; discriminate H.
Defined.

(** Deleting the note `n1` and setting it again in one commit fails. *)
Lemma write_never_overwrites_witness :
  exists s' t,
    commit (chain last_part
              ([CallDelete (PString "n1")]
               ++ CallSet (PString "n1") (VPart (PString "new")) :: [])
              (new tt notes)) one_note = (Normal KvCommitError, s', t) /\
    entries s' = entries one_note /\ clock s' = clock one_note.
Proof.
  apply (BuilderLaws.write_never_overwrites last_part tt notes
    [CallDelete (PString "n1")] [] (CallSet (PString "n1") (VPart (PString "new")))
    (PString "n1") one_note).
  - reflexivity.
  - vm_compute. eexists. reflexivity.
Defined.

(** A check of the versionstamp of `n1` and a set of `n1` fail together. *)
Lemma check_excludes_write_witness :
  exists s' t,
    commit (chain last_part
              ([] ++ CallCheck [(PString "n1", Some 0%Z)]
                  :: [CallSet (PString "n1") (VPart (PString "new"))])
              (new tt notes)) one_note = (Normal KvCommitError, s', t) /\
    entries s' = entries one_note /\ clock s' = clock one_note.
Proof.
  apply (BuilderLaws.check_excludes_write last_part tt notes
    [] [CallSet (PString "n1") (VPart (PString "new"))]
    [CallCheck [(PString "n1", Some 0%Z)]] []
    [(PString "n1", Some 0%Z)] (CallSet (PString "n1") (VPart (PString "new")))
    (PString "n1") 0%Z one_note).
  - reflexivity.
  - by left.
  - reflexivity.
  - reflexivity.
Defined.

(** Deleting the user `u1` removes its email index entry. *)
Lemma delete_cleans_indexes_witness :
  exists s' t,
    commit (AtomicBuilder.delete (PString "u1") (new tt users)) one_user
      = (Normal (KvCommitResult (clock one_user)), s', t) /\
    entries s' !! primaryIndexKey users_index "email" (PString "x") = None.
Proof.
  destruct (BuilderLaws.delete_cleans_indexes tt users users_index (PString "u1")
    (user "a" "x") 0%Z one_user) as (s' & t & Hrun & _ & _ & Hprimary & _).
  - reflexivity.
  - vm_compute. reflexivity.
  - vm_compute. reflexivity.
  - exists s', t. split; [exact Hrun|].
    apply Hprimary; [by left|reflexivity].
Defined.

(** Setting and deleting the user `u1` leaves the empty store empty. *)
Lemma insert_then_delete_restores_witness :
  exists s1 t1 s2 t2,
    commit (call last_part (new tt users)
              (insert_call ViaSet (PString "u1") (user "a" "x"))) empty_kv
      = (Normal (KvCommitResult (clock empty_kv)), s1, t1) /\
    commit (AtomicBuilder.delete (PString "u1") (new tt users)) s1
      = (Normal (KvCommitResult (clock empty_kv + 1)%Z), s2, t2) /\
    entries s2 = entries empty_kv.
Proof.
  apply (BuilderLaws.insert_then_delete_restores last_part tt users users_index ViaSet
    (PString "u1") (user "a" "x") empty_kv).
  - reflexivity.
  - reflexivity.
  - intros e _. apply lookup_empty.
  - intros [H|[]]. discriminate H.
Defined.

(** `mutate` with a set of `u1` commits like `set`. *)
Lemma mutate_set_as_set_witness :
  commit (chain last_part []
            (mutate last_part [MutateSet (PString "u1") (user "a" "x")] (new tt users)))
    empty_kv
  = commit (chain last_part [] (set (PString "u1") (user "a" "x") (new tt users)))
      empty_kv.
Proof.
  apply (BuilderLaws.mutate_set_as_set last_part (new tt users) (PString "u1")
    (user "a" "x") [] empty_kv).
  reflexivity.
Defined.

(** `mutate` with a delete of `u1` commits like `delete`. *)
Lemma mutate_delete_as_delete_witness :
  commit (chain last_part []
            (mutate last_part [MutateDelete (PString "u1")] (new tt users))) one_user
  = commit (chain last_part [] (AtomicBuilder.delete (PString "u1") (new tt users)))
      one_user.
Proof.
  apply (BuilderLaws.mutate_delete_as_delete last_part (new tt users) (PString "u1")
    [] one_user).
  reflexivity.
Defined.

(** Of `doc1` and `nope` only `doc1` is found. *)
Lemma findMany_agrees_with_find_witness :
  exists found t,
    docs_findMany [PString "doc1"; PString "nope"] one_doc = (Normal found, one_doc, t) /\
    forall doc, In doc found <->
      exists id, In id [PString "doc1"; PString "nope"] /\
        fst (fst (docs_find id one_doc)) = Normal (Some doc).
Proof.
  destruct (LargeLaws.findMany_agrees_with_find nat number_parse KVDEX ID SEGMENT
    last_part docs Witnesses.last_part_last [PString "doc1"; PString "nope"] one_doc)
    as (found & t & Hrun & _ & Hin).
  exists found, t. split; [exact Hrun|exact Hin].
Defined.

(** Writing `doc2` leaves the manifest of `doc1` as it is. *)
Lemma setDocument_isolated_witness :
  entries (snd (fst (docs_set 1 (Some (PString "doc2")) 7 None false one_doc)))
    !! docs_id_key (PString "doc1")
  = entries one_doc !! docs_id_key (PString "doc1").
Proof.
  apply (LargeLaws.setDocument_isolated nat Some (fun _ => PString "generated")
    number_stringify KVDEX ID SEGMENT 2 2 last_part docs 1 (Some (PString "doc2")) 7 7
    None false one_doc (docs_id_key (PString "doc1"))).
  - reflexivity.
  - intros H. discriminate H.
  - intros segId H. discriminate H.
Defined.

(** After `docs.set("doc1", 12345)` and `docs.delete("doc1")` the
    document is not found. *)
Lemma delete_after_set_witness :
  exists s'' t',
    docs_delete [PString "doc1"] one_doc = (Normal tt, s'', t') /\
    docs_find (PString "doc1") s''
      = (Normal None, s'', [mkEvent (OpGet (docs_id_key (PString "doc1"))) s'']).
Proof.
  destruct (LargeLaws.delete_after_set nat Some (fun _ => PString "generated")
    number_stringify number_parse KVDEX ID SEGMENT 2 2 last_part docs
    Witnesses.last_part_last ltac:(lia) ltac:(lia) 1 (Some (PString "doc1")) 12345 12345
    None false empty_docs one_doc (PString "doc1") 3%Z one_doc_calls eq_refl eq_refl)
    as (s'' & t' & Hdel & Hfind & _).
  - apply Witnesses.triple_eta. vm_compute. reflexivity.
  - vm_compute. reflexivity.
  - exists s'', t'. split; [exact Hdel|exact Hfind].
Defined.

(** A write whose segment batch is refused in both attempts, behind a
    model that changes its own output, leaves no document. *)
Lemma failed_write_leaves_no_document_witness :
  let s' := snd (fst (counters_set 1 (Some (PString "doc1")) 5
                        (Some (mkSetOptions (Some 1%Z))) false stubborn_docs)) in
  entries s' = entries stubborn_docs \/
  (docs_find (PString "doc1") s'
     = (Normal None, s', [mkEvent (OpGet (docs_id_key (PString "doc1"))) s']) /\
   forall j : nat,
     j < ceil_div (String.length (number_stringify 6)) 2 ->
     entries s' !! LargeLayout.segment_key KVDEX ID SEGMENT docs (PString "doc1") (Z.of_nat j)
     = None).
Proof.
  apply (LargeLaws.failed_write_leaves_no_document nat successor
    (fun _ => PString "generated") number_stringify number_parse KVDEX ID SEGMENT 2 2
    last_part docs Witnesses.last_part_last ltac:(lia) ltac:(lia) 1
    (Some (PString "doc1")) 5 6 (Some (mkSetOptions (Some 1%Z))) false stubborn_docs _
    (snd (counters_set 1 (Some (PString "doc1")) 5
            (Some (mkSetOptions (Some 1%Z))) false stubborn_docs))
    eq_refl).
  - intros str vs H. vm_compute in H. discriminate H.
  - apply Witnesses.triple_eta. vm_compute. reflexivity.
Defined.

(** Overwriting `12345` (three segments) by `7` (one segment) leaves no
    third segment. *)
Lemma overwrite_leaves_no_orphans_witness :
  entries (snd (fst (docs_set 1 (Some (PString "doc1")) 7 None true one_doc)))
    !! docs_segment_key (PString "doc1") (PNumber 2)
  = None.
Proof.
  apply (LargeLaws.overwrite_leaves_no_orphans nat Some (fun _ => PString "generated")
    number_stringify KVDEX ID SEGMENT 2 2 last_part docs ltac:(lia) ltac:(lia) 1
    (Some (PString "doc1")) 7 7 None one_doc (mkEntry (segment_indices 3)) 3%Z (PNumber 2)).
  - reflexivity.
  - reflexivity.
  - vm_compute. reflexivity.
  - vm_compute. reflexivity.
  - right. right. by left.
  - intros j Hj H. change (j < 1) in Hj. assert (j = 0) as -> by lia. discriminate H.
Defined.

End LawWitnesses.
